(** * Configuration import: reconciliation engine of odoo_config_management

    A shallow embedding of [models/yaml_storage.py] ([read_yaml],
    [import_ir_model_data]), [models/config_importer.py]
    ([MinimalConfigImporter]), [models/config_factory.py] ([import_all],
    [validate_import_path]) and the record projections of
    [models/config_exporter.py], and the properties proved about them.

    Python values loaded from YAML are the untyped [pyval]; the code runs
    in a state-and-exception monad over a [world] made of the file system,
    the live records of the Odoo environment, the trace of ORM calls and
    the log. *)

From stdpp Require Import base strings list gmap.

(** ** Python values *)

(** What [yaml.safe_load] yields for the documents of a snapshot: null,
    booleans, integers, strings, sequences and mappings with string keys.
    A mapping keeps its entries in insertion order, as a Python dict. *)
#[warnings="-register-all"]
Inductive pyval : Type :=
  | PNone
  | PBool (b : bool)
  | PInt (z : Z)
  | PStr (s : string)
  | PList (items : list pyval)
  | PDict (entries : list (string * pyval)).

Abbreviation dict := (list (string * pyval)).

Definition pyval_eq_dec : ∀ a b : pyval, {a = b} + {a ≠ b}.
Proof.
  fix IH 1.
  intros [|x|x|x|xs|xs] [|y|y|y|ys|ys]; try (right; discriminate); try (left; reflexivity).
  - destruct (decide (x = y)) as [->|]; [left; reflexivity | right; congruence].
  - destruct (Z.eq_dec x y) as [->|]; [left; reflexivity | right; congruence].
  - destruct (decide (x = y)) as [->|]; [left; reflexivity | right; congruence].
  - assert (Hl : {xs = ys} + {xs ≠ ys}).
    { revert ys. induction xs as [|a xs IHxs]; intros [|b ys];
        try (right; discriminate); try (left; reflexivity).
      destruct (IH a b) as [->|]; [|right; congruence].
      destruct (IHxs ys) as [->|]; [left; reflexivity | right; congruence]. }
    destruct Hl as [->|]; [left; reflexivity | right; congruence].
  - assert (Hl : {xs = ys} + {xs ≠ ys}).
    { revert ys. induction xs as [|[k a] xs IHxs]; intros [|[k' b] ys];
        try (right; discriminate); try (left; reflexivity).
      destruct (decide (k = k')) as [->|]; [|right; congruence].
      destruct (IH a b) as [->|]; [|right; congruence].
      destruct (IHxs ys) as [->|]; [left; reflexivity | right; congruence]. }
    destruct Hl as [->|]; [left; reflexivity | right; congruence].
Defined.

#[global] Instance pyval_eq_decision : EqDecision pyval := pyval_eq_dec.

(** [type(v).__name__], as it appears in the interpreter's messages. *)
Definition type_name (v : pyval) : string :=
  match v with
  | PNone => "NoneType"
  | PBool _ => "bool"
  | PInt _ => "int"
  | PStr _ => "str"
  | PList _ => "list"
  | PDict _ => "dict"
  end.

(** [bool(v)]. *)
Definition py_truthy (v : pyval) : bool :=
  match v with
  | PNone => false
  | PBool b => b
  | PInt z => negb (Z.eqb z 0)
  | PStr s => negb (String.eqb s EmptyString)
  | PList l => match l with [] => false | _ => true end
  | PDict d => match d with [] => false | _ => true end
  end.

(** ** Dictionaries *)

Fixpoint dict_get (k : string) (d : dict) : option pyval :=
  match d with
  | [] => None
  | (k', v) :: d' => if decide (k' = k) then Some v else dict_get k d'
  end.

(** [d[k] = v]: an existing key keeps its position, a new one goes last. *)
Fixpoint dict_set (k : string) (v : pyval) (d : dict) : dict :=
  match d with
  | [] => [(k, v)]
  | (k', v') :: d' =>
      if decide (k' = k) then (k, v) :: d' else (k', v') :: dict_set k v d'
  end.

(** [d.pop(k, None)], keeping the dictionary. *)
Fixpoint dict_pop (k : string) (d : dict) : dict :=
  match d with
  | [] => []
  | (k', v) :: d' =>
      if decide (k' = k) then dict_pop k d' else (k', v) :: dict_pop k d'
  end.

(** [a == b]: a boolean equals the integer it counts as ([True == 1],
    [False == 0]), sequences are equal item by item, and mappings when they
    have the same keys with equal values, in whatever order. *)
Fixpoint py_eq (a b : pyval) : bool :=
  match a, b with
  | PNone, PNone => true
  | PBool x, PBool y => bool_decide (x = y)
  | PBool x, PInt z | PInt z, PBool x => bool_decide (z = if x then 1%Z else 0%Z)
  | PInt x, PInt y => bool_decide (x = y)
  | PStr x, PStr y => bool_decide (x = y)
  | PList xs, PList ys =>
      (fix items_eq (xs ys : list pyval) : bool :=
         match xs, ys with
         | [], [] => true
         | x :: xs', y :: ys' => py_eq x y && items_eq xs' ys'
         | _, _ => false
         end) xs ys
  | PDict dx, PDict dy =>
      bool_decide (length dx = length dy) &&
      (fix entries_eq (dx : dict) : bool :=
         match dx with
         | [] => true
         | (k, v) :: dx' =>
             match dict_get k dy with
             | Some v' => py_eq v v'
             | None => false
             end && entries_eq dx'
         end) dx
  | _, _ => false
  end.

(** [d.update(vals)]. *)
Fixpoint dict_update (d vals : dict) : dict :=
  match vals with
  | [] => d
  | (k, v) :: vals' => dict_update (dict_set k v d) vals'
  end.

(** ** Exceptions *)

(** The subclasses of [Exception] the code meets, each with what [str(e)]
    needs. [OtherError] stands for any other subclass: a YAML syntax
    error, an I/O error, a fault raised by the ORM. *)
Inductive exn : Type :=
  | KeyError (key : string)
  | TypeError (msg : string)
  | AttributeError (msg : string)
  | FileNotFoundError (msg : string)
  | OtherError (msg : string).

#[global] Instance exn_eq_decision : EqDecision exn.
Proof. solve_decision. Defined.

(** [str(e)]; a [KeyError] prints the repr of its key. *)
Definition str_exn (e : exn) : string :=
  match e with
  | KeyError k => "'" +:+ k +:+ "'"
  | TypeError m | AttributeError m | FileNotFoundError m | OtherError m => m
  end.

(** ** The world the importer runs in *)

(** A path that exists holds a document that loads, or one on which
    [open] or [yaml.safe_load] raises. *)
Inductive fsnode : Type :=
  | Unreadable (e : exn)
  | YamlDoc (v : pyval).

(** Calls made on the environment, in the order they are made. A search
    domain is a conjunction of [(field, '=', value)] leaves. *)
Inductive store_op : Type :=
  | OpSearch (model : string) (domain : dict)
  | OpCreate (model : string) (vals : dict)
  | OpWrite (model : string) (ids : list nat) (vals : dict)
  | OpRead (model : string) (ids : list nat) (field : string).

Definition op_model (o : store_op) : string :=
  match o with
  | OpSearch m _ | OpCreate m _ | OpWrite m _ _ | OpRead m _ _ => m
  end.

Definition is_mutation (o : store_op) : bool :=
  match o with
  | OpSearch _ _ | OpRead _ _ _ => false
  | OpCreate _ _ | OpWrite _ _ _ => true
  end.

Inductive log_level : Type := INFO | WARNING | ERROR.

(** A log record: the f-string with its holes left as [{}], and the values
    that fill them. *)
Record log_entry : Type := Log {
  log_lvl : log_level;
  log_template : string;
  log_args : list pyval
}.

(** Modelled from the spec: the Record Store is the Odoo environment passed
    to the importer, which is not part of the repository. It is taken as
    the spec describes it: named collections of records, looked up by
    field equalities, created from and updated by a field mapping. A
    record's id is its position in its collection; records are never
    deleted. *)
Abbreviation database := (gmap string (list dict)).

Record world : Type := World {
  fs : gmap string fsnode;
  db : database;
  ops : list store_op;
  logs : list log_entry;
  (** the faults of the environment: which call it refuses, in which state
      of the records, and with what exception *)
  faults : database → store_op → option exn
}.

Definition table (model : string) (d : database) : list dict :=
  default [] (d !! model).

(** ** State and exception monad *)

Inductive outcome (A : Type) : Type :=
  | Ok (a : A)
  | Raise (e : exn).
Arguments Ok {A} a.
Arguments Raise {A} e.

Definition M (A : Type) : Type := world → outcome A * world.

Definition ret {A} (a : A) : M A := λ w, (Ok a, w).

Definition raise {A} (e : exn) : M A := λ w, (Raise e, w).

Definition bind {A B} (m : M A) (k : A → M B) : M B :=
  λ w, match m w with
       | (Ok a, w') => k a w'
       | (Raise e, w') => (Raise e, w')
       end.

(** [try: m  except Exception as e: h e]. *)
Definition try_except {A} (m : M A) (h : exn → M A) : M A :=
  λ w, match m w with
       | (Ok a, w') => (Ok a, w')
       | (Raise e, w') => h e w'
       end.

Notation "'do' x <- m ; k" := (bind m (λ x, k))
  (at level 10, x name, m at level 100, k at level 200,
   format "'[v' 'do'  x  <-  m ; '/' k ']'").
Notation "m ;; k" := (bind m (λ _, k))
  (at level 100, k at level 200, right associativity).

Definition log (lvl : log_level) (template : string) (args : list pyval) : M unit :=
  λ w, (Ok tt, World (fs w) (db w) (ops w) (logs w ++ [Log lvl template args]) (faults w)).

(** ** Python operations on loaded values *)

(** [v[k]] for a string [k]. *)
Definition py_getitem (v : pyval) (k : string) : M pyval :=
  match v with
  | PDict d =>
      match dict_get k d with
      | Some x => ret x
      | None => raise (KeyError k)
      end
  | PStr _ => raise (TypeError "string indices must be integers, not 'str'")
  | PList _ => raise (TypeError "list indices must be integers or slices, not str")
  | _ => raise (TypeError ("'" +:+ type_name v +:+ "' object is not subscriptable"))
  end.

(** [v.get(k, dflt)]: only a dict has the method. *)
Definition py_get (v : pyval) (k : string) (dflt : pyval) : M pyval :=
  match v with
  | PDict d => ret (default dflt (dict_get k d))
  | _ => raise (AttributeError
                  ("'" +:+ type_name v +:+ "' object has no attribute 'get'"))
  end.

(** The items [for x in v] goes through: the elements of a list, the keys
    of a dict, the characters of a string. *)
Definition py_iter (v : pyval) : M (list pyval) :=
  match v with
  | PList l => ret l
  | PDict d => ret ((λ e, PStr e.1) <$> d)
  | PStr s => ret ((λ c, PStr (String c EmptyString)) <$> String.list_ascii_of_string s)
  | _ => raise (TypeError ("'" +:+ type_name v +:+ "' object is not iterable"))
  end.

(** [v.copy()]. *)
Definition py_copy (v : pyval) : M pyval :=
  match v with
  | PDict _ | PList _ => ret v
  | _ => raise (AttributeError
                  ("'" +:+ type_name v +:+ "' object has no attribute 'copy'"))
  end.

(** [v.pop(k, None)], returning [v] as it is afterwards. *)
Definition py_pop (v : pyval) (k : string) : M pyval :=
  match v with
  | PDict d => ret (PDict (dict_pop k d))
  | PList _ => raise (TypeError "pop expected at most 1 argument, got 2")
  | _ => raise (AttributeError
                  ("'" +:+ type_name v +:+ "' object has no attribute 'pop'"))
  end.

(** ** File system *)

(** [os.path.exists]. *)
Definition os_path_exists (path : string) : M bool :=
  λ w, (Ok (bool_decide (is_Some (fs w !! path))), w).

(** [os.path.join(path, name)] for a relative [name]. *)
Definition ends_with_slash (path : string) : bool :=
  match reverse (String.list_ascii_of_string path) with
  | c :: _ => bool_decide (c = Ascii.Ascii true true true true false true false false)
  | [] => false
  end.

Definition os_path_join (path name : string) : string :=
  if bool_decide (path = EmptyString) then name
  else if ends_with_slash path then path +:+ name
  else path +:+ "/" +:+ name.

(** [yaml.safe_load(open(path))]. A path the file system does not hold is a
    file that is not there: [open] raises [FileNotFoundError]. A path that
    cannot be opened for another reason, or whose document does not parse,
    is held as [Unreadable]. *)
Definition yaml_load_file (path : string) : M pyval :=
  λ w, match fs w !! path with
       | None => (Raise (FileNotFoundError
                           ("[Errno 2] No such file or directory: '" +:+ path +:+ "'")), w)
       | Some (Unreadable e) => (Raise e, w)
       | Some (YamlDoc v) => (Ok v, w)
       end.

(** [YamlFileStorage.read_yaml]. *)
Definition read_yaml (file_path : string) : M pyval :=
  try_except
    (do data <- yaml_load_file file_path;
     match data with
     | PNone => ret (PDict [])
     | _ => ret data
     end)
    (λ e, match e with
          | FileNotFoundError _ =>
              log WARNING "YAML file not found: {}" [PStr file_path] ;;
              ret (PDict [])
          | _ =>
              log ERROR "Failed to read YAML file {}: {}"
                [PStr file_path; PStr (str_exn e)] ;;
              raise e
          end).

(** ** The environment's calls *)

(** A record satisfies a domain when each of its leaves holds. *)
Definition matches (domain : dict) (row : dict) : bool :=
  forallb (λ leaf, bool_decide (dict_get leaf.1 row = Some leaf.2)) domain.

(** Ids of the matching records of a collection whose first id is [i]. *)
Fixpoint search_from (i : nat) (domain : dict) (rows : list dict) : list nat :=
  match rows with
  | [] => []
  | r :: rs =>
      if matches domain r then i :: search_from (S i) domain rs
      else search_from (S i) domain rs
  end.

(** The collection after [records.write(vals)] on the records [ids]. *)
Fixpoint write_from (i : nat) (ids : list nat) (vals : dict) (rows : list dict)
  : list dict :=
  match rows with
  | [] => []
  | r :: rs =>
      (if bool_decide (i ∈ ids) then dict_update r vals else r)
        :: write_from (S i) ids vals rs
  end.

(** A call is traced, then refused by the environment or carried out. *)
Definition orm_call {A} (o : store_op) (run : database → A * database) : M A :=
  λ w,
    let tr := ops w ++ [o] in
    match faults w (db w) o with
    | Some e => (Raise e, World (fs w) (db w) tr (logs w) (faults w))
    | None =>
        let r := run (db w) in
        (Ok r.1, World (fs w) r.2 tr (logs w) (faults w))
    end.

(** [env[model].search(domain)]. *)
Definition env_search (model : string) (domain : dict) : M (list nat) :=
  orm_call (OpSearch model domain)
    (λ d, (search_from 0 domain (table model d), d)).

(** [env[model].create(vals)]. *)
Definition env_create (model : string) (vals : pyval) : M nat :=
  match vals with
  | PDict v =>
      orm_call (OpCreate model v)
        (λ d, (length (table model d), <[model := table model d ++ [v]]> d))
  | _ => raise (TypeError "create() expects a mapping of field values")
  end.

(** [records.write(vals)]. *)
Definition env_write (model : string) (ids : list nat) (vals : pyval) : M unit :=
  match vals with
  | PDict v =>
      orm_call (OpWrite model ids v)
        (λ d, (tt, <[model := write_from 0 ids v (table model d)]> d))
  | _ => raise (TypeError "write() expects a mapping of field values")
  end.

(** [records.field]: reading a field needs exactly one record. *)
Definition env_read (model : string) (ids : list nat) (field : string) : M pyval :=
  match ids with
  | [i] =>
      orm_call (OpRead model ids field)
        (λ d, (default (PBool false) (table model d !! i ≫= dict_get field), d))
  | _ => raise (OtherError "Expected singleton")
  end.

(** [if records:] *)
Definition nonempty (ids : list nat) : bool :=
  match ids with [] => false | _ => true end.

(** ** MinimalConfigImporter *)

(** The loop the five import methods share:
<<
    imported = 0
    for x in data:
        try:    body            # ends in imported += 1 where it counts
        except Exception as e:  handler
    return imported
>> *)
Fixpoint for_records (body : pyval → nat → M nat) (handler : pyval → exn → M unit)
    (items : list pyval) (imported : nat) : M nat :=
  match items with
  | [] => ret imported
  | x :: rest =>
      do imported' <- try_except (body x imported)
                        (λ e, handler x e ;; ret imported);
      for_records body handler rest imported'
  end.

Definition config_param_body (param_data : pyval) (imported : nat) : M nat :=
  do key <- py_getitem param_data "key";
  do existing <- env_search "ir.config_parameter" [("key", key)];
  (if nonempty existing then
     do value <- py_getitem param_data "value";
     env_write "ir.config_parameter" existing (PDict [("value", value)])
   else
     do key' <- py_getitem param_data "key";
     do value <- py_getitem param_data "value";
     do _ <- env_create "ir.config_parameter"
               (PDict [("key", key'); ("value", value)]);
     ret tt) ;;
  ret (S imported).

Definition config_param_handler (param_data : pyval) (e : exn) : M unit :=
  do key <- py_get param_data "key" PNone;
  log WARNING "Failed to import config parameter {}: {}" [key; PStr (str_exn e)].

Definition _import_config_params (params_data : pyval) : M nat :=
  do items <- py_iter params_data;
  for_records config_param_body config_param_handler items 0.

Definition sequence_body (seq_data : pyval) (imported : nat) : M nat :=
  do code <- py_getitem seq_data "code";
  do existing <- env_search "ir.sequence" [("code", code)];
  (if nonempty existing then
     do update_data <- py_copy seq_data;
     do update_data <- py_pop update_data "number_next";
     env_write "ir.sequence" existing update_data
   else
     do _ <- env_create "ir.sequence" seq_data;
     ret tt) ;;
  ret (S imported).

Definition sequence_handler (seq_data : pyval) (e : exn) : M unit :=
  do code <- py_get seq_data "code" PNone;
  log WARNING "Failed to import sequence {}: {}" [code; PStr (str_exn e)].

Definition _import_sequences (sequences_data : pyval) : M nat :=
  do items <- py_iter sequences_data;
  for_records sequence_body sequence_handler items 0.

Definition user_group_body (group_data : pyval) (imported : nat) : M nat :=
  do name <- py_getitem group_data "name";
  do existing <- env_search "res.groups" [("name", name)];
  if negb (nonempty existing) then
    do name' <- py_getitem group_data "name";
    do _ <- env_create "res.groups" (PDict [("name", name')]);
    ret (S imported)
  else ret imported.

Definition user_group_handler (group_data : pyval) (e : exn) : M unit :=
  do name <- py_get group_data "name" PNone;
  log WARNING "Failed to import user group {}: {}" [name; PStr (str_exn e)].

Definition _import_user_groups (groups_data : pyval) : M nat :=
  do items <- py_iter groups_data;
  for_records user_group_body user_group_handler items 0.

Definition external_id_body (record_data : pyval) (imported : nat) : M nat :=
  do module <- py_getitem record_data "module";
  do name <- py_getitem record_data "name";
  do existing <- env_search "ir.model.data" [("module", module); ("name", name)];
  (if nonempty existing then env_write "ir.model.data" existing record_data
   else
     do _ <- env_create "ir.model.data" record_data;
     ret tt) ;;
  ret (S imported).

Definition external_id_handler (record_data : pyval) (e : exn) : M unit :=
  do module <- py_get record_data "module" PNone;
  do name <- py_get record_data "name" PNone;
  log WARNING "Failed to import external ID {}.{}: {}"
    [module; name; PStr (str_exn e)].

Definition _import_external_ids (external_ids_data : pyval) : M nat :=
  do items <- py_iter external_ids_data;
  for_records external_id_body external_id_handler items 0.

Definition module_state_body (module_data : pyval) (imported : nat) : M nat :=
  do name <- py_getitem module_data "name";
  do existing <- env_search "ir.module.module" [("name", name)];
  if nonempty existing then
    do current_state <- env_read "ir.module.module" existing "state";
    do target_state <- py_getitem module_data "state";
    (if negb (py_eq current_state target_state) then
       do name' <- py_getitem module_data "name";
       log INFO "Module {}: current={}, target={}"
         [name'; current_state; target_state]
     else ret tt) ;;
    ret (S imported)
  else
    do name' <- py_getitem module_data "name";
    log WARNING "Module {} not found in system" [name'] ;;
    ret imported.

Definition module_state_handler (module_data : pyval) (e : exn) : M unit :=
  do name <- py_get module_data "name" PNone;
  log WARNING "Failed to check module {}: {}" [name; PStr (str_exn e)].

Definition _import_module_states (modules_data : pyval) : M nat :=
  do items <- py_iter modules_data;
  for_records module_state_body module_state_handler items 0.

(** The dict [_import_config_type] returns; a key it leaves out is [None]. *)
Record type_result : Type := TypeResult {
  success : bool;
  config_type : string;
  imported_records : option nat;
  message : option string;
  error : option string
}.

(** The three dicts [import_system_configs] returns. *)
Inductive import_result : Type :=
  | ImportError (err : string)
  | ImportFailed (failed_config_type : string) (err : option string)
      (imported_count : nat)
  | ImportSuccess (imported_config_types : nat) (total_imported_records : nat)
      (results : list type_result).

(** The table [import_methods], under [.get(config_type)]. *)
Definition import_methods (config_type : string) : option (pyval → M nat) :=
  if decide (config_type = "ir_config_parameters") then Some _import_config_params
  else if decide (config_type = "ir_sequences") then Some _import_sequences
  else if decide (config_type = "res_groups") then Some _import_user_groups
  else if decide (config_type = "ir_model_data") then Some _import_external_ids
  else if decide (config_type = "module_states") then Some _import_module_states
  else None.

(** The [try] block of [_import_config_type]. *)
Definition import_config_type_body (config_type source_path : string)
  : M type_result :=
  let file_path := source_path +:+ "/" +:+ config_type +:+ ".yml" in
  do present <- os_path_exists file_path;
  if negb present then
    ret (TypeResult true config_type (Some 0) (Some "File not found, skipping") None)
  else
    do data <- read_yaml file_path;
    do config_data <- py_get data config_type (PList []);
    match import_methods config_type with
    | None =>
        ret (TypeResult false config_type None None
               (Some ("No import method for " +:+ config_type)))
    | Some import_method =>
        do imported <- import_method config_data;
        log INFO "Successfully imported {} records for {}"
          [PInt (Z.of_nat imported); PStr config_type] ;;
        ret (TypeResult true config_type (Some imported) None None)
    end.

Definition _import_config_type (config_type source_path : string) : M type_result :=
  try_except (import_config_type_body config_type source_path)
    (λ e,
       log ERROR "Failed to import config type {}: {}"
         [PStr config_type; PStr (str_exn e)] ;;
       ret (TypeResult false config_type None None (Some (str_exn e)))).

Definition import_order : list string :=
  ["ir_config_parameters"; "res_groups"; "ir_sequences"; "module_states";
   "ir_model_data"].

(** How one round of the loop over [import_order] ends: it goes on with
    the new [results] and [imported_count], or the function returns. *)
Inductive round : Type :=
  | Continue (results : list type_result) (imported_count : nat)
  | Return (r : import_result).

Definition import_round (source_path config_type : string)
    (results : list type_result) (imported_count : nat) : M round :=
  try_except
    (do result <- _import_config_type config_type source_path;
     let results := results ++ [result] in
     if success result then
       ret (Continue results (imported_count + default 0 (imported_records result)))
     else
       ret (Return (ImportFailed config_type (error result) imported_count)))
    (λ e,
       log ERROR "Failed to import {}: {}" [PStr config_type; PStr (str_exn e)] ;;
       ret (Return (ImportFailed config_type (Some (str_exn e)) imported_count))).

Fixpoint import_loop (source_path : string) (types : list string)
    (results : list type_result) (imported_count : nat) : M import_result :=
  match types with
  | [] =>
      log INFO "Successfully imported all config types, total records: {}"
        [PInt (Z.of_nat imported_count)] ;;
      ret (ImportSuccess (length import_order) imported_count results)
  | config_type :: rest =>
      do r <- import_round source_path config_type results imported_count;
      match r with
      | Continue results' imported_count' =>
          import_loop source_path rest results' imported_count'
      | Return res => ret res
      end
  end.

Definition import_system_configs (source_path : string) : M import_result :=
  try_except
    (do manifest <- read_yaml (source_path +:+ "/manifest.yml");
     if negb (py_truthy manifest) then
       ret (ImportError "No manifest file found or invalid manifest")
     else import_loop source_path import_order [] 0)
    (λ e,
       log ERROR "Failed to import system configs: {}" [PStr (str_exn e)] ;;
       ret (ImportError (str_exn e))).

(** ** ConfigFactory.validate_import_path *)

Record validation : Type := Validation {
  valid : bool;
  vmessage : string;
  missing_optional : option (list string)
}.

Definition required_files : list string := ["manifest.yml"].

Definition optional_files : list string :=
  ["ir_config_parameters.yml"; "ir_sequences.yml"; "res_groups.yml";
   "ir_model_data.yml"; "module_states.yml"].

(** [sep.join(items)]. *)
Fixpoint str_join (sep : string) (items : list string) : string :=
  match items with
  | [] => EmptyString
  | [x] => x
  | x :: rest => x +:+ sep +:+ str_join sep rest
  end.

(** The two loops that collect the names of the files that are not there. *)
Fixpoint collect_missing (path : string) (file_names : list string)
    (missing : list string) : M (list string) :=
  match file_names with
  | [] => ret missing
  | file_name :: rest =>
      let file_path := os_path_join path file_name in
      do present <- os_path_exists file_path;
      collect_missing path rest
        (if negb present then missing ++ [file_name] else missing)
  end.

Definition validate_import_path (path : string) : M validation :=
  do missing_required <- collect_missing path required_files [];
  do missing_opt <- collect_missing path optional_files [];
  if negb (bool_decide (missing_required = [])) then
    ret (Validation false
           ("Required files missing: " +:+ str_join ", " missing_required) None)
  else
    ret (Validation true "Import path is valid" (Some missing_opt)).

(** ** Notions the properties are stated with *)

(** The collection an entity type is reconciled against. *)
Definition model_of (config_type : string) : string :=
  if decide (config_type = "ir_config_parameters") then "ir.config_parameter"
  else if decide (config_type = "ir_sequences") then "ir.sequence"
  else if decide (config_type = "res_groups") then "res.groups"
  else if decide (config_type = "ir_model_data") then "ir.model.data"
  else if decide (config_type = "module_states") then "ir.module.module"
  else EmptyString.

(** A computation that leaves the world as it found it. *)
Definition stateless {A} (c : M A) : Prop := ∀ w, (c w).2 = w.

(** A computation that takes every world to one related to it by [R]. *)
Definition preserves {A} (R : relation world) (c : M A) : Prop :=
  ∀ w, R w (c w).2.

(** A computation that, when it returns, returns a value satisfying [Q]. *)
Definition returns {A} (Q : A → Prop) (c : M A) : Prop :=
  ∀ w, match (c w).1 with Ok a => Q a | Raise _ => True end.

(** A computation that raises no exception. *)
Definition total {A} (c : M A) : Prop :=
  ∀ w, ∃ a, (c w).1 = Ok a.

(** The calls made from [w] to [w'] all satisfy [P]. *)
Definition calls (P : store_op → Prop) : relation world :=
  λ w w', ∃ o, ops w' = ops w ++ o ∧ Forall P o.

(** The calls made from [w] to [w'] go to the given models, one model
    after the other. *)
Definition calls_in_order (models : list string) : relation world :=
  λ w w', ∃ os, ops w' = ops w ++ concat os ∧
                Forall2 (λ m o, Forall (λ x, op_model x = m) o) models os.

(** Everything but the log is as it was. *)
Definition only_logged : relation world :=
  λ w w', fs w' = fs w ∧ db w' = db w ∧ ops w' = ops w ∧ faults w' = faults w.

(** The records are as they were and no call created or wrote one. *)
Definition read_only : relation world :=
  λ w w', db w' = db w ∧ calls (λ o, is_mutation o = false) w w'.

(** The files and the faults of the environment are as they were. *)
Definition same_setting : relation world :=
  λ w w', fs w' = fs w ∧ faults w' = faults w.

(** Every record of the collection is still there, under its id, with the
    value it had for [field]. *)
Definition field_kept (model field : string) : relation world :=
  λ w w', ∀ i row, table model (db w) !! i = Some row →
    ∃ row', table model (db w') !! i = Some row' ∧
            dict_get field row' = dict_get field row.

(** The environment refuses no call. *)
Definition faultless (w : world) : Prop := ∀ d o, faults w d o = None.

Definition is_dict (v : pyval) : Prop :=
  match v with PDict _ => True | _ => False end.

#[global] Instance is_dict_dec (v : pyval) : Decision (is_dict v).
Proof. destruct v; simpl; apply _. Defined.

(** What becomes of the records of a list when the loop of an import method
    runs to its end from [w], each record tried in turn: how many made the
    method count them, how many it passed over without counting, how many
    raised, and the world left. *)
Record tally : Type := Tally {
  counted : nat;
  passed_over : nat;
  failed : nat;
  final : world
}.

Fixpoint try_all (body : pyval → nat → M nat) (handler : pyval → exn → M unit)
    (items : list pyval) (t : tally) : tally :=
  match items with
  | [] => t
  | x :: rest =>
      match body x (counted t) (final t) with
      | (Ok n, w') =>
          try_all body handler rest
            (if decide (n = counted t)
             then Tally (counted t) (S (passed_over t)) (failed t) w'
             else Tally n (passed_over t) (failed t) w')
      | (Raise e, w') =>
          try_all body handler rest
            (Tally (counted t) (passed_over t) (S (failed t)) (handler x e w').2)
      end
  end.

(** The entity types of a list processed one after the other from [w],
    whatever their results. *)
Fixpoint run_types (source_path : string) (types : list string) (w : world)
  : list type_result * world :=
  match types with
  | [] => ([], w)
  | t :: rest =>
      match _import_config_type t source_path w with
      | (Ok r, w1) =>
          let rw := run_types source_path rest w1 in (r :: rw.1, rw.2)
      | (Raise _, w1) => ([], w1)
      end
  end.

(** In the spec's words: the entity types of a list are processed in the
    order of the list, each by [_import_config_type] in the world the type
    before it left, and the first type that fails ends the run. [completed]
    are the results of the types that succeeded, [stopped] the result of
    the type that failed, if one did, and [reached] the world after the last
    type that was processed. *)
Record progress : Type := Progress {
  completed : list type_result;
  stopped : option type_result;
  reached : world
}.

Fixpoint processed_in_order (source_path : string) (types : list string) (w : world)
  : progress :=
  match types with
  | [] => Progress [] None w
  | t :: rest =>
      match _import_config_type t source_path w with
      | (Ok r, w1) =>
          if success r then
            let p := processed_in_order source_path rest w1 in
            Progress (r :: completed p) (stopped p) (reached p)
          else Progress [] (Some r) w1
      | (Raise e, w1) =>
          Progress [] (Some (TypeResult false t None None (Some (str_exn e)))) w1
      end
  end.

Definition total_imported (rs : list type_result) : nat :=
  foldr (λ r acc, default 0 (imported_records r) + acc) 0 rs.

(** ConfigParameter: the pairs the loop acts on, up to the first item that
    is not a mapping, where the loop ends. A mapping without [key] or
    without [value] is passed. *)
Fixpoint effective (items : list pyval) : list (pyval * pyval) :=
  match items with
  | [] => []
  | PDict d :: rest =>
      match dict_get "key" d, dict_get "value" d with
      | Some k, Some v => (k, v) :: effective rest
      | _, _ => effective rest
      end
  | _ :: _ => []
  end.

Definition has_key (k : pyval) (row : dict) : bool :=
  bool_decide (dict_get "key" row = Some k).

(** The value of the parameters with the key [k] is overwritten. *)
Definition set_value (k v : pyval) (row : dict) : dict :=
  if has_key k row then dict_set "value" v row else row.

(** The reconciliation rule of ConfigParameter on the collection. *)
Definition upsert_param (kv : pyval * pyval) (rows : list dict) : list dict :=
  if existsb (has_key kv.1) rows
  then set_value kv.1 kv.2 <$> rows
  else rows ++ [[("key", kv.1); ("value", kv.2)]].

(** The rule applied to the pairs of a list, one after the other. *)
Definition upsert_params (pairs : list (pyval * pyval)) (rows : list dict)
  : list dict :=
  foldl (λ rows kv, upsert_param kv rows) rows pairs.

(** The value the last pair with the key [k] gives it, if there is one. *)
Definition last_value (pairs : list (pyval * pyval)) (k : pyval) : option pyval :=
  foldl (λ acc kv, if decide (kv.1 = k) then Some kv.2 else acc) None pairs.

(** A parameter that has the value the list gives its key last. *)
Definition settled (pairs : list (pyval * pyval)) (row : dict) : Prop :=
  ∀ k v, dict_get "key" row = Some k → last_value pairs k = Some v →
         dict_get "value" row = Some v.

Definition is_create (o : store_op) : bool :=
  match o with OpCreate _ _ => true | _ => false end.

(** A loaded value that is a mapping with the given fields. *)
Definition has_fields (fields : list string) (x : pyval) : Prop :=
  match x with
  | PDict d => Forall (λ f, is_Some (dict_get f d)) fields
  | _ => False
  end.

(** The records of a collection found by the value of one field. *)
Definition find_by (model field : string) (v : pyval) (d : database) : list nat :=
  search_from 0 [(field, v)] (table model d).

(** No two records of the collection agree on the field. *)
Definition unique_on (model field : string) (d : database) : Prop :=
  ∀ v, length (find_by model field v d) ≤ 1.

(** A snapshot record whose [field] names a record of the collection. *)
Definition found_in (model field : string) (d : database) (x : pyval) : bool :=
  match x with
  | PDict r =>
      match dict_get field r with
      | Some v => nonempty (find_by model field v d)
      | None => false
      end
  | _ => false
  end.

(** The rule on the records of the environment. *)
Definition upsert_db (d : database) (kv : pyval * pyval) : database :=
  <["ir.config_parameter" := upsert_param kv (table "ir.config_parameter" d)]> d.

(** The five entity types, with the import method of each, the body of
    its loop and its exception handler. *)
Inductive entity : Type :=
  | ConfigParameter | UserGroup | Sequence | ModuleState | ExternalIdMapping.

Definition method_of (t : entity) : pyval → M nat :=
  match t with
  | ConfigParameter => _import_config_params
  | UserGroup => _import_user_groups
  | Sequence => _import_sequences
  | ModuleState => _import_module_states
  | ExternalIdMapping => _import_external_ids
  end.

Definition body_of (t : entity) : pyval → nat → M nat :=
  match t with
  | ConfigParameter => config_param_body
  | UserGroup => user_group_body
  | Sequence => sequence_body
  | ModuleState => module_state_body
  | ExternalIdMapping => external_id_body
  end.

Definition handler_of (t : entity) : pyval → exn → M unit :=
  match t with
  | ConfigParameter => config_param_handler
  | UserGroup => user_group_handler
  | Sequence => sequence_handler
  | ModuleState => module_state_handler
  | ExternalIdMapping => external_id_handler
  end.

(** The types whose rule creates or writes for every record. *)
Definition upserts (t : entity) : bool :=
  match t with
  | ConfigParameter | Sequence | ExternalIdMapping => true
  | UserGroup | ModuleState => false
  end.

(** ** MinimalConfigExporter: the projections of the live records *)

(** [[f(r) for r in records]], the records taken one at a time. *)
Fixpoint comprehension {A} (f : nat → M A) (ids : list nat) : M (list A) :=
  match ids with
  | [] => ret []
  | id :: rest =>
      do x <- f id;
      do xs <- comprehension f rest;
      ret (x :: xs)
  end.

(** [[f(r) for r in records if cond(r)]]. *)
Fixpoint comprehension_if {A} (cond : nat → M bool) (f : nat → M A)
    (ids : list nat) : M (list A) :=
  match ids with
  | [] => ret []
  | id :: rest =>
      do keep <- cond id;
      if keep then
        do x <- f id;
        do xs <- comprehension_if cond f rest;
        ret (x :: xs)
      else comprehension_if cond f rest
  end.

(** The dict literal of a projection: the fields of one record read in the
    order they are written, each under its own name. *)
Fixpoint read_fields (model : string) (id : nat) (fields : list string) : M dict :=
  match fields with
  | [] => ret []
  | f :: rest =>
      do v <- env_read model [id] f;
      do vs <- read_fields model id rest;
      ret ((f, v) :: vs)
  end.

Definition project (model : string) (fields : list string) (id : nat) : M pyval :=
  do d <- read_fields model id fields;
  ret (PDict d).

Definition config_param_fields : list string := ["key"; "value"].

Definition _export_config_params : M pyval :=
  try_except
    (do params <- env_search "ir.config_parameter" [];
     do data <- comprehension (project "ir.config_parameter" config_param_fields) params;
     log INFO "Exported {} config parameters" [PInt (Z.of_nat (length data))] ;;
     ret (PList data))
    (λ e,
       log ERROR "Failed to export config parameters: {}" [PStr (str_exn e)] ;;
       raise e).

Definition sequence_fields : list string :=
  ["name"; "code"; "prefix"; "suffix"; "padding"; "number_next";
   "number_increment"; "active"].

Definition _export_sequences : M pyval :=
  try_except
    (do sequences <- env_search "ir.sequence" [];
     do data <- comprehension (project "ir.sequence" sequence_fields) sequences;
     log INFO "Exported {} sequences" [PInt (Z.of_nat (length data))] ;;
     ret (PList data))
    (λ e,
       log ERROR "Failed to export sequences: {}" [PStr (str_exn e)] ;;
       raise e).

Definition external_id_fields : list string :=
  ["module"; "name"; "model"; "res_id"; "noupdate"].

Definition _export_external_ids : M pyval :=
  try_except
    (do ir_data <- env_search "ir.model.data" [];
     do data <- comprehension (project "ir.model.data" external_id_fields) ir_data;
     log INFO "Exported {} external IDs" [PInt (Z.of_nat (length data))] ;;
     ret (PList data))
    (λ e,
       log ERROR "Failed to export external IDs: {}" [PStr (str_exn e)] ;;
       raise e).

Definition module_state_fields : list string :=
  ["name"; "state"; "auto_install"; "sequence"].

Definition exported_states : list pyval :=
  [PStr "installed"; PStr "to_install"; PStr "to_upgrade"].

(** [module.state in ['installed', 'to_install', 'to_upgrade']]. *)
Definition module_is_exported (id : nat) : M bool :=
  do state <- env_read "ir.module.module" [id] "state";
  ret (bool_decide (state ∈ exported_states)).

Definition _export_module_states : M pyval :=
  try_except
    (do modules <- env_search "ir.module.module" [];
     do data <- comprehension_if module_is_exported
                  (project "ir.module.module" module_state_fields) modules;
     log INFO "Exported {} module states" [PInt (Z.of_nat (length data))] ;;
     ret (PList data))
    (λ e,
       log ERROR "Failed to export module states: {}" [PStr (str_exn e)] ;;
       raise e).

(** ** YamlFileStorage.import_ir_model_data *)

(** The body of its loop; no exception is caught here. *)
Definition model_data_body (record_data : pyval) (imported_count : nat) : M nat :=
  do module <- py_getitem record_data "module";
  do name <- py_getitem record_data "name";
  do existing <- env_search "ir.model.data" [("module", module); ("name", name)];
  (if nonempty existing then env_write "ir.model.data" existing record_data
   else
     do _ <- env_create "ir.model.data" record_data;
     ret tt) ;;
  ret (S imported_count).

Fixpoint model_data_loop (items : list pyval) (imported_count : nat) : M nat :=
  match items with
  | [] => ret imported_count
  | record_data :: rest =>
      do imported_count' <- model_data_body record_data imported_count;
      model_data_loop rest imported_count'
  end.

Definition import_ir_model_data (source_path : string) : M nat :=
  try_except
    (do data <- read_yaml (source_path +:+ "/ir_model_data.yml");
     do records <- py_get data "ir_model_data" (PList []);
     do items <- py_iter records;
     do imported_count <- model_data_loop items 0;
     log INFO "Imported {} ir.model.data records"
       [PInt (Z.of_nat imported_count)] ;;
     ret imported_count)
    (λ e,
       log ERROR "Failed to import ir.model.data: {}" [PStr (str_exn e)] ;;
       raise e).

(** ** ConfigFactory.import_all *)

Definition _import_ir_configs (source_path : string) : M import_result :=
  import_system_configs source_path.

Definition import_all (source_path : string) : M import_result :=
  try_except
    (log INFO "Starting configuration import from: {}" [PStr source_path] ;;
     do result <- _import_ir_configs source_path;
     log INFO "Configuration import completed successfully" [] ;;
     ret result)
    (λ e,
       log ERROR "Configuration import failed: {}" [PStr (str_exn e)] ;;
       ret (ImportError (str_exn e))).

(** ** Notions for the further properties *)

(** Some record of the collection satisfies the domain. *)
Definition present (model : string) (domain : dict) (d : database) : Prop :=
  existsb (matches domain) (table model d) = true.

(** The items the loop of an import method gets to: those before the first
    item that is not a mapping. *)
Fixpoint processed (items : list pyval) : list pyval :=
  match items with
  | PDict d :: rest => PDict d :: processed rest
  | _ => []
  end.

(** A mapping has each key once, as a Python dict does. *)
Definition unique_keys (x : pyval) : Prop :=
  match x with
  | PDict d => NoDup d.*1
  | _ => True
  end.

#[global] Instance unique_keys_dec (x : pyval) : Decision (unique_keys x).
Proof. destruct x; simpl; apply _. Defined.

(** One round of the loop of an entity type: the body, and its handler when
    the body raises. *)
Definition round_of (t : entity) (x : pyval) (n : nat) : M nat :=
  try_except (body_of t x n) (λ e, handler_of t x e ;; ret n).

(** The domain under which an import method looks a record up, for the
    records that have the fields the method needs to get to its write or
    create. *)
Definition key_of (t : entity) (x : pyval) : option dict :=
  match x with
  | PDict d =>
      match t with
      | ConfigParameter =>
          match dict_get "key" d, dict_get "value" d with
          | Some k, Some _ => Some [("key", k)]
          | _, _ => None
          end
      | UserGroup => (λ n, [("name", n)]) <$> dict_get "name" d
      | Sequence => (λ c, [("code", c)]) <$> dict_get "code" d
      | ModuleState => (λ n, [("name", n)]) <$> dict_get "name" d
      | ExternalIdMapping =>
          match dict_get "module" d, dict_get "name" d with
          | Some m, Some n => Some [("module", m); ("name", n)]
          | _, _ => None
          end
      end
  | _ => None
  end.

(** The fields by which each entity type identifies a record. *)
Definition identity_fields (t : entity) : list string :=
  match t with
  | ConfigParameter => ["key"]
  | UserGroup => ["name"]
  | Sequence => ["code"]
  | ModuleState => ["name"]
  | ExternalIdMapping => ["module"; "name"]
  end.

(** The collection an entity type is reconciled against. *)
Definition collection (t : entity) : string :=
  match t with
  | ConfigParameter => "ir.config_parameter"
  | UserGroup => "res.groups"
  | Sequence => "ir.sequence"
  | ModuleState => "ir.module.module"
  | ExternalIdMapping => "ir.model.data"
  end.

(** What reading a field of a record gives: its value, [False] when the
    record has none. *)
Definition field_value (row : dict) (f : string) : pyval :=
  default (PBool false) (dict_get f row).

(** A record cut down to the given fields, in their order. *)
Definition record_of (fields : list string) (row : dict) : dict :=
  (λ f, (f, field_value row f)) <$> fields.

Definition projection (fields : list string) (row : dict) : pyval :=
  PDict (record_of fields row).

(** A module in one of the three states that are exported. *)
Definition state_is_exported (row : dict) : Prop :=
  field_value row "state" ∈ exported_states.

#[global] Instance state_is_exported_dec (row : dict) :
  Decision (state_is_exported row).
Proof. unfold state_is_exported. apply _. Defined.

(** The export method of an entity type and the fields it takes of each
    record. [_export_user_groups] follows relational fields, which the
    records here do not have, and is left out. *)
Definition exporter (t : entity) : option (list string * M pyval) :=
  match t with
  | ConfigParameter => Some (config_param_fields, _export_config_params)
  | Sequence => Some (sequence_fields, _export_sequences)
  | ExternalIdMapping => Some (external_id_fields, _export_external_ids)
  | ModuleState => Some (module_state_fields, _export_module_states)
  | UserGroup => None
  end.

(** The records an export takes: all of them, for modules those in an
    exported state. *)
Definition exported_rows (t : entity) (rows : list dict) : list dict :=
  match t with
  | ModuleState => filter state_is_exported rows
  | _ => rows
  end.

(** Records of the collection that agree on the identity of the entity
    type are the same record. *)
Definition key_determines (t : entity) (rows : list dict) : Prop :=
  ∀ r r', r ∈ rows → r' ∈ rows →
    (∀ f, f ∈ identity_fields t → dict_get f r = dict_get f r') → r = r'.

(** The values a record has for the identity of the entity type. *)
Definition identity (t : entity) (row : dict) : list pyval :=
  field_value row <$> identity_fields t.

(** A record that has every one of the fields. *)
Definition complete (fields : list string) (row : dict) : Prop :=
  Forall (λ f, is_Some (dict_get f row)) fields.

#[global] Instance complete_dec (fields : list string) (row : dict) :
  Decision (complete fields row).
Proof. unfold complete. apply _. Defined.

(** ** Sample snapshots and targets *)

(** An environment that refuses no call. *)
Definition no_faults : database → store_op → option exn := λ _ _, None.

(** A snapshot directory [snap]: a manifest, three parameters of which one
    has lost its [key], one group, and a sequences document that does not
    parse; no document for module states and external ids. *)
Definition sample_params : list pyval :=
  [PDict [("key", PStr "web.base.url"); ("value", PStr "http://localhost")];
   PDict [("value", PStr "orphan")];
   PDict [("key", PStr "database.uuid"); ("value", PStr "u-1")]].

Definition sample_fs : gmap string fsnode :=
  list_to_map
    [("snap/manifest.yml",
      YamlDoc (PDict [("odoo_version", PStr "18.0"); ("total_records", PInt 4)]));
     ("snap/ir_config_parameters.yml",
      YamlDoc (PDict [("ir_config_parameters", PList sample_params)]));
     ("snap/res_groups.yml",
      YamlDoc (PDict [("res_groups", PList [PDict [("name", PStr "Managers")]])]));
     ("snap/ir_sequences.yml",
      Unreadable (OtherError "mapping values are not allowed here"))].

(** An empty target that sees the directory [snap]. *)
Definition empty_target : world := World sample_fs ∅ [] [] no_faults.

(** A target with one group, one sequence whose counter has advanced to 25,
    and one installed module. *)
Definition live_sequence : dict :=
  [("name", PStr "Sale"); ("code", PStr "S1"); ("number_next", PInt 25)].

Definition live_target : world :=
  World sample_fs
    (list_to_map
       [("res.groups", [[("name", PStr "Managers")]]);
        ("ir.sequence", [live_sequence]);
        ("ir.module.module", [[("name", PStr "base"); ("state", PStr "installed")]])])
    [] [] no_faults.

(** The snapshot of the sequence [S1], taken when its counter was at 10. *)
Definition snapshot_sequence : dict :=
  [("name", PStr "Sale orders"); ("code", PStr "S1"); ("number_next", PInt 10)].

(** Two group records: one names a live group, one has no [name]. *)
Definition sample_groups : list pyval :=
  [PDict [("name", PStr "Managers")]; PDict [("category_id", PStr "Sales")]].

(** Two module records: one installed in the target, one not. *)
Definition sample_modules : list pyval :=
  [PDict [("name", PStr "base"); ("state", PStr "to_upgrade")];
   PDict [("name", PStr "sale"); ("state", PStr "installed")]].

(** A directory [void] whose sequences document has the key and no list
    under it. *)
Definition void_target : world :=
  World {["void/ir_sequences.yml" := YamlDoc (PDict [("ir_sequences", PNone)])]}
    ∅ [] [] no_faults.

(** A directory [bare] that holds a manifest and nothing else. *)
Definition bare_target : world :=
  World {["bare/manifest.yml" := YamlDoc (PDict [("total_records", PInt 0)])]}
    ∅ [] [] no_faults.

(** A list of parameters that gives the key [web.base.url] twice. *)
Definition twice_given : list pyval :=
  [PDict [("key", PStr "web.base.url"); ("value", PStr "http://localhost")];
   PDict [("key", PStr "database.uuid"); ("value", PStr "u-1")];
   PDict [("key", PStr "web.base.url"); ("value", PStr "https://erp.example.org")]].

(** A target with two parameters and two sequences, every field set. *)
Definition full_sequence (name code : string) (next : Z) : dict :=
  [("name", PStr name); ("code", PStr code); ("prefix", PStr "SO");
   ("suffix", PBool false); ("padding", PInt 5); ("number_next", PInt next);
   ("number_increment", PInt 1); ("active", PBool true)].

Definition full_target : world :=
  World ∅
    (list_to_map
       [("ir.config_parameter",
         [[("key", PStr "web.base.url"); ("value", PStr "http://localhost")];
          [("key", PStr "database.uuid"); ("value", PStr "u-1")]]);
        ("ir.sequence", [full_sequence "Sale" "S1" 25; full_sequence "Purchase" "P1" 7]);
        ("ir.module.module",
         [[("name", PStr "base"); ("state", PStr "installed");
           ("auto_install", PBool false); ("sequence", PInt 1)];
          [("name", PStr "sale"); ("state", PStr "uninstalled");
           ("auto_install", PBool false); ("sequence", PInt 10)];
          [("name", PStr "stock"); ("state", PStr "to_upgrade");
           ("auto_install", PBool true); ("sequence", PInt 20)]])])
    [] [] no_faults.

(** A directory [ids] whose external ids are all well formed, and a
    directory [torn] whose second external id has lost its [module]. *)
Definition sample_ids : list pyval :=
  [PDict [("module", PStr "base"); ("name", PStr "group_user");
          ("model", PStr "res.groups"); ("res_id", PInt 1)];
   PDict [("module", PStr "sale"); ("name", PStr "seq_sale_order");
          ("model", PStr "ir.sequence"); ("res_id", PInt 7)]].

Definition torn_id : pyval :=
  PDict [("name", PStr "orphan"); ("model", PStr "res.groups"); ("res_id", PInt 3)].

Definition ids_target : world :=
  World {["ids/ir_model_data.yml" :=
            YamlDoc (PDict [("ir_model_data", PList sample_ids)])]}
    ∅ [] [] no_faults.

Definition torn_target : world :=
  World {["torn/ir_model_data.yml" :=
            YamlDoc (PDict [("ir_model_data",
                             PList ([PDict [("module", PStr "base");
                                            ("name", PStr "group_user")]] ++
                                    torn_id :: sample_ids))])]}
    ∅ [] [] no_faults.

(** A directory [hollow] whose module states document is empty and whose
    groups document is a list at its top level. *)
Definition hollow_target : world :=
  World (list_to_map
           [("hollow/module_states.yml", YamlDoc PNone);
            ("hollow/res_groups.yml", YamlDoc (PList [PStr "Managers"]))])
    ∅ [] [] no_faults.

(** A directory [all] with a manifest and a document for each of the five
    types, seen from [live_target]: two parameters, the group and the
    sequence that are live, two modules of which one is installed, and two
    external ids. *)
Definition whole_fs : gmap string fsnode :=
  list_to_map
    [("all/manifest.yml", YamlDoc (PDict [("total_records", PInt 8)]));
     ("all/ir_config_parameters.yml",
      YamlDoc (PDict [("ir_config_parameters",
                       PList [PDict [("key", PStr "web.base.url");
                                     ("value", PStr "http://localhost")];
                              PDict [("key", PStr "database.uuid");
                                     ("value", PStr "u-1")]])]));
     ("all/res_groups.yml",
      YamlDoc (PDict [("res_groups", PList [PDict [("name", PStr "Managers")]])]));
     ("all/ir_sequences.yml",
      YamlDoc (PDict [("ir_sequences", PList [PDict snapshot_sequence])]));
     ("all/module_states.yml",
      YamlDoc (PDict [("module_states", PList sample_modules)]));
     ("all/ir_model_data.yml",
      YamlDoc (PDict [("ir_model_data",
                       PList [PDict [("module", PStr "base"); ("name", PStr "group_user");
                                     ("model", PStr "res.groups"); ("res_id", PInt 0)]])]))].

Definition whole_target : world :=
  World whole_fs (db live_target) [] [] no_faults.

(** The snapshot of a sequence [P1] that the target does not have. *)
Definition fresh_sequence : dict :=
  [("name", PStr "Purchase"); ("code", PStr "P1"); ("number_next", PInt 40)].

(** A target in which [web.base.url] is live with an old value, beside a
    parameter no snapshot mentions. *)
Definition old_target : world :=
  World ∅
    (list_to_map
       [("ir.config_parameter",
         [[("key", PStr "web.base.url"); ("value", PStr "http://old")];
          [("key", PStr "mail.catchall"); ("value", PStr "catchall")]])])
    [] [] no_faults.

(** * Properties *)

(** ** The manifest gate *)

Lemma read_yaml_absent (path : string) (w : world) :
  fs w !! path = None →
  read_yaml path w =
    (Ok (PDict []), (log WARNING "YAML file not found: {}" [PStr path] w).2).
Proof.
  intros H. unfold read_yaml, try_except, bind, yaml_load_file.
  rewrite H. reflexivity.
Qed.

Lemma read_yaml_doc (path : string) (v : pyval) (w : world) :
  fs w !! path = Some (YamlDoc v) →
  read_yaml path w = (Ok (match v with PNone => PDict [] | _ => v end), w).
Proof.
  intros H. unfold read_yaml, try_except, bind, yaml_load_file.
  rewrite H. destruct v; reflexivity.
Qed.

(** C5. When the manifest of the source directory is absent, is an empty
    document or parses to an empty mapping, [import_system_configs] returns
    the failure [No manifest file found or invalid manifest], and does so
    without a call on the environment: the records and the trace of calls are
    as before (only the log may have grown). *)
Theorem manifest_gate (source_path : string) (w : world) :
  fs w !! (source_path +:+ "/manifest.yml") = None ∨
  fs w !! (source_path +:+ "/manifest.yml") = Some (YamlDoc PNone) ∨
  fs w !! (source_path +:+ "/manifest.yml") = Some (YamlDoc (PDict [])) →
  (import_system_configs source_path w).1 =
    Ok (ImportError "No manifest file found or invalid manifest") ∧
  only_logged w (import_system_configs source_path w).2.
Proof.
  intros H. unfold import_system_configs, try_except, bind.
  destruct H as [H | [H | H]].
  - rewrite (read_yaml_absent _ _ H). simpl. repeat split.
  - rewrite (read_yaml_doc _ _ _ H). simpl. repeat split.
  - rewrite (read_yaml_doc _ _ _ H). simpl. repeat split.
Qed.

(** ** Reasoning rules for the monad *)

Lemma bind_ret {A B} (a : A) (k : A → M B) : bind (ret a) k = k a.
Proof. reflexivity. Qed.

Lemma bind_raise {A B} (e : exn) (k : A → M B) : bind (raise e) k = raise e.
Proof. reflexivity. Qed.

Lemma bind_run {A B} (m : M A) (k : A → M B) (w : world) :
  bind m k w = match m w with
               | (Ok a, w') => k a w'
               | (Raise e, w') => (Raise e, w')
               end.
Proof. reflexivity. Qed.

Lemma try_except_run {A} (m : M A) (h : exn → M A) (w : world) :
  try_except m h w = match m w with
                     | (Ok a, w') => (Ok a, w')
                     | (Raise e, w') => h e w'
                     end.
Proof. reflexivity. Qed.

(** Running the binds whose first part has returned or raised. *)
Ltac mret := repeat (rewrite bind_ret || rewrite bind_raise); cbv beta.

(** Reducing the matches on what a call has given. *)
Ltac mred := cbv beta iota delta [nonempty negb fst snd].

Section rules.
Context {A B : Type}.
Implicit Types (m : M A) (k : A → M B) (R : relation world).

Lemma stateless_ret (a : A) : stateless (ret a).
Proof. intros w. reflexivity. Qed.

Lemma stateless_raise (e : exn) : stateless (@raise A e).
Proof. intros w. reflexivity. Qed.

Lemma stateless_bind m k :
  stateless m → (∀ a, stateless (k a)) → stateless (bind m k).
Proof.
  intros Hm Hk w. rewrite bind_run. specialize (Hm w).
  destruct (m w) as [[a|e] w1]; simpl in *; subst; [apply Hk | reflexivity].
Qed.

Lemma stateless_preserves R `{!Reflexive R} m : stateless m → preserves R m.
Proof. intros H w. rewrite H. reflexivity. Qed.

Lemma preserves_ret R `{!Reflexive R} (a : A) : preserves R (ret a).
Proof. intros w. simpl. reflexivity. Qed.

Lemma preserves_raise R `{!Reflexive R} (e : exn) : preserves R (@raise A e).
Proof. intros w. simpl. reflexivity. Qed.

Lemma preserves_bind R `{!Transitive R} m k :
  preserves R m → (∀ a, preserves R (k a)) → preserves R (bind m k).
Proof.
  intros Hm Hk w. rewrite bind_run. specialize (Hm w).
  destruct (m w) as [[a|e] w1]; simpl in *; [|assumption].
  etransitivity; [eassumption | apply Hk].
Qed.

Lemma preserves_try_except R `{!Transitive R} m (h : exn → M A) :
  preserves R m → (∀ e, preserves R (h e)) → preserves R (try_except m h).
Proof.
  intros Hm Hh w. rewrite try_except_run. specialize (Hm w).
  destruct (m w) as [[a|e] w1]; simpl in *; [assumption|].
  etransitivity; [eassumption | apply Hh].
Qed.

Lemma returns_ret (Q : A → Prop) (a : A) : Q a → returns Q (ret a).
Proof. intros H w. exact H. Qed.

Lemma returns_raise (Q : A → Prop) (e : exn) : returns Q (raise e).
Proof. intros w. exact I. Qed.

Lemma returns_bind (Q : B → Prop) m k :
  (∀ a, returns Q (k a)) → returns Q (bind m k).
Proof.
  intros Hk w. rewrite bind_run.
  destruct (m w) as [[a|e] w1]; [apply Hk | exact I].
Qed.

Lemma returns_try_except (Q : A → Prop) m (h : exn → M A) :
  returns Q m → (∀ e, returns Q (h e)) → returns Q (try_except m h).
Proof.
  intros Hm Hh w. rewrite try_except_run. specialize (Hm w).
  destruct (m w) as [[a|e] w1]; [assumption | apply Hh].
Qed.

Lemma total_ret (a : A) : total (ret a).
Proof. intros w. by exists a. Qed.

Lemma total_bind m k : total m → (∀ a, total (k a)) → total (bind m k).
Proof.
  intros Hm Hk w. rewrite bind_run. destruct (Hm w) as [a Ha].
  destruct (m w) as [[a'|e] w1]; simpl in *; [apply Hk | discriminate].
Qed.

Lemma total_try_except m (h : exn → M A) :
  (∀ e, total (h e)) → total (try_except m h).
Proof.
  intros Hh w. rewrite try_except_run.
  destruct (m w) as [[a|e] w1]; [by exists a | apply Hh].
Qed.
End rules.

Lemma preserves_for_records (R : relation world) `{!PreOrder R}
    (body : pyval → nat → M nat) (handler : pyval → exn → M unit) :
  (∀ x n, preserves R (body x n)) →
  (∀ x e, preserves R (handler x e)) →
  ∀ items n, preserves R (for_records body handler items n).
Proof.
  intros Hb Hh items. induction items as [|x rest IH]; intros n; simpl.
  - apply preserves_ret; apply _.
  - apply preserves_bind; [apply _ | | intros; apply IH].
    apply preserves_try_except; [apply _ | apply Hb |].
    intros e. apply preserves_bind; [apply _ | apply Hh |].
    intros. apply preserves_ret; apply _.
Qed.

(** The operations on loaded values and files do not touch the world. *)

Lemma stateless_py_getitem v k : stateless (py_getitem v k).
Proof. intros w. destruct v; simpl; try reflexivity. by destruct (dict_get k entries). Qed.

Lemma stateless_py_get v k dflt : stateless (py_get v k dflt).
Proof. intros w. by destruct v. Qed.

Lemma stateless_py_iter v : stateless (py_iter v).
Proof. intros w. by destruct v. Qed.

Lemma stateless_py_copy v : stateless (py_copy v).
Proof. intros w. by destruct v. Qed.

Lemma stateless_py_pop v k : stateless (py_pop v k).
Proof. intros w. by destruct v. Qed.

Lemma stateless_os_path_exists path : stateless (os_path_exists path).
Proof. intros w. reflexivity. Qed.

Lemma stateless_yaml_load_file path : stateless (yaml_load_file path).
Proof.
  intros w. unfold yaml_load_file.
  destruct (fs w !! path) as [[e|v]|]; reflexivity.
Qed.

Create HintDb stateless.
#[global] Hint Resolve stateless_py_getitem stateless_py_get stateless_py_iter
  stateless_py_copy stateless_py_pop stateless_os_path_exists
  stateless_yaml_load_file : stateless.

(** ** The relations between worlds are preorders *)

#[global] Instance calls_preorder (P : store_op → Prop) : PreOrder (calls P).
Proof.
  split.
  - intros w. exists []. by rewrite app_nil_r.
  - intros w1 w2 w3 (o1 & E1 & F1) (o2 & E2 & F2). exists (o1 ++ o2).
    split; [by rewrite E2, E1, app_assoc | by apply Forall_app].
Qed.

#[global] Instance only_logged_preorder : PreOrder only_logged.
Proof.
  split; [by intros w|].
  intros w1 w2 w3 (?&?&?&?) (?&?&?&?). repeat split; congruence.
Qed.

#[global] Instance same_setting_preorder : PreOrder same_setting.
Proof.
  split; [by intros w|].
  intros w1 w2 w3 [??] [??]. split; congruence.
Qed.

#[global] Instance read_only_preorder : PreOrder read_only.
Proof.
  split; [by intros w; split|].
  intros w1 w2 w3 [E1 C1] [E2 C2]. split; [congruence | by etransitivity].
Qed.

#[global] Instance field_kept_preorder model field : PreOrder (field_kept model field).
Proof.
  split.
  - intros w i row H. by exists row.
  - intros w1 w2 w3 H1 H2 i row H.
    destruct (H1 i row H) as (row' & H' & E').
    destruct (H2 i row' H') as (row'' & H'' & E'').
    exists row''. split; [done | congruence].
Qed.

(** ** What the primitive operations do to the world *)

Lemma only_logged_log lvl template args : preserves only_logged (log lvl template args).
Proof. by intros w. Qed.

Lemma only_logged_calls P w w' : only_logged w w' → calls P w w'.
Proof. intros (_ & _ & E & _). exists []. by rewrite app_nil_r. Qed.

Lemma only_logged_same_setting w w' : only_logged w w' → same_setting w w'.
Proof. by intros (? & _ & _ & ?). Qed.

Lemma only_logged_read_only w w' : only_logged w w' → read_only w w'.
Proof.
  intros H. split; [apply H | by apply only_logged_calls].
Qed.

Lemma only_logged_field_kept model field w w' :
  only_logged w w' → field_kept model field w w'.
Proof. intros (_ & E & _) i row H. exists row. by rewrite E. Qed.

Lemma table_insert model rows (d : database) :
  table model (<[model := rows]> d) = rows.
Proof. unfold table. by rewrite lookup_insert_eq. Qed.

Lemma table_insert_ne model model' rows (d : database) :
  model' ≠ model → table model (<[model' := rows]> d) = table model d.
Proof. intros H. unfold table. by rewrite lookup_insert_ne. Qed.

Lemma calls_orm_call {A} (P : store_op → Prop) (o : store_op)
    (run : database → A * database) :
  P o → preserves (calls P) (orm_call o run).
Proof.
  intros H w. exists [o]. unfold orm_call.
  destruct (faults w (db w) o); simpl; split; auto.
Qed.

Lemma calls_env_search P model domain :
  P (OpSearch model domain) → preserves (calls P) (env_search model domain).
Proof. apply calls_orm_call. Qed.

Lemma calls_env_create P model vals :
  (∀ v, P (OpCreate model v)) → preserves (calls P) (env_create model vals).
Proof.
  intros H. destruct vals; simpl; try (apply preserves_raise; apply _).
  apply calls_orm_call, H.
Qed.

Lemma calls_env_write P model ids vals :
  (∀ v, P (OpWrite model ids v)) → preserves (calls P) (env_write model ids vals).
Proof.
  intros H. destruct vals; simpl; try (apply preserves_raise; apply _).
  apply calls_orm_call, H.
Qed.

Lemma calls_env_read P model ids field :
  P (OpRead model ids field) → preserves (calls P) (env_read model ids field).
Proof.
  intros H. destruct ids as [|i [|]]; simpl; try (apply preserves_raise; apply _).
  by apply calls_orm_call.
Qed.

Lemma same_setting_orm_call {A} (o : store_op) (run : database → A * database) :
  preserves same_setting (orm_call o run).
Proof. intros w. unfold orm_call. by destruct (faults w (db w) o). Qed.

Lemma same_setting_env_search model domain :
  preserves same_setting (env_search model domain).
Proof. apply same_setting_orm_call. Qed.

Lemma same_setting_env_create model vals :
  preserves same_setting (env_create model vals).
Proof.
  destruct vals; simpl; try (apply preserves_raise; apply _).
  apply same_setting_orm_call.
Qed.

Lemma same_setting_env_write model ids vals :
  preserves same_setting (env_write model ids vals).
Proof.
  destruct vals; simpl; try (apply preserves_raise; apply _).
  apply same_setting_orm_call.
Qed.

Lemma same_setting_env_read model ids field :
  preserves same_setting (env_read model ids field).
Proof.
  destruct ids as [|i [|]]; simpl; try (apply preserves_raise; apply _).
  apply same_setting_orm_call.
Qed.

Lemma read_only_env_search model domain : preserves read_only (env_search model domain).
Proof.
  intros w. split.
  - unfold env_search, orm_call. by destruct (faults w (db w) _).
  - by apply calls_env_search.
Qed.

Lemma read_only_env_read model ids field : preserves read_only (env_read model ids field).
Proof.
  intros w. split.
  - destruct ids as [|i [|]]; try reflexivity.
    unfold env_read, orm_call. by destruct (faults w (db w) _).
  - by apply calls_env_read.
Qed.

Lemma preserves_log R lvl template args :
  (∀ w w', only_logged w w' → R w w') → preserves R (log lvl template args).
Proof. intros H w. apply H, only_logged_log. Qed.

Create HintDb preserves.
#[global] Hint Resolve only_logged_log calls_env_search calls_env_create
  calls_env_write calls_env_read same_setting_env_search same_setting_env_create
  same_setting_env_write same_setting_env_read read_only_env_search
  read_only_env_read : preserves.
#[global] Hint Extern 1 (preserves _ (log _ _ _)) =>
  apply preserves_log;
  first [ apply only_logged_calls | apply only_logged_same_setting
        | apply only_logged_read_only | apply only_logged_field_kept ]
  : preserves.

(** One step of a proof that a program preserves a relation, following the
    shape of the program. *)
Ltac preserves_step :=
  lazymatch goal with
  | |- preserves _ (bind _ _) => apply preserves_bind; [apply _ | | intros ?]
  | |- preserves _ (try_except _ _) =>
      apply preserves_try_except; [apply _ | | intros ?]
  | |- preserves _ (ret _) => apply preserves_ret; apply _
  | |- preserves _ (raise _) => apply preserves_raise; apply _
  | |- preserves _ (for_records _ _ _ _) =>
      apply preserves_for_records; [apply _ | intros ? ? | intros ? ?]
  | |- preserves _ (if ?b then _ else _) => destruct b
  | |- preserves _ (match ?x with _ => _ end) => destruct x
  | |- preserves _ _ =>
      first [ apply stateless_preserves; [apply _ | solve [auto with stateless]]
            | solve [auto with preserves] ]
  end.

Ltac preserves_auto := repeat preserves_step.

(** ** Processing order *)

Abbreviation on_model m := (calls (λ o, op_model o = m)).

Lemma on_model_config_params data :
  preserves (on_model "ir.config_parameter") (_import_config_params data).
Proof.
  unfold _import_config_params, config_param_body, config_param_handler.
  preserves_auto.
Qed.

Lemma on_model_sequences data :
  preserves (on_model "ir.sequence") (_import_sequences data).
Proof.
  unfold _import_sequences, sequence_body, sequence_handler. preserves_auto.
Qed.

Lemma on_model_user_groups data :
  preserves (on_model "res.groups") (_import_user_groups data).
Proof.
  unfold _import_user_groups, user_group_body, user_group_handler.
  preserves_auto.
Qed.

Lemma on_model_external_ids data :
  preserves (on_model "ir.model.data") (_import_external_ids data).
Proof.
  unfold _import_external_ids, external_id_body, external_id_handler.
  preserves_auto.
Qed.

Lemma on_model_module_states data :
  preserves (on_model "ir.module.module") (_import_module_states data).
Proof.
  unfold _import_module_states, module_state_body, module_state_handler.
  preserves_auto.
Qed.

Lemma on_model_import_methods config_type f data :
  import_methods config_type = Some f →
  preserves (on_model (model_of config_type)) (f data).
Proof.
  unfold import_methods, model_of. intros H.
  repeat case_decide; simplify_eq;
    auto using on_model_config_params, on_model_sequences,
      on_model_user_groups, on_model_external_ids, on_model_module_states.
Qed.

Lemma on_model_read_yaml m path : preserves (on_model m) (read_yaml path).
Proof. unfold read_yaml. preserves_auto. Qed.

Lemma on_model_import_config_type config_type source_path :
  preserves (on_model (model_of config_type))
    (_import_config_type config_type source_path).
Proof.
  unfold _import_config_type, import_config_type_body.
  destruct (import_methods config_type) as [f|] eqn:Hf.
  - preserves_auto; try apply on_model_read_yaml.
    eapply on_model_import_methods, Hf.
  - preserves_auto; apply on_model_read_yaml.
Qed.

Lemma on_model_import_round source_path config_type results n :
  preserves (on_model (model_of config_type))
    (import_round source_path config_type results n).
Proof.
  unfold import_round. preserves_auto. apply on_model_import_config_type.
Qed.

Lemma calls_in_order_nil w w' : only_logged w w' → calls_in_order [] w w'.
Proof.
  intros (_ & _ & E & _). exists []. split; [by rewrite E, app_nil_r | constructor].
Qed.

Lemma calls_in_order_cons m ms w1 w2 w3 :
  on_model m w1 w2 → calls_in_order ms w2 w3 → calls_in_order (m :: ms) w1 w3.
Proof.
  intros (o & E & F) (os & E' & F'). exists (o :: os). split.
  - simpl. by rewrite E', E, app_assoc.
  - by constructor.
Qed.

Lemma calls_in_order_stop m ms w1 w2 :
  on_model m w1 w2 → calls_in_order (m :: ms) w1 w2.
Proof.
  intros (o & E & F). exists (o :: replicate (length ms) []). split.
  - simpl. assert (H : ∀ n, concat (replicate n (@nil store_op)) = []).
    { intros n. induction n; simpl; auto. }
    by rewrite H, app_nil_r.
  - constructor; [done|]. induction ms; simpl; constructor; auto.
Qed.

Lemma import_loop_calls_in_order source_path types results n w :
  calls_in_order (model_of <$> types) w
    (import_loop source_path types results n w).2.
Proof.
  revert results n w. induction types as [|t rest IH]; intros results n w.
  - apply calls_in_order_nil. simpl. repeat split.
  - simpl. rewrite bind_run.
    pose proof (on_model_import_round source_path t results n w) as H.
    destruct (import_round source_path t results n w) as [[[rs c|res]|e] w1];
      simpl in *.
    + eapply calls_in_order_cons; [exact H | apply IH].
    + by apply calls_in_order_stop.
    + by apply calls_in_order_stop.
Qed.

Ltac returns_step :=
  lazymatch goal with
  | |- returns _ (bind _ _) => apply returns_bind; intros ?
  | |- returns _ (try_except _ _) => apply returns_try_except; [|intros ?]
  | |- returns _ (ret _) => apply returns_ret
  | |- returns _ (raise _) => apply returns_raise
  | |- returns _ (if ?b then _ else _) => destruct b
  | |- returns _ (match ?x with _ => _ end) => destruct x
  end.

Lemma import_config_type_returns ctype source_path :
  returns (λ r, config_type r = ctype) (_import_config_type ctype source_path).
Proof.
  unfold _import_config_type, import_config_type_body.
  repeat returns_step; reflexivity.
Qed.

Lemma total_log lvl template args : total (log lvl template args).
Proof. intros w. by exists tt. Qed.

Lemma import_config_type_total ctype source_path :
  total (_import_config_type ctype source_path).
Proof.
  unfold _import_config_type. apply total_try_except. intros e.
  apply total_bind; [apply total_log | intros; apply total_ret].
Qed.

(** [_import_config_type] always returns a result, for the type it was
    called with; the round of the loop goes on or returns accordingly. *)
Lemma import_round_run source_path ctype results n w :
  ∃ r w1,
    _import_config_type ctype source_path w = (Ok r, w1) ∧
    config_type r = ctype ∧
    import_round source_path ctype results n w =
      (Ok (if success r
           then Continue (results ++ [r]) (n + default 0 (imported_records r))
           else Return (ImportFailed ctype (error r) n)), w1).
Proof.
  destruct (import_config_type_total ctype source_path w) as [r Hr].
  pose proof (import_config_type_returns ctype source_path w) as Hc.
  rewrite Hr in Hc.
  destruct (_import_config_type ctype source_path w) as [o w1] eqn:E.
  simpl in Hr. subst o. exists r, w1. repeat split; [done|].
  unfold import_round. rewrite try_except_run, bind_run, E.
  by destruct (success r).
Qed.

Lemma import_loop_result source_path types results n w :
  match (import_loop source_path types results n w).1 with
  | Ok (ImportSuccess k _ rs) =>
      k = length import_order ∧
      config_type <$> rs = (config_type <$> results) ++ types
  | Ok (ImportFailed t _ _) => t ∈ types
  | Ok (ImportError _) | Raise _ => False
  end.
Proof.
  revert results n w. induction types as [|t rest IH]; intros results n w.
  - simpl. by rewrite app_nil_r.
  - simpl. rewrite bind_run.
    destruct (import_round_run source_path t results n w) as (r & w1 & _ & Hc & ->).
    destruct (success r); simpl.
    + specialize (IH (results ++ [r]) (n + default 0 (imported_records r)) w1).
      destruct (import_loop _ _ _ _ _).1 as [[| |]|]; try done.
      * set_solver.
      * destruct IH as [-> ->]. split; [done|].
        rewrite fmap_app. simpl. by rewrite Hc, <- app_assoc.
    + set_solver.
Qed.

Lemma calls_in_order_only_logged_l ms w1 w2 w3 :
  only_logged w1 w2 → calls_in_order ms w2 w3 → calls_in_order ms w1 w3.
Proof. intros (_ & _ & E & _) (os & E' & F). exists os. by rewrite E', E. Qed.

Lemma calls_in_order_refl ms w : calls_in_order ms w w.
Proof.
  destruct ms as [|m ms].
  - apply calls_in_order_nil. reflexivity.
  - apply calls_in_order_stop. reflexivity.
Qed.

Lemma only_logged_read_yaml path : preserves only_logged (read_yaml path).
Proof. unfold read_yaml. preserves_auto. Qed.

Lemma import_loop_total source_path types results n : 
  total (import_loop source_path types results n).
Proof.
  intros w. pose proof (import_loop_result source_path types results n w) as H.
  destruct (import_loop source_path types results n w).1 as [r|]; [by exists r | done].
Qed.

(** The run, laid out by what reading the manifest gives. *)
Lemma import_system_configs_run source_path w :
  import_system_configs source_path w =
    match read_yaml (source_path +:+ "/manifest.yml") w with
    | (Ok manifest, w1) =>
        if py_truthy manifest then import_loop source_path import_order [] 0 w1
        else (Ok (ImportError "No manifest file found or invalid manifest"), w1)
    | (Raise e, w1) =>
        (Ok (ImportError (str_exn e)),
         (log ERROR "Failed to import system configs: {}" [PStr (str_exn e)] w1).2)
    end.
Proof.
  unfold import_system_configs. rewrite try_except_run, bind_run.
  destruct (read_yaml _ w) as [[manifest|e] w1]; [|reflexivity].
  destruct (py_truthy manifest); [|reflexivity].
  change (negb true) with false. cbv beta iota.
  destruct (import_loop_total source_path import_order [] 0 w1) as [r Hr].
  destruct (import_loop source_path import_order [] 0 w1) as [[?|?] ?];
    [reflexivity | discriminate].
Qed.

(** With a manifest that loads to a true value, the run is the loop over
    [import_order]. *)
Lemma import_system_configs_loop source_path manifest w :
  fs w !! (source_path +:+ "/manifest.yml") = Some (YamlDoc manifest) →
  py_truthy manifest = true →
  import_system_configs source_path w = import_loop source_path import_order [] 0 w.
Proof.
  intros Hm Ht. rewrite import_system_configs_run, (read_yaml_doc _ _ _ Hm).
  by destruct manifest; try discriminate; rewrite ?Ht.
Qed.

Lemma import_loop_processed source_path types : ∀ results n w,
  let run := processed_in_order source_path types w in
  import_loop source_path types results n w =
    match stopped run with
    | None =>
        (Ok (ImportSuccess (length import_order) (n + total_imported (completed run))
               (results ++ completed run)),
         (log INFO "Successfully imported all config types, total records: {}"
            [PInt (Z.of_nat (n + total_imported (completed run)))] (reached run)).2)
    | Some r =>
        (Ok (ImportFailed (config_type r) (error r)
               (n + total_imported (completed run))),
         reached run)
    end.
Proof.
  induction types as [|t rest IH]; intros results n w; cbv zeta.
  - simpl. by rewrite Nat.add_0_r, app_nil_r.
  - simpl. rewrite bind_run.
    destruct (import_round_run source_path t results n w) as (r & w1 & E & Hc & ->).
    rewrite E. destruct (success r); cbv beta iota.
    + rewrite IH. simpl completed. simpl stopped. simpl reached.
      change (total_imported (r :: ?c))
        with (default 0 (imported_records r) + total_imported c).
      rewrite <- app_assoc, Nat.add_assoc. reflexivity.
    + simpl. by rewrite Nat.add_0_r, Hc.
Qed.

(** The types of the list split into those completed, in the order of the
    list, the one that failed, and those never reached. *)
Lemma processed_in_order_split source_path types : ∀ w,
  let run := processed_in_order source_path types w in
  Forall (λ r, success r = true) (completed run) ∧
  match stopped run with
  | None => types = config_type <$> completed run
  | Some r =>
      success r = false ∧
      ∃ rest, types = (config_type <$> completed run) ++ config_type r :: rest
  end.
Proof.
  induction types as [|t rest IH]; intros w; cbv zeta; [by split|].
  simpl.
  destruct (import_config_type_total t source_path w) as [r Hr].
  pose proof (import_config_type_returns t source_path w) as Hc.
  destruct (_import_config_type t source_path w) as [[r'|e] w1]; simpl in Hr, Hc;
    [|discriminate].
  destruct (success r') eqn:Hs; simpl.
  - destruct (IH w1) as [Hall Hsplit]. split; [by constructor|].
    destruct (stopped _) as [r0|].
    + destruct Hsplit as (Hf & rest' & E). split; [done|]. exists rest'.
      rewrite Hc. f_equal. exact E.
    + rewrite Hc. f_equal. exact Hsplit.
  - split; [constructor|]. split; [done|]. exists rest. by rewrite Hc.
Qed.

(** The type that failed was handed to [_import_config_type] in the world
    the completed types left. *)
Lemma processed_in_order_stop source_path types : ∀ w r,
  stopped (processed_in_order source_path types w) = Some r →
  _import_config_type (config_type r) source_path
    (reached (processed_in_order source_path
                (config_type <$> completed (processed_in_order source_path types w))
                w)) =
    (Ok r, reached (processed_in_order source_path types w)).
Proof.
  induction types as [|t rest IH]; intros w r; [done|].
  simpl.
  destruct (import_config_type_total t source_path w) as [r' Hr].
  pose proof (import_config_type_returns t source_path w) as Hc.
  destruct (_import_config_type t source_path w) as [[r0|e] w1] eqn:E;
    simpl in Hr, Hc; [|discriminate].
  destruct (success r0) eqn:Hs; simpl.
  - intros Hst. rewrite Hc, E, Hs. simpl. by apply IH.
  - intros [= <-]. by rewrite Hc.
Qed.

Lemma processed_in_order_chain source_path w :
  stopped (processed_in_order source_path import_order w) = None →
  ∃ r1 w1 r2 w2 r3 w3 r4 w4 r5,
    _import_config_type "ir_config_parameters" source_path w = (Ok r1, w1) ∧
    _import_config_type "res_groups" source_path w1 = (Ok r2, w2) ∧
    _import_config_type "ir_sequences" source_path w2 = (Ok r3, w3) ∧
    _import_config_type "module_states" source_path w3 = (Ok r4, w4) ∧
    _import_config_type "ir_model_data" source_path w4 =
      (Ok r5, reached (processed_in_order source_path import_order w)) ∧
    completed (processed_in_order source_path import_order w) = [r1; r2; r3; r4; r5].
Proof.
  unfold import_order. cbn [processed_in_order].
  destruct (_import_config_type "ir_config_parameters" source_path w)
    as [[r1|e1] w1] eqn:E1; [|discriminate].
  destruct (success r1); [|discriminate]. cbn [completed stopped reached].
  destruct (_import_config_type "res_groups" source_path w1)
    as [[r2|e2] w2] eqn:E2; [|discriminate].
  destruct (success r2); [|discriminate]. cbn [completed stopped reached].
  destruct (_import_config_type "ir_sequences" source_path w2)
    as [[r3|e3] w3] eqn:E3; [|discriminate].
  destruct (success r3); [|discriminate]. cbn [completed stopped reached].
  destruct (_import_config_type "module_states" source_path w3)
    as [[r4|e4] w4] eqn:E4; [|discriminate].
  destruct (success r4); [|discriminate]. cbn [completed stopped reached].
  destruct (_import_config_type "ir_model_data" source_path w4)
    as [[r5|e5] w5] eqn:E5; [|discriminate].
  destruct (success r5); [|discriminate]. cbn [completed stopped reached].
  intros _. exists r1, w1, r2, w2, r3, w3, r4, w4, r5.
  by rewrite E2, E3, E4, E5.
Qed.

(** C2. Every run with a manifest processes the entity types in the order
    ConfigParameter, UserGroup, Sequence, ModuleState, ExternalIdMapping:
    each type is handed to [_import_config_type] in the world the type
    before it left, the first type that fails ends the run, and what the run
    returns and the world it ends in are those of that chain. The fixed order
    splits into the types completed, the type that failed and the types
    never reached; on success all five are completed, the external-id
    mappings last, in the world the other four have left. Whatever the run,
    its calls on the environment split into five consecutive stretches, one
    per collection in that order (a stretch is empty when its type is absent
    or the run has stopped before it), so every call on the external-id
    mappings comes after every call on the other four collections; a run
    that fails before the loop has made no call. *)
Theorem fixed_processing_order (source_path : string) (w : world) :
  import_order =
    ["ir_config_parameters"; "res_groups"; "ir_sequences"; "module_states";
     "ir_model_data"] ∧
  (∃ params groups sequences modules external_ids,
     ops (import_system_configs source_path w).2 =
       ops w ++ params ++ groups ++ sequences ++ modules ++ external_ids ∧
     Forall (λ o, op_model o = "ir.config_parameter") params ∧
     Forall (λ o, op_model o = "res.groups") groups ∧
     Forall (λ o, op_model o = "ir.sequence") sequences ∧
     Forall (λ o, op_model o = "ir.module.module") modules ∧
     Forall (λ o, op_model o = "ir.model.data") external_ids) ∧
  match (import_system_configs source_path w).1 with
  | Ok (ImportSuccess k _ rs) =>
      k = 5 ∧ config_type <$> rs = import_order
  | Ok (ImportFailed t _ _) => t ∈ import_order
  | Ok (ImportError _) => ops (import_system_configs source_path w).2 = ops w
  | Raise _ => False
  end ∧
  (∀ manifest,
     fs w !! (source_path +:+ "/manifest.yml") = Some (YamlDoc manifest) →
     py_truthy manifest = true →
     let run :=
       processed_in_order source_path
         ["ir_config_parameters"; "res_groups"; "ir_sequences"; "module_states";
          "ir_model_data"] w in
     Forall (λ r, success r = true) (completed run) ∧
     match stopped run with
     | None =>
         import_system_configs source_path w =
           (Ok (ImportSuccess 5 (total_imported (completed run)) (completed run)),
            (log INFO "Successfully imported all config types, total records: {}"
               [PInt (Z.of_nat (total_imported (completed run)))] (reached run)).2) ∧
         ∃ r1 w1 r2 w2 r3 w3 r4 w4 r5,
           _import_config_type "ir_config_parameters" source_path w = (Ok r1, w1) ∧
           _import_config_type "res_groups" source_path w1 = (Ok r2, w2) ∧
           _import_config_type "ir_sequences" source_path w2 = (Ok r3, w3) ∧
           _import_config_type "module_states" source_path w3 = (Ok r4, w4) ∧
           _import_config_type "ir_model_data" source_path w4 = (Ok r5, reached run) ∧
           completed run = [r1; r2; r3; r4; r5]
     | Some r =>
         success r = false ∧
         (∃ rest,
            ["ir_config_parameters"; "res_groups"; "ir_sequences"; "module_states";
             "ir_model_data"] =
              (config_type <$> completed run) ++ config_type r :: rest) ∧
         _import_config_type (config_type r) source_path
           (reached (processed_in_order source_path
                       (config_type <$> completed run) w)) =
           (Ok r, reached run) ∧
         import_system_configs source_path w =
           (Ok (ImportFailed (config_type r) (error r)
                  (total_imported (completed run))),
            reached run)
     end).
Proof.
  split; [reflexivity|].
  assert (calls_in_order (model_of <$> import_order) w
            (import_system_configs source_path w).2 ∧
          match (import_system_configs source_path w).1 with
          | Ok (ImportSuccess k _ rs) =>
              k = 5 ∧ config_type <$> rs = import_order
          | Ok (ImportFailed t _ _) => t ∈ import_order
          | Ok (ImportError _) => ops (import_system_configs source_path w).2 = ops w
          | Raise _ => False
          end) as [Hc Hr].
  { rewrite import_system_configs_run.
    pose proof (only_logged_read_yaml (source_path +:+ "/manifest.yml") w) as Hy.
    destruct (read_yaml _ w) as [[manifest|e] w1]; simpl in Hy.
    - destruct (py_truthy manifest).
      + pose proof (import_loop_result source_path import_order [] 0 w1) as H.
        pose proof (import_loop_calls_in_order source_path import_order [] 0 w1) as H'.
        destruct (import_loop source_path import_order [] 0 w1) as [[r|?] w2];
          simpl in H, H'; [|done].
        split; [by eapply calls_in_order_only_logged_l|].
        by destruct r.
      + split; [|apply Hy].
        eapply calls_in_order_only_logged_l; [exact Hy | apply calls_in_order_refl].
    - assert (only_logged w
                (log ERROR "Failed to import system configs: {}" [PStr (str_exn e)] w1).2)
        as Hy' by (etransitivity; [exact Hy | apply only_logged_log]).
      split; [|apply Hy'].
      eapply calls_in_order_only_logged_l; [exact Hy' | apply calls_in_order_refl]. }
  split; [|split; [exact Hr|]].
  { destruct Hc as (os & E & F). simpl in F.
    repeat match goal with
           | H : Forall2 _ (_ :: _) _ |- _ =>
               apply Forall2_cons_inv_l in H; destruct H as (? & ? & ? & H & ->)
           | H : Forall2 _ [] _ |- _ => apply Forall2_nil_inv_l in H; subst
           end.
    eexists _, _, _, _, _. split; [|repeat split; eassumption].
    rewrite E. simpl. by rewrite app_nil_r. }
  intros manifest Hm Ht run. subst run.
  rewrite (import_system_configs_loop _ _ _ Hm Ht).
  change ["ir_config_parameters"; "res_groups"; "ir_sequences"; "module_states";
          "ir_model_data"] with import_order.
  rewrite (import_loop_processed source_path import_order [] 0 w). cbv zeta.
  destruct (processed_in_order_split source_path import_order w) as [Hall Hsplit].
  split; [exact Hall|].
  destruct (stopped (processed_in_order source_path import_order w)) as [r|] eqn:Hst.
  - destruct Hsplit as (Hf & rest & Hsplit). split; [done|].
    split; [by exists rest|]. split; [|reflexivity].
    by apply (processed_in_order_stop source_path import_order w r).
  - split; [reflexivity|].
    by apply (processed_in_order_chain source_path w).
Qed.

(** ** Absent documents and type-level faults *)

(** C6. A type whose document is absent from the source directory is
    reported as a success with zero records, without a call on the
    environment or a change to the world; the loop goes on to the next type
    with that result appended and its count of imported records as it was. *)
Theorem absent_document_is_skipped (source_path ctype : string)
    (rest : list string) (results : list type_result) (n : nat) (w : world) :
  fs w !! (source_path +:+ "/" +:+ ctype +:+ ".yml") = None →
  let skipped :=
    TypeResult true ctype (Some 0) (Some "File not found, skipping") None in
  _import_config_type ctype source_path w = (Ok skipped, w) ∧
  import_round source_path ctype results n w =
    (Ok (Continue (results ++ [skipped]) n), w) ∧
  import_loop source_path (ctype :: rest) results n w =
    import_loop source_path rest (results ++ [skipped]) n w.
Proof.
  intros H skipped.
  assert (_import_config_type ctype source_path w = (Ok skipped, w)) as E.
  { unfold _import_config_type, import_config_type_body.
    rewrite try_except_run, bind_run. unfold os_path_exists.
    rewrite H. reflexivity. }
  assert (import_round source_path ctype results n w =
            (Ok (Continue (results ++ [skipped]) n), w)) as E'.
  { unfold import_round. rewrite try_except_run, bind_run, E. simpl.
    by rewrite Nat.add_0_r. }
  repeat split; [exact E | exact E' |].
  simpl. by rewrite bind_run, E'.
Qed.

Lemma import_loop_prefix source_path pre rest results n w :
  Forall (λ r, success r = true) (run_types source_path pre w).1 →
  import_loop source_path (pre ++ rest) results n w =
    import_loop source_path rest
      (results ++ (run_types source_path pre w).1)
      (n + total_imported (run_types source_path pre w).1)
      (run_types source_path pre w).2.
Proof.
  revert results n w. induction pre as [|t pre IH]; intros results n w H.
  - simpl. by rewrite app_nil_r, Nat.add_0_r.
  - simpl in *. rewrite bind_run.
    destruct (import_round_run source_path t results n w) as (r & w1 & E & _ & ->).
    rewrite E in *. simpl in *. apply Forall_cons in H as [Hs H].
    rewrite Hs. rewrite (IH _ _ _ H).
    by rewrite <- app_assoc, Nat.add_assoc.
Qed.

(** C3. Take a run with a manifest that loads to a true value, and a type
    [t] of the order such that every type before it completes with success
    and the processing of [t] raises [e] (its document cannot be read or
    parsed, or its import method raises). Then the run returns the failure
    that names [t], carries [str(e)] and counts the records imported by the
    types before [t]; and it ends in the world in which [e] was raised, to
    which only the error line of the log is added: no later type is tried. *)
Theorem type_level_fault_halts (source_path : string) (w : world)
    (manifest : pyval) (pre : list string) (t : string) (post : list string)
    (e : exn) (w_fault : world) :
  fs w !! (source_path +:+ "/manifest.yml") = Some (YamlDoc manifest) →
  py_truthy manifest = true →
  import_order = pre ++ t :: post →
  Forall (λ r, success r = true) (run_types source_path pre w).1 →
  import_config_type_body t source_path (run_types source_path pre w).2 =
    (Raise e, w_fault) →
  import_system_configs source_path w =
    (Ok (ImportFailed t (Some (str_exn e))
           (total_imported (run_types source_path pre w).1)),
     (log ERROR "Failed to import config type {}: {}" [PStr t; PStr (str_exn e)]
        w_fault).2).
Proof.
  intros Hm Ht Ho Hpre Hfault.
  rewrite (import_system_configs_loop _ _ _ Hm Ht), Ho.
  rewrite (import_loop_prefix _ _ _ _ _ _ Hpre). simpl.
  rewrite bind_run. unfold import_round.
  rewrite try_except_run, bind_run. unfold _import_config_type.
  rewrite try_except_run, Hfault. reflexivity.
Qed.

Lemma unreadable_document_raises ctype source_path e w :
  fs w !! (source_path +:+ "/" +:+ ctype +:+ ".yml") = Some (Unreadable e) →
  (∀ msg, e ≠ FileNotFoundError msg) →
  import_config_type_body ctype source_path w =
    (Raise e,
     (log ERROR "Failed to read YAML file {}: {}"
        [PStr (source_path +:+ "/" +:+ ctype +:+ ".yml"); PStr (str_exn e)] w).2).
Proof.
  intros H Hne. unfold import_config_type_body.
  rewrite bind_run. unfold os_path_exists. rewrite H.
  assert (bool_decide (is_Some (Some (Unreadable e))) = true) as ->
    by (by apply bool_decide_eq_true).
  change (negb true) with false. cbv beta iota.
  rewrite bind_run. unfold read_yaml.
  rewrite try_except_run, bind_run. unfold yaml_load_file. rewrite H.
  destruct e; try reflexivity. by destruct (Hne msg).
Qed.

(** A document that parses but has no list under its key: the import
    method raises when it starts its loop. *)
Remark null_list_raises :
  import_config_type_body "ir_sequences" "void" void_target =
    (Raise (TypeError "'NoneType' object is not iterable"), void_target).
Proof. reflexivity. Qed.

(** ** The validator *)

Lemma collect_missing_run path file_names missing w :
  collect_missing path file_names missing w =
    (Ok (missing ++ filter (λ f, fs w !! os_path_join path f = None) file_names), w).
Proof.
  revert missing. induction file_names as [|f rest IH]; intros missing; simpl.
  - by rewrite app_nil_r.
  - rewrite bind_run. unfold os_path_exists. rewrite IH. f_equal. f_equal.
    rewrite filter_cons.
    destruct (decide (fs w !! os_path_join path f = None)) as [E|E].
    + rewrite E, bool_decide_eq_false_2 by (by intros [? ?]). simpl.
      by rewrite <- app_assoc.
    + by rewrite bool_decide_eq_true_2 by (by apply not_eq_None_Some).
Qed.

(** C9. Validation of a candidate directory returns without touching the
    world, so without a call on the environment, and its answer depends on
    the files only: when [manifest.yml] is absent, invalid with the message
    [Required files missing: manifest.yml]; otherwise valid, with the names
    of the optional documents that are absent, in the order of
    [optional_files]. A directory in which all five optional documents are
    absent has all five names listed. *)
Theorem validate_import_path_spec (path : string) (w : world) :
  validate_import_path path w =
    (Ok (if bool_decide (fs w !! os_path_join path "manifest.yml" = None)
         then Validation false "Required files missing: manifest.yml" None
         else Validation true "Import path is valid"
                (Some (filter (λ f, fs w !! os_path_join path f = None)
                         optional_files))),
     w) ∧
  optional_files =
    ["ir_config_parameters.yml"; "ir_sequences.yml"; "res_groups.yml";
     "ir_model_data.yml"; "module_states.yml"] ∧
  (Forall (λ f, fs w !! os_path_join path f = None) optional_files →
   filter (λ f, fs w !! os_path_join path f = None) optional_files =
     optional_files).
Proof.
  split; [|split; [reflexivity|]].
  - unfold validate_import_path.
    rewrite bind_run, collect_missing_run, bind_run, collect_missing_run.
    unfold required_files. rewrite filter_cons, filter_nil.
    destruct (decide (fs w !! os_path_join path "manifest.yml" = None)) as [E|E].
    + by rewrite (bool_decide_eq_true_2 (_ !! _ = None)) by done.
    + by rewrite (bool_decide_eq_false_2 (_ !! _ = None)) by done.
  - intros H. generalize optional_files H. clear H.
    induction 1 as [|f l Hf Hl IH]; [done|].
    rewrite filter_cons, decide_True by done. by rewrite IH.
Qed.

(** ** ModuleState *)

Lemma orm_call_run {A} (o : store_op) (run : database → A * database) w :
  faults w (db w) o = None →
  orm_call o run w =
    (Ok (run (db w)).1,
     World (fs w) (run (db w)).2 (ops w ++ [o]) (logs w) (faults w)).
Proof. intros H. unfold orm_call. by rewrite H. Qed.

Lemma env_search_run model domain w :
  faults w (db w) (OpSearch model domain) = None →
  env_search model domain w =
    (Ok (search_from 0 domain (table model (db w))),
     World (fs w) (db w) (ops w ++ [OpSearch model domain]) (logs w) (faults w)).
Proof. intros H. unfold env_search. by rewrite orm_call_run. Qed.

Lemma read_only_module_states data :
  preserves read_only (_import_module_states data).
Proof.
  unfold _import_module_states, module_state_body, module_state_handler.
  preserves_auto.
Qed.

Lemma same_setting_module_state_body x n :
  preserves same_setting (module_state_body x n).
Proof. unfold module_state_body. preserves_auto. Qed.

Lemma module_state_body_counts r name state n w :
  dict_get "name" r = Some name →
  dict_get "state" r = Some state →
  faultless w →
  unique_on "ir.module.module" "name" (db w) →
  (module_state_body (PDict r) n w).1 =
    Ok (if found_in "ir.module.module" "name" (db w) (PDict r) then S n else n).
Proof.
  intros Hn Hs Hf Hu. unfold module_state_body, found_in, find_by.
  simpl py_getitem. rewrite Hn, Hs. mret.
  rewrite bind_run, env_search_run by apply Hf.
  specialize (Hu name). unfold find_by in Hu.
  destruct (search_from 0 [("name", name)] (table "ir.module.module" (db w)))
    as [|i [|j ids]]; simpl in Hu; mred; [reflexivity | | lia].
  mred. rewrite bind_run.
  unfold env_read. rewrite orm_call_run by apply Hf. mred. mret.
  by destruct (py_eq _ _).
Qed.

Lemma module_states_count items : ∀ n w,
  faultless w →
  unique_on "ir.module.module" "name" (db w) →
  Forall (has_fields ["name"; "state"]) items →
  (for_records module_state_body module_state_handler items n w).1 =
    Ok (n + length (filter (λ x, found_in "ir.module.module" "name" (db w) x = true)
                      items)).
Proof.
  induction items as [|x rest IH]; intros n w Hf Hu Hw.
  - simpl. by rewrite Nat.add_0_r.
  - apply Forall_cons in Hw as [Hx Hw]. destruct x as [| | | | |r]; try done.
    simpl in Hx. apply Forall_cons in Hx as [[name Hn] Hx].
    apply Forall_cons in Hx as [[state Hs] _].
    simpl for_records. rewrite bind_run, try_except_run.
    pose proof (module_state_body_counts r name state n w Hn Hs Hf Hu) as Hb.
    pose proof (same_setting_module_state_body (PDict r) n w) as [_ Hfa].
    assert (db (module_state_body (PDict r) n w).2 = db w) as Hdb.
    { assert (preserves read_only (module_state_body (PDict r) n)) as Hp
        by (unfold module_state_body; preserves_auto).
      apply Hp. }
    rewrite filter_cons.
    remember (found_in "ir.module.module" "name" (db w) (PDict r)) as b eqn:E.
    destruct (module_state_body (PDict r) n w) as [[n'|e] w1];
      simpl in Hb, Hdb, Hfa; [|discriminate].
    injection Hb as ->. cbv beta iota.
    rewrite IH; [| by intros ??; rewrite Hfa | by unfold unique_on; rewrite Hdb | done].
    rewrite Hdb. destruct b.
    + rewrite decide_True by done. simpl. by rewrite Nat.add_succ_r.
    + by rewrite decide_False by done.
Qed.


(** ** Dictionaries and collections *)

Lemma dict_get_pop k d : dict_get k (dict_pop k d) = None.
Proof.
  induction d as [|[k' v] d IH]; simpl; [done|].
  destruct (decide (k' = k)); simpl; [done|]. by rewrite decide_False.
Qed.

Lemma dict_get_pop_ne k f d : f ≠ k → dict_get f (dict_pop k d) = dict_get f d.
Proof.
  intros H. induction d as [|[k' v] d IH]; simpl; [done|].
  destruct (decide (k' = k)) as [->|]; simpl.
  - by rewrite decide_False.
  - by rewrite IH.
Qed.

Lemma dict_get_set k v d : dict_get k (dict_set k v d) = Some v.
Proof.
  induction d as [|[k' v'] d IH]; simpl.
  - by rewrite decide_True.
  - destruct (decide (k' = k)) as [->|]; simpl.
    + by rewrite decide_True.
    + by rewrite decide_False.
Qed.

Lemma dict_get_set_ne k f v d : f ≠ k → dict_get f (dict_set k v d) = dict_get f d.
Proof.
  intros H. induction d as [|[k' v'] d IH]; simpl.
  - by rewrite decide_False.
  - destruct (decide (k' = k)) as [->|]; simpl.
    + by rewrite !decide_False.
    + by rewrite IH.
Qed.

Lemma dict_set_set k v v' d : dict_set k v (dict_set k v' d) = dict_set k v d.
Proof.
  induction d as [|[k' x] d IH]; simpl.
  - by rewrite decide_True.
  - destruct (decide (k' = k)) as [->|]; simpl.
    + by rewrite decide_True.
    + by rewrite decide_False, IH.
Qed.

Lemma dict_set_same k v d : dict_get k d = Some v → dict_set k v d = d.
Proof.
  induction d as [|[k' x] d IH]; simpl; [done|].
  destruct (decide (k' = k)) as [->|]; [by intros [= ->] | by intros ->%IH].
Qed.

Lemma dict_get_update f d vals :
  dict_get f vals = None → dict_get f (dict_update d vals) = dict_get f d.
Proof.
  revert d. induction vals as [|[k v] vals IH]; intros d; simpl; [done|].
  destruct (decide (k = f)); [done|]. intros H.
  by rewrite IH, dict_get_set_ne.
Qed.

Lemma dict_get_not_in f (d : dict) : f ∉ d.*1 → dict_get f d = None.
Proof.
  induction d as [|[k v] d IH]; simpl; [done|].
  rewrite not_elem_of_cons. intros [Hne Hin]. by rewrite decide_False, IH by done.
Qed.

(** With each key once, [update] leaves a key at the value [vals] has for it. *)
Lemma dict_get_update_in f v vals : ∀ row,
  NoDup vals.*1 → dict_get f vals = Some v →
  dict_get f (dict_update row vals) = Some v.
Proof.
  induction vals as [|[k x] vals IH]; intros row Hnd Hg; [done|].
  simpl in *. apply NoDup_cons in Hnd as [Hk Hnd].
  destruct (decide (k = f)) as [->|Hne].
  - injection Hg as ->. rewrite dict_get_update by (by apply dict_get_not_in).
    apply dict_get_set.
  - by apply IH.
Qed.

Lemma dict_pop_keys k (d : dict) : NoDup d.*1 → NoDup (dict_pop k d).*1.
Proof.
  induction d as [|[k' v] d IH]; simpl; [done|].
  intros [Hk Hd]%NoDup_cons. destruct (decide (k' = k)); [by apply IH|].
  simpl. apply NoDup_cons. split; [|by apply IH].
  intros Hin. apply Hk. clear -Hin.
  induction d as [|[k'' v'] d IH]; simpl in *; [done|].
  destruct (decide (k'' = k)); simpl in *; [right; by apply IH|].
  apply elem_of_cons in Hin as [->|Hin]; [by left | right; by apply IH].
Qed.

Lemma write_from_lookup i ids vals rows j :
  write_from i ids vals rows !! j =
    (λ r, if bool_decide (i + j ∈ ids) then dict_update r vals else r) <$> rows !! j.
Proof.
  revert i j. induction rows as [|r rows IH]; intros i j; [done|].
  destruct j as [|j]; simpl.
  - by rewrite Nat.add_0_r.
  - rewrite IH. by rewrite Nat.add_succ_r.
Qed.

(** ** Sequence *)

Lemma field_kept_same_db model field w w' :
  db w' = db w → field_kept model field w w'.
Proof. intros E i row H. exists row. by rewrite E. Qed.

Lemma field_kept_env_search model field m domain :
  preserves (field_kept model field) (env_search m domain).
Proof.
  intros w. apply field_kept_same_db.
  unfold env_search, orm_call. by destruct (faults w (db w) _).
Qed.

Lemma field_kept_env_read model field m ids f :
  preserves (field_kept model field) (env_read m ids f).
Proof.
  intros w. apply field_kept_same_db. apply (read_only_env_read m ids f w).
Qed.

Lemma field_kept_env_create model field m vals :
  preserves (field_kept model field) (env_create m vals).
Proof.
  destruct vals; simpl; try (apply preserves_raise; apply _).
  intros w i row H. unfold orm_call.
  destruct (faults w (db w) _); simpl; [by exists row|].
  exists row. split; [|done].
  destruct (decide (m = model)) as [->|Hne].
  - rewrite table_insert. by apply lookup_app_l_Some.
  - by rewrite table_insert_ne.
Qed.

Lemma field_kept_env_write model field m ids vals :
  (∀ v, m = model → vals = PDict v → dict_get field v = None) →
  preserves (field_kept model field) (env_write m ids vals).
Proof.
  intros Hv. destruct vals as [| | | | |v]; simpl; try (apply preserves_raise; apply _).
  intros w i row H. unfold orm_call.
  destruct (faults w (db w) _); simpl; [by exists row|].
  destruct (decide (m = model)) as [->|Hne].
  - rewrite table_insert, write_from_lookup, H. simpl.
    eexists. split; [done|].
    destruct (bool_decide _); [|done]. apply dict_get_update. by apply Hv.
  - exists row. by rewrite table_insert_ne.
Qed.

#[global] Hint Resolve field_kept_env_search field_kept_env_read
  field_kept_env_create : preserves.

Lemma number_next_kept_sequence_body x n :
  preserves (field_kept "ir.sequence" "number_next") (sequence_body x n).
Proof.
  unfold sequence_body. destruct x as [| | | | |d];
    try (simpl py_getitem; mret; apply preserves_raise; apply _).
  apply preserves_bind; [apply _ | preserves_auto | intros code].
  apply preserves_bind; [apply _ | preserves_auto | intros existing].
  apply preserves_bind; [apply _ | | intros _; preserves_auto].
  destruct (nonempty existing); [|preserves_auto].
  simpl py_copy. mret. simpl py_pop. mret.
  apply field_kept_env_write. intros v _ [= <-]. apply dict_get_pop.
Qed.

Lemma number_next_kept_sequences data :
  preserves (field_kept "ir.sequence" "number_next") (_import_sequences data).
Proof.
  unfold _import_sequences. preserves_auto.
  - apply number_next_kept_sequence_body.
  - unfold sequence_handler. preserves_auto.
Qed.

Lemma env_write_run model ids v w :
  faults w (db w) (OpWrite model ids v) = None →
  env_write model ids (PDict v) w =
    (Ok tt,
     World (fs w) (<[model := write_from 0 ids v (table model (db w))]> (db w))
       (ops w ++ [OpWrite model ids v]) (logs w) (faults w)).
Proof. intros H. unfold env_write. by rewrite orm_call_run. Qed.

Lemma env_create_run model v w :
  faults w (db w) (OpCreate model v) = None →
  env_create model (PDict v) w =
    (Ok (length (table model (db w))),
     World (fs w) (<[model := table model (db w) ++ [v]]> (db w))
       (ops w ++ [OpCreate model v]) (logs w) (faults w)).
Proof. intros H. unfold env_create. by rewrite orm_call_run. Qed.

(** What [sequence_body] does with a record that has a [code], once the
    search has gone through. *)
Lemma sequence_body_run d code n w :
  dict_get "code" d = Some code →
  faults w (db w) (OpSearch "ir.sequence" [("code", code)]) = None →
  sequence_body (PDict d) n w =
    let w1 := World (fs w) (db w) (ops w ++ [OpSearch "ir.sequence" [("code", code)]])
                (logs w) (faults w) in
    let ids := find_by "ir.sequence" "code" code (db w) in
    if nonempty ids then
      (do _ <- env_write "ir.sequence" ids (PDict (dict_pop "number_next" d));
       ret (S n)) w1
    else
      (do _ <- env_create "ir.sequence" (PDict d); ret (S n)) w1.
Proof.
  intros Hc Hf. unfold sequence_body. simpl py_getitem. rewrite Hc. mret.
  rewrite bind_run, env_search_run by done. cbv beta iota zeta.
  unfold find_by. destruct (nonempty _); [reflexivity|].
  rewrite !bind_run. by destruct (env_create _ _ _) as [[?|?] ?].
Qed.

Lemma for_records_app body handler pre rest : ∀ n w,
  for_records body handler (pre ++ rest) n w =
    match for_records body handler pre n w with
    | (Ok n1, w1) => for_records body handler rest n1 w1
    | (Raise e, w1) => (Raise e, w1)
    end.
Proof.
  induction pre as [|x pre IH]; intros n w; [done|].
  simpl. rewrite !bind_run.
  destruct (try_except _ _ w) as [[n'|e] w']; [apply IH | done].
Qed.

(** The loop gets through records that are mappings, whatever they hold,
    and leaves the faults of the environment as they are. *)
Lemma sequences_reach pre : ∀ n w,
  Forall is_dict pre →
  ∃ n1 w1, for_records sequence_body sequence_handler pre n w = (Ok n1, w1) ∧
           faults w1 = faults w.
Proof.
  induction pre as [|x pre IH]; intros n w Hd; [by exists n, w|].
  apply Forall_cons in Hd as [Hx Hd]. destruct x as [| | | | |d]; try done.
  cbn [for_records]. rewrite bind_run, try_except_run.
  assert (preserves same_setting (sequence_body (PDict d) n)) as Hs
    by (unfold sequence_body; preserves_auto).
  destruct (Hs w) as [_ Hfa].
  destruct (sequence_body (PDict d) n w) as [[n'|e] w']; simpl in Hfa.
  - destruct (IH n' w' Hd) as (n1 & w1 & -> & Hfa1). exists n1, w1.
    split; [done | congruence].
  - destruct (IH n (sequence_handler (PDict d) e w').2 Hd) as (n1 & w1 & E & Hfa1).
    exists n1, w1. split; [exact E | by rewrite Hfa1].
Qed.

(** C1. Importing sequences never changes the [number_next] of a live
    sequence: after the import, whatever the document, every sequence that
    was there is still there with the [number_next] it had. For a record
    with a [code]: when live sequences have that code, the importer calls
    [write] on them with the record minus [number_next], that is with every
    other field of the record and no [number_next], and the collection is
    that write applied, every live counter kept; when none has it, the
    importer calls [create] with the record as it is, so the new sequence is
    the record, [number_next] included. And this is what [_import_sequences]
    does with every record of the document: against an environment that
    refuses no call, the loop reaches a record that has a [code], and comes
    after records that are mappings, in the world [w1] the records before it
    have left; it searches the code there, writes the record minus
    [number_next] on the sequences found or, when none is found, creates the
    record as it is, counts the record and goes on with the rest of the
    document. Each sequence written then has the value of the record for
    every field of the record but [number_next], and the counter it had. *)
Theorem sequence_counter_protected :
  (∀ sequences_data w,
     field_kept "ir.sequence" "number_next" w
       (_import_sequences sequences_data w).2) ∧
  (∀ d code n w,
     dict_get "code" d = Some code →
     faults w (db w) (OpSearch "ir.sequence" [("code", code)]) = None →
     let ids := find_by "ir.sequence" "code" code (db w) in
     let rows := table "ir.sequence" (db w) in
     let update_data := dict_pop "number_next" d in
     let w' := (sequence_body (PDict d) n w).2 in
     if nonempty ids then
       ops w' = ops w ++ [OpSearch "ir.sequence" [("code", code)];
                          OpWrite "ir.sequence" ids update_data] ∧
       dict_get "number_next" update_data = None ∧
       (∀ f, f ≠ "number_next" → dict_get f update_data = dict_get f d) ∧
       field_kept "ir.sequence" "number_next" w w' ∧
       (faults w (db w) (OpWrite "ir.sequence" ids update_data) = None →
        (sequence_body (PDict d) n w).1 = Ok (S n) ∧
        table "ir.sequence" (db w') = write_from 0 ids update_data rows)
     else
       ops w' = ops w ++ [OpSearch "ir.sequence" [("code", code)];
                          OpCreate "ir.sequence" d] ∧
       (faults w (db w) (OpCreate "ir.sequence" d) = None →
        (sequence_body (PDict d) n w).1 = Ok (S n) ∧
        table "ir.sequence" (db w') = rows ++ [d] ∧
        dict_get "number_next" <$> last (table "ir.sequence" (db w')) =
          Some (dict_get "number_next" d))) ∧
  (∀ pre d rest code w,
     Forall is_dict pre → dict_get "code" d = Some code → faultless w →
     ∃ n1 w1,
       _import_sequences (PList pre) w = (Ok n1, w1) ∧
       let ids := find_by "ir.sequence" "code" code (db w1) in
       let rows := table "ir.sequence" (db w1) in
       let update_data := dict_pop "number_next" d in
       let w2 :=
         World (fs w1)
           (<["ir.sequence" :=
                if nonempty ids then write_from 0 ids update_data rows
                else rows ++ [d]]> (db w1))
           (ops w1 ++
              [OpSearch "ir.sequence" [("code", code)];
               if nonempty ids then OpWrite "ir.sequence" ids update_data
               else OpCreate "ir.sequence" d])
           (logs w1) (faults w1) in
       _import_sequences (PList (pre ++ PDict d :: rest)) w =
         for_records sequence_body sequence_handler rest (S n1) w2 ∧
       (NoDup d.*1 →
        ∀ i row, i ∈ ids → rows !! i = Some row →
          ∃ row',
            table "ir.sequence" (db w2) !! i = Some row' ∧
            dict_get "number_next" row' = dict_get "number_next" row ∧
            ∀ f v, f ≠ "number_next" → dict_get f d = Some v →
                   dict_get f row' = Some v)).
Proof.
  split; [intros; apply number_next_kept_sequences|]. split.
  { intros d code n w Hc Hf ids rows update_data w'.
    pose proof (number_next_kept_sequence_body (PDict d) n w) as Hk.
    subst w'. rewrite (sequence_body_run d code n w Hc Hf) in *.
    cbv zeta in *. fold ids. fold ids in Hk. destruct (nonempty ids).
    - fold update_data. fold update_data in Hk.
      split; [|split; [apply dict_get_pop | split; [intros; by apply dict_get_pop_ne|]]].
      + rewrite bind_run. unfold env_write, orm_call. simpl.
        destruct (faults w (db w) (OpWrite _ _ _)); simpl; by rewrite <- app_assoc.
      + split; [exact Hk|]. intros Hw.
        rewrite bind_run, env_write_run by done. simpl.
        split; [done|]. by rewrite table_insert.
    - split.
      + rewrite bind_run. unfold env_create, orm_call. simpl.
        destruct (faults w (db w) (OpCreate _ _)); simpl; by rewrite <- app_assoc.
      + intros Hw. rewrite bind_run, env_create_run by done. simpl.
        split; [done|]. rewrite table_insert. split; [done|].
        by rewrite last_snoc. }
  intros pre d rest code w Hpre Hc Hf.
  destruct (sequences_reach pre 0 w Hpre) as (n1 & w1 & Hr & Hfa).
  assert (faultless w1) as Hf1 by (intros ??; by rewrite Hfa).
  exists n1, w1. split; [exact Hr|]. cbv zeta. split.
  - change (_import_sequences (PList (pre ++ PDict d :: rest)) w)
      with (for_records sequence_body sequence_handler (pre ++ PDict d :: rest) 0 w).
    rewrite for_records_app, Hr. cbn [for_records].
    rewrite bind_run, try_except_run, (sequence_body_run d code n1 w1 Hc)
      by apply Hf1.
    cbv zeta. destruct (nonempty (find_by "ir.sequence" "code" code (db w1))).
    + rewrite bind_run, env_write_run by apply Hf1. cbv beta iota. mret.
      cbn [fs db ops logs faults]. by rewrite <- app_assoc.
    + rewrite bind_run, env_create_run by apply Hf1. cbv beta iota. mret.
      cbn [fs db ops logs faults]. by rewrite <- app_assoc.
  - intros Hnd i row Hi Hrow. cbn [db]. rewrite table_insert.
    assert (nonempty (find_by "ir.sequence" "code" code (db w1)) = true) as ->
      by (by destruct (find_by _ _ _ _); [apply elem_of_nil in Hi|]).
    rewrite write_from_lookup, Hrow. cbn [fmap option_fmap option_map].
    rewrite bool_decide_eq_true_2 by done.
    eexists. split; [reflexivity|]. split.
    + apply dict_get_update, dict_get_pop.
    + intros f v Hne Hv. apply dict_get_update_in; [by apply dict_pop_keys|].
      by rewrite dict_get_pop_ne.
Qed.

(** ** UserGroup *)

Lemma only_logged_user_group_handler x e :
  preserves only_logged (user_group_handler x e).
Proof. unfold user_group_handler. preserves_auto. Qed.

(** One record: the groups are extended by as many minimal groups as the
    counter has grown by, none when the record raises. *)
Lemma user_group_body_spec x n w :
  ∃ new,
    table "res.groups" (db (user_group_body x n w).2) =
      table "res.groups" (db w) ++ new ∧
    Forall (λ row, ∃ name, row = [("name", name)]) new ∧
    match (user_group_body x n w).1 with
    | Ok n' => n' = n + length new
    | Raise _ => new = []
    end.
Proof.
  assert (∀ w' : world, db w' = db w →
            table "res.groups" (db w') = table "res.groups" (db w) ++ []) as Hnil
    by (intros w' ->; by rewrite app_nil_r).
  unfold user_group_body.
  destruct x as [| | | | |d]; try (by exists []; simpl; rewrite app_nil_r).
  simpl py_getitem. destruct (dict_get "name" d) as [name|]; mret;
    [|by exists []; simpl; rewrite app_nil_r].
  rewrite bind_run. unfold env_search, orm_call.
  destruct (faults w (db w) (OpSearch _ _)); [by exists []; simpl; rewrite app_nil_r|].
  mred. destruct (search_from 0 _ _) as [|i ids]; mred.
  - mret. rewrite bind_run. unfold env_create, orm_call. simpl.
    destruct (faults w (db w) (OpCreate _ _)); simpl.
    + by exists []; rewrite app_nil_r.
    + exists [[("name", name)]]. rewrite table_insert. repeat split.
      * repeat constructor. by exists name.
      * simpl. lia.
  - exists []. simpl. rewrite app_nil_r. repeat split; [constructor | lia].
Qed.

Lemma user_groups_loop_spec items : ∀ n w,
  ∃ new,
    table "res.groups"
      (db (for_records user_group_body user_group_handler items n w).2) =
      table "res.groups" (db w) ++ new ∧
    Forall (λ row, ∃ name, row = [("name", name)]) new ∧
    match (for_records user_group_body user_group_handler items n w).1 with
    | Ok n' => n' = n + length new
    | Raise _ => True
    end.
Proof.
  induction items as [|x rest IH]; intros n w.
  - exists []. simpl. rewrite app_nil_r. repeat split; [constructor | lia].
  - simpl for_records. rewrite bind_run, try_except_run.
    destruct (user_group_body_spec x n w) as (new & Ht & Hm & Hr).
    destruct (user_group_body x n w) as [[n'|e] w1]; simpl in Ht, Hr.
    + destruct (IH n' w1) as (new' & Ht' & Hm' & Hr').
      exists (new ++ new'). rewrite Ht', Ht, app_assoc.
      split; [done|]. split; [by apply Forall_app|].
      destruct (for_records _ _ _ _ _).1; [|done].
      rewrite length_app. lia.
    + subst new. rewrite app_nil_r in Ht. rewrite bind_run.
      pose proof (only_logged_user_group_handler x e w1) as (_ & Hd & _).
      destruct (user_group_handler x e w1) as [[[]|e'] w2]; simpl in Hd.
      * cbv beta iota delta [ret].
        destruct (IH n w2) as (new' & Ht' & Hm' & Hr').
        exists new'. by rewrite Ht', Hd, Ht.
      * exists []. simpl. rewrite app_nil_r, Hd, Ht.
        repeat split. constructor.
Qed.

(** What [config_param_body] does with a record that has a [key] and a
    [value], once the search has gone through. *)
Lemma config_param_body_run d k v n w :
  dict_get "key" d = Some k →
  dict_get "value" d = Some v →
  faults w (db w) (OpSearch "ir.config_parameter" [("key", k)]) = None →
  config_param_body (PDict d) n w =
    let w1 := World (fs w) (db w)
                (ops w ++ [OpSearch "ir.config_parameter" [("key", k)]])
                (logs w) (faults w) in
    let ids := find_by "ir.config_parameter" "key" k (db w) in
    if nonempty ids then
      (do _ <- env_write "ir.config_parameter" ids (PDict [("value", v)]);
       ret (S n)) w1
    else
      (do _ <- env_create "ir.config_parameter" (PDict [("key", k); ("value", v)]);
       ret (S n)) w1.
Proof.
  intros Hk Hv Hf. unfold config_param_body. simpl py_getitem.
  rewrite Hk, Hv. mret.
  rewrite bind_run, env_search_run by done. cbv beta iota zeta.
  unfold find_by. destruct (nonempty _); mret.
  - rewrite !bind_run. by destruct (env_write _ _ _ _) as [[?|?] ?].
  - rewrite !bind_run. by destruct (env_create _ _ _) as [[?|?] ?].
Qed.

Lemma external_id_body_run d m name n w :
  dict_get "module" d = Some m →
  dict_get "name" d = Some name →
  faults w (db w) (OpSearch "ir.model.data" [("module", m); ("name", name)]) = None →
  external_id_body (PDict d) n w =
    let w1 := World (fs w) (db w)
                (ops w ++ [OpSearch "ir.model.data" [("module", m); ("name", name)]])
                (logs w) (faults w) in
    let ids := search_from 0 [("module", m); ("name", name)]
                 (table "ir.model.data" (db w)) in
    if nonempty ids then
      (do _ <- env_write "ir.model.data" ids (PDict d); ret (S n)) w1
    else
      (do _ <- env_create "ir.model.data" (PDict d); ret (S n)) w1.
Proof.
  intros Hm Hn Hf. unfold external_id_body. simpl py_getitem.
  rewrite Hm, Hn. mret.
  rewrite bind_run, env_search_run by done. cbv beta iota zeta.
  destruct (nonempty _); [reflexivity|].
  rewrite !bind_run. by destruct (env_create _ _ _) as [[?|?] ?].
Qed.


(** ** ConfigParameter: the rule on the collection *)

Lemma search_from_ge i domain rows j : j ∈ search_from i domain rows → i ≤ j.
Proof.
  revert i. induction rows as [|r rows IH]; intros i; simpl; [by intros ?%elem_of_nil|].
  destruct (matches domain r).
  - intros [->|H]%elem_of_cons; [lia|]. apply IH in H. lia.
  - intros H. apply IH in H. lia.
Qed.

Lemma nonempty_search_from i domain rows :
  nonempty (search_from i domain rows) = existsb (matches domain) rows.
Proof.
  revert i. induction rows as [|r rows IH]; intros i; simpl; [done|].
  destruct (matches domain r); [done | apply IH].
Qed.

Lemma write_from_ids i ids domain vals rows :
  (∀ j, i ≤ j → j ∈ ids ↔ j ∈ search_from i domain rows) →
  write_from i ids vals rows =
    (λ r, if matches domain r then dict_update r vals else r) <$> rows.
Proof.
  revert i. induction rows as [|r rows IH]; intros i H; simpl; [done|].
  f_equal.
  - specialize (H i (Nat.le_refl i)). simpl in H.
    destruct (matches domain r).
    + rewrite bool_decide_eq_true_2; [done|]. apply H. by left.
    + rewrite bool_decide_eq_false_2; [done|].
      intros Hi%H. apply search_from_ge in Hi. lia.
  - apply IH. intros j Hj. rewrite (H j) by lia. simpl.
    destruct (matches domain r); [|done].
    rewrite elem_of_cons. split; [intros [->|?]; [lia|done] | by right].
Qed.

Lemma write_from_search domain vals rows :
  write_from 0 (search_from 0 domain rows) vals rows =
    (λ r, if matches domain r then dict_update r vals else r) <$> rows.
Proof. by apply write_from_ids. Qed.

Lemma matches_key k row : matches [("key", k)] row = has_key k row.
Proof. unfold matches, has_key. simpl. by rewrite andb_true_r. Qed.

(** On the collection, the search and the write or create of
    [config_param_body] are the rule [upsert_param]. *)
Lemma upsert_param_write k v rows :
  existsb (has_key k) rows = true →
  write_from 0 (search_from 0 [("key", k)] rows) [("value", v)] rows =
    upsert_param (k, v) rows.
Proof.
  intros H. unfold upsert_param. simpl. rewrite H, write_from_search.
  apply list_fmap_ext. intros _ row _. unfold set_value.
  by rewrite matches_key.
Qed.

Lemma nonempty_find_key k d :
  nonempty (find_by "ir.config_parameter" "key" k d) =
    existsb (has_key k) (table "ir.config_parameter" d).
Proof.
  unfold find_by. rewrite nonempty_search_from.
  induction (table _ d) as [|r rows IH]; [done|].
  cbn [existsb]. by rewrite matches_key, IH.
Qed.

Lemma has_key_set_value k' k v row : has_key k' (set_value k v row) = has_key k' row.
Proof.
  unfold set_value, has_key. destruct (bool_decide (dict_get "key" row = Some k)); [|done].
  by rewrite dict_get_set_ne.
Qed.

Lemma existsb_set_value k' k v rows :
  existsb (has_key k') (set_value k v <$> rows) = existsb (has_key k') rows.
Proof.
  induction rows as [|r rows IH]; [done|].
  rewrite fmap_cons. cbn [existsb]. by rewrite has_key_set_value, IH.
Qed.

Lemma existsb_upsert_param k' kv rows :
  existsb (has_key k') rows = true →
  existsb (has_key k') (upsert_param kv rows) = true.
Proof.
  intros H. unfold upsert_param. destruct (existsb (has_key kv.1) rows).
  - by rewrite existsb_set_value.
  - by rewrite existsb_app, H.
Qed.

Lemma existsb_upsert_param_self k v rows :
  existsb (has_key k) (upsert_param (k, v) rows) = true.
Proof.
  unfold upsert_param. simpl. destruct (existsb (has_key k) rows) eqn:E.
  - by rewrite existsb_set_value.
  - rewrite existsb_app. simpl. unfold has_key at 2. simpl.
    rewrite bool_decide_eq_true_2 by done. by rewrite orb_true_r.
Qed.

Lemma last_value_snoc pairs k v k' :
  last_value (pairs ++ [(k, v)]) k' =
    if decide (k = k') then Some v else last_value pairs k'.
Proof. unfold last_value. by rewrite foldl_snoc. Qed.

Lemma upsert_params_snoc pairs kv rows :
  upsert_params (pairs ++ [kv]) rows = upsert_param kv (upsert_params pairs rows).
Proof. unfold upsert_params. by rewrite foldl_snoc. Qed.

Lemma settled_set_value pairs k v row :
  settled pairs row → settled (pairs ++ [(k, v)]) (set_value k v row).
Proof.
  intros Hs k' v' Hk Hl. rewrite last_value_snoc in Hl.
  unfold set_value, has_key in *.
  destruct (decide (dict_get "key" row = Some k)) as [E|E].
  - rewrite bool_decide_eq_true_2 in Hk |- * by done.
    rewrite dict_get_set_ne in Hk by done.
    assert (k' = k) as -> by congruence.
    rewrite decide_True in Hl by done. injection Hl as <-.
    apply dict_get_set.
  - rewrite bool_decide_eq_false_2 in Hk |- * by done.
    destruct (decide (k = k')) as [->|]; [done|]. by apply (Hs k').
Qed.

(** After the rule has been applied to the pairs of a list, every
    parameter has the value the list gives its key last, and every key of
    the list is there. *)
Lemma upsert_params_settled pairs rows :
  Forall (settled pairs) (upsert_params pairs rows) ∧
  Forall (λ kv, existsb (has_key kv.1) (upsert_params pairs rows) = true) pairs.
Proof.
  induction pairs as [|[k v] pairs [IH1 IH2]] using rev_ind.
  - split; [|constructor]. apply Forall_forall. intros row _ k v _ Hl. discriminate.
  - rewrite upsert_params_snoc. split.
    + unfold upsert_param. simpl.
      destruct (existsb (has_key k) (upsert_params pairs rows)) eqn:E.
      * apply Forall_fmap. eapply Forall_impl; [exact IH1|].
        intros row Hs. by apply settled_set_value.
      * apply Forall_app. split.
        -- rewrite Forall_forall in IH1 |- *. intros row Hin.
           pose proof (settled_set_value pairs k v row (IH1 row Hin)) as H.
           unfold set_value in H.
           assert (has_key k row = false) as Hk.
           { apply not_true_is_false. intros Hk.
             assert (existsb (has_key k) (upsert_params pairs rows) = true);
               [|congruence].
             apply existsb_exists. exists row. split; [|done].
             by apply list_elem_of_In. }
           by rewrite Hk in H.
        -- apply Forall_singleton. intros k' v' Hk Hl.
           rewrite last_value_snoc in Hl. simpl in Hk. injection Hk as <-.
           rewrite decide_True in Hl by done. by injection Hl as <-.
    + apply Forall_app. split.
      * eapply Forall_impl; [exact IH2|]. intros kv H.
        by apply existsb_upsert_param.
      * apply Forall_singleton. apply existsb_upsert_param_self.
Qed.

(** When every key of the list is there, the rule only overwrites values. *)
Lemma upsert_params_overwrite pairs : ∀ rows,
  Forall (λ kv, existsb (has_key kv.1) rows = true) pairs →
  upsert_params pairs rows =
    (λ row, foldl (λ r kv, set_value kv.1 kv.2 r) row pairs) <$> rows.
Proof.
  induction pairs as [|[k v] pairs IH]; intros rows H.
  - simpl. by rewrite list_fmap_id.
  - apply Forall_cons in H as [Hk H]. simpl in Hk.
    change (upsert_params ((k, v) :: pairs) rows)
      with (upsert_params pairs (upsert_param (k, v) rows)).
    rewrite IH.
    + unfold upsert_param. simpl. rewrite Hk.
      rewrite <- list_fmap_compose. by apply list_fmap_ext.
    + eapply Forall_impl; [exact H|]. intros kv Hkv.
      by apply existsb_upsert_param.
Qed.

Lemma overwrite_row pairs row :
  foldl (λ r kv, set_value kv.1 kv.2 r) row pairs =
    match dict_get "key" row with
    | Some k =>
        match last_value pairs k with
        | Some v => dict_set "value" v row
        | None => row
        end
    | None => row
    end.
Proof.
  induction pairs as [|[k v] pairs IH] using rev_ind.
  - simpl. by destruct (dict_get "key" row).
  - rewrite foldl_snoc, IH. simpl. unfold set_value, has_key.
    destruct (dict_get "key" row) as [k0|] eqn:Hk0.
    + rewrite last_value_snoc.
      assert (dict_get "key" (match last_value pairs k0 with
                              | Some v0 => dict_set "value" v0 row
                              | None => row
                              end) = Some k0) as Hk.
      { destruct (last_value pairs k0); [by rewrite dict_get_set_ne | done]. }
      rewrite Hk. destruct (decide (k = k0)) as [->|Hne].
      * rewrite bool_decide_eq_true_2 by done.
        destruct (last_value pairs k0); [apply dict_set_set | done].
      * rewrite bool_decide_eq_false_2 by congruence. done.
    + rewrite Hk0. by rewrite bool_decide_eq_false_2.
Qed.

Lemma overwrite_settled pairs row :
  settled pairs row → foldl (λ r kv, set_value kv.1 kv.2 r) row pairs = row.
Proof.
  intros Hs. rewrite overwrite_row.
  destruct (dict_get "key" row) as [k|] eqn:Hk; [|done].
  destruct (last_value pairs k) as [v|] eqn:Hl; [|done].
  apply dict_set_same. by apply (Hs k).
Qed.

(** The rule is idempotent on the collection. *)
Lemma upsert_params_idempotent pairs rows :
  upsert_params pairs (upsert_params pairs rows) = upsert_params pairs rows.
Proof.
  destruct (upsert_params_settled pairs rows) as [Hs Hk].
  rewrite upsert_params_overwrite by done.
  rewrite <- (list_fmap_id (upsert_params pairs rows)) at 2.
  apply Forall_fmap_ext_1. eapply Forall_impl; [exact Hs|].
  intros row H. by apply overwrite_settled.
Qed.

(** ** ConfigParameter: the import method *)

Lemma foldl_upsert_db pairs : ∀ d,
  foldl upsert_db d pairs =
    match pairs with
    | [] => d
    | _ => <["ir.config_parameter" :=
               upsert_params pairs (table "ir.config_parameter" d)]> d
    end.
Proof.
  induction pairs as [|kv pairs IH]; intros d; [done|].
  simpl. rewrite IH. destruct pairs as [|kv' pairs]; [done|].
  unfold upsert_db. rewrite table_insert, insert_insert_eq. done.
Qed.

Lemma upsert_db_idempotent pairs d :
  foldl upsert_db (foldl upsert_db d pairs) pairs = foldl upsert_db d pairs.
Proof.
  rewrite !foldl_upsert_db. destruct pairs as [|kv pairs]; [done|].
  by rewrite table_insert, insert_insert_eq, upsert_params_idempotent.
Qed.

Lemma py_iter_pure v :
  (∃ items, ∀ w, py_iter v w = (Ok items, w)) ∨
  (∃ e, ∀ w, py_iter v w = (Raise e, w)).
Proof. destruct v; simpl; eauto. Qed.

(** One round of the loop on a mapping, against an environment that
    refuses no call. *)
Lemma config_param_round d n w :
  faultless w →
  ∃ w',
    try_except (config_param_body (PDict d) n)
      (λ e, config_param_handler (PDict d) e ;; ret n) w =
      (Ok (n + length (effective [PDict d])), w') ∧
    faults w' = faults w ∧
    db w' = foldl upsert_db (db w) (effective [PDict d]) ∧
    (Forall (λ kv, existsb (has_key kv.1) (table "ir.config_parameter" (db w)) = true)
       (effective [PDict d]) →
     calls (λ o, is_create o = false) w w').
Proof.
  intros Hf. rewrite try_except_run. simpl effective.
  destruct (dict_get "key" d) as [k|] eqn:Hk.
  - destruct (dict_get "value" d) as [v|] eqn:Hv.
    + rewrite (config_param_body_run d k v n w Hk Hv) by apply Hf. cbv zeta.
      rewrite nonempty_find_key.
      destruct (existsb (has_key k) (table "ir.config_parameter" (db w))) eqn:E.
      * rewrite bind_run, env_write_run by apply Hf. cbv beta iota.
        eexists. split; [simpl; f_equal; f_equal; lia|]. simpl. repeat split.
        -- unfold upsert_db, find_by. by rewrite upsert_param_write.
        -- intros _. eexists [_; _]. simpl. rewrite <- app_assoc.
           split; [done|]. by repeat constructor.
      * rewrite bind_run, env_create_run by apply Hf. cbv beta iota.
        eexists. split; [simpl; f_equal; f_equal; lia|]. simpl. repeat split.
        -- unfold upsert_db, upsert_param. simpl. by rewrite E.
        -- intros [H _]%Forall_cons. simpl in H. congruence.
    + unfold config_param_body. simpl py_getitem. rewrite Hk, Hv. mret.
      rewrite bind_run, env_search_run by apply Hf. cbv beta iota.
      assert (∀ ids w1,
                ((if nonempty ids
                  then do value <- raise (KeyError "value");
                       env_write "ir.config_parameter" ids (PDict [("value", value)])
                  else do value <- raise (KeyError "value");
                       do _ <- env_create "ir.config_parameter"
                                 (PDict [("key", k); ("value", value)]);
                       ret ());; ret (S n)) w1 = (Raise (KeyError "value"), w1)) as ->
        by (by intros [|??] ?).
      unfold config_param_handler. simpl py_get. rewrite Hk.
      simpl length. rewrite Nat.add_0_r.
      eexists. split; [reflexivity|]. simpl. repeat split.
      intros _. exists [OpSearch "ir.config_parameter" [("key", k)]].
      split; [done | by repeat constructor].
  - unfold config_param_body, config_param_handler. simpl py_getitem. simpl py_get.
    rewrite Hk. simpl length. rewrite Nat.add_0_r.
    eexists. split; [reflexivity|]. simpl. repeat split.
    intros _. exists []. simpl. by rewrite app_nil_r.
Qed.

Lemma config_param_round_abort x n w :
  ¬ is_dict x →
  ∃ e, try_except (config_param_body x n)
         (λ e, config_param_handler x e ;; ret n) w = (Raise e, w).
Proof.
  intros H.
  exists (AttributeError ("'" +:+ type_name x +:+ "' object has no attribute 'get'")).
  destruct x; try reflexivity. by destruct H.
Qed.

Lemma effective_cons_dict d rest :
  effective (PDict d :: rest) = effective [PDict d] ++ effective rest.
Proof.
  simpl. destruct (dict_get "key" d); [|done]. by destruct (dict_get "value" d).
Qed.

Lemma config_params_loop items : ∀ n w,
  faultless w →
  faults (for_records config_param_body config_param_handler items n w).2 = faults w ∧
  db (for_records config_param_body config_param_handler items n w).2 =
    foldl upsert_db (db w) (effective items) ∧
  (Forall (λ kv, existsb (has_key kv.1) (table "ir.config_parameter" (db w)) = true)
     (effective items) →
   calls (λ o, is_create o = false) w
     (for_records config_param_body config_param_handler items n w).2).
Proof.
  induction items as [|x rest IH]; intros n w Hf.
  - simpl. repeat split. intros _. reflexivity.
  - simpl for_records. rewrite bind_run.
    destruct (decide (is_dict x)) as [Hx|Hx].
    + destruct x as [| | | | |d]; try done.
      destruct (config_param_round d n w Hf) as (w1 & -> & Hfa & Hdb & Hc).
      assert (faultless w1) as Hf1 by (intros ??; by rewrite Hfa).
      destruct (IH (n + length (effective [PDict d])) w1 Hf1) as (Hfa' & Hdb' & Hc').
      rewrite (effective_cons_dict d rest), foldl_app, <- Hdb.
      split; [congruence|]. split; [done|].
      intros [H1 H2]%Forall_app. etransitivity; [by apply Hc|]. apply Hc'.
      eapply Forall_impl; [exact H2|]. intros kv Hkv. rewrite Hdb.
      clear -Hkv. induction (effective [PDict d]) as [|kv' l IHl] using rev_ind;
        [done|].
      rewrite foldl_snoc. unfold upsert_db at 1. rewrite table_insert.
      by apply existsb_upsert_param.
    + destruct (config_param_round_abort x n w Hx) as [e ->].
      assert (effective (x :: rest) = []) as -> by (by destruct x; try done; destruct Hx).
      simpl. repeat split. intros _. reflexivity.
Qed.

Lemma config_params_count items : ∀ n w,
  faultless w → Forall is_dict items →
  (for_records config_param_body config_param_handler items n w).1 =
    Ok (n + length (effective items)).
Proof.
  induction items as [|x rest IH]; intros n w Hf Hd.
  - simpl. by rewrite Nat.add_0_r.
  - apply Forall_cons in Hd as [Hx Hd]. destruct x as [| | | | |d]; try done.
    cbn [for_records]. rewrite bind_run.
    destruct (config_param_round d n w Hf) as (w' & -> & Hfa & _).
    cbv beta iota. rewrite IH; [| by intros ??; rewrite Hfa | done].
    rewrite (effective_cons_dict d rest), length_app. f_equal. lia.
Qed.

(** C7. ConfigParameter reconciliation is an idempotent upsert. For a
    record with a [key] and a [value], against an environment that refuses
    no call: when a live parameter has the key, the value of every such
    parameter is overwritten and nothing else changes; otherwise one
    parameter is added, with that key and value; the record is counted
    either way. [_import_config_params] applies this rule to the records of
    the document one after the other: the parameters it leaves are those it
    found with the rule [upsert_param] applied for each record that has a
    [key] and a [value], in the order of the document; no other collection
    changes, and on a list of mappings the count is the number of those
    records. Importing a document and then the same document again leaves
    the records exactly as the first import left them, and the second import
    makes no [create] call. *)
Theorem config_params_idempotent_upsert (w : world) :
  faultless w →
  (∀ d k v n,
     dict_get "key" d = Some k → dict_get "value" d = Some v →
     let rows := table "ir.config_parameter" (db w) in
     let r := config_param_body (PDict d) n w in
     r.1 = Ok (S n) ∧
     table "ir.config_parameter" (db r.2) =
       if existsb (has_key k) rows
       then (λ row, if has_key k row then dict_set "value" v row else row) <$> rows
       else rows ++ [[("key", k); ("value", v)]]) ∧
  (∀ params_data,
     let w1 := (_import_config_params params_data w).2 in
     let w2 := (_import_config_params params_data w1).2 in
     db w2 = db w1 ∧
     ∃ o, ops w2 = ops w1 ++ o ∧ Forall (λ c, is_create c = false) o) ∧
  (∀ items,
     let run := _import_config_params (PList items) w in
     table "ir.config_parameter" (db run.2) =
       upsert_params (effective items) (table "ir.config_parameter" (db w)) ∧
     (∀ model, model ≠ "ir.config_parameter" →
               table model (db run.2) = table model (db w)) ∧
     (Forall is_dict items → run.1 = Ok (length (effective items)))).
Proof.
  intros Hf. split; [|split].
  - intros d k v n Hk Hv rows r.
    destruct (config_param_round d n w Hf) as (w' & Hr & _ & Hdb & _).
    rewrite try_except_run in Hr. subst r.
    assert (effective [PDict d] = [(k, v)]) as E by (simpl; by rewrite Hk, Hv).
    rewrite E in *.
    destruct (config_param_body (PDict d) n w) as [[n'|e] w1] eqn:Hb.
    + injection Hr as -> ->. simpl. split; [f_equal; lia|].
      rewrite Hdb. simpl. unfold upsert_db. by rewrite table_insert.
    + exfalso. clear -Hr.
      unfold config_param_handler in Hr. simpl py_get in Hr.
      cbv [bind ret log] in Hr. injection Hr as Hr _. simpl in Hr. lia.
  - intros params_data w1 w2. subst w1 w2. unfold _import_config_params.
    destruct (py_iter_pure params_data) as [[items Hi]|[e Hi]];
      repeat (rewrite bind_run, Hi; cbv beta iota).
    + destruct (config_params_loop items 0 w Hf) as (Hfa & Hdb & _).
      set (w1 := (for_records config_param_body config_param_handler items 0 w).2) in *.
      assert (faultless w1) as Hf1 by (intros ??; by rewrite Hfa).
      destruct (config_params_loop items 0 w1 Hf1) as (_ & Hdb' & Hc).
      split.
      * rewrite Hdb', Hdb. apply upsert_db_idempotent.
      * apply Hc. rewrite Hdb, foldl_upsert_db.
        destruct (effective items) as [|kv pairs] eqn:E; [constructor|].
        rewrite table_insert. apply upsert_params_settled.
    + simpl. split; [done|]. exists []. by rewrite app_nil_r.
  - intros items run. subst run.
    change (_import_config_params (PList items) w)
      with (for_records config_param_body config_param_handler items 0 w).
    destruct (config_params_loop items 0 w Hf) as (_ & -> & _).
    rewrite foldl_upsert_db. split; [|split].
    + destruct (effective items) as [|kv pairs]; [done|]. by rewrite table_insert.
    + intros model Hm. destruct (effective items) as [|kv pairs]; [done|].
      by rewrite table_insert_ne.
    + intros Hd. by rewrite (config_params_count items 0 w Hf Hd).
Qed.

(** ** Record-level faults *)

Lemma method_of_list t items w :
  method_of t (PList items) w = for_records (body_of t) (handler_of t) items 0 w.
Proof. by destruct t. Qed.

(** On a mapping, the handlers only log. *)
Lemma handler_of_dict t x e w :
  is_dict x → ∃ w', handler_of t x e w = (Ok tt, w').
Proof.
  intros H. destruct x; try done. destruct t; eexists; reflexivity.
Qed.

Lemma body_of_counts t x n :
  returns (λ n', n' = n ∨ n' = S n) (body_of t x n).
Proof.
  destruct t; simpl;
    [ unfold config_param_body | unfold user_group_body | unfold sequence_body
    | unfold module_state_body | unfold external_id_body ];
    repeat returns_step; auto.
Qed.

Lemma body_of_upserts t x n :
  upserts t = true → returns (λ n', n' = S n) (body_of t x n).
Proof.
  destruct t; try discriminate; intros _; simpl;
    [ unfold config_param_body | unfold sequence_body | unfold external_id_body ];
    repeat returns_step; auto.
Qed.

(** On a list of mappings the loop runs to its end: it is [try_all]. *)
Lemma for_records_try_all body handler items : ∀ t,
  (∀ x e w, is_dict x → ∃ w', handler x e w = (Ok tt, w')) →
  Forall is_dict items →
  for_records body handler items (counted t) (final t) =
    (Ok (counted (try_all body handler items t)),
     final (try_all body handler items t)).
Proof.
  induction items as [|x rest IH]; intros t Hh Hd; [done|].
  apply Forall_cons in Hd as [Hx Hd]. simpl.
  rewrite bind_run, try_except_run.
  destruct (body x (counted t) (final t)) as [[n'|e] w1].
  - destruct (decide (n' = counted t)) as [->|]; by rewrite <- IH.
  - rewrite bind_run. destruct (Hh x e w1 Hx) as [w2 Hw2]. rewrite Hw2.
    cbv beta iota delta [ret]. by rewrite <- IH.
Qed.

Lemma try_all_accounts body handler items : ∀ t,
  (∀ x n, returns (λ n', n' = n ∨ n' = S n) (body x n)) →
  let t' := try_all body handler items t in
  counted t' + passed_over t' + failed t' =
    counted t + passed_over t + failed t + length items.
Proof.
  induction items as [|x rest IH]; intros t Hb; simpl; [lia|].
  specialize (Hb x (counted t) (final t)) as Hx.
  destruct (body x (counted t) (final t)) as [[n'|e] w1]; simpl in Hx.
  - destruct (decide (n' = counted t)) as [->|].
    + rewrite IH by done. simpl. lia.
    + rewrite IH by done. simpl. lia.
  - rewrite IH by done. simpl. lia.
Qed.

Lemma try_all_upserts body handler items : ∀ t,
  (∀ x n, returns (λ n', n' = S n) (body x n)) →
  passed_over (try_all body handler items t) = passed_over t.
Proof.
  induction items as [|x rest IH]; intros t Hb; simpl; [done|].
  specialize (Hb x (counted t) (final t)) as Hx.
  destruct (body x (counted t) (final t)) as [[n'|e] w1]; simpl in Hx.
  - rewrite decide_False by lia. by rewrite IH.
  - by rewrite IH.
Qed.

(** C4, as amended. For every entity type and every list of mapping
    records, a record whose reconciliation raises does not end the loop: the
    loop goes on with the records that remain and the count as it was, the
    method returns, and it returns the number of records it counted. Every
    record is counted, passed over or failed; for ConfigParameter, Sequence
    and ExternalIdMapping none is passed over, so the count is the number of
    records less the failed ones; UserGroup and ModuleState also leave out
    the records they pass over (a group that exists, a module that is not
    installed in the target). *)
Theorem record_faults_do_not_abort (t : entity) (items : list pyval) (w : world) :
  Forall is_dict items →
  let tl := try_all (body_of t) (handler_of t) items (Tally 0 0 0 w) in
  method_of t (PList items) w = (Ok (counted tl), final tl) ∧
  counted tl + passed_over tl + failed tl = length items ∧
  (upserts t = true → counted tl = length items - failed tl) ∧
  (∀ x rest n w0 e w1,
     is_dict x →
     body_of t x n w0 = (Raise e, w1) →
     for_records (body_of t) (handler_of t) (x :: rest) n w0 =
       for_records (body_of t) (handler_of t) rest n (handler_of t x e w1).2).
Proof.
  intros Hd tl.
  pose proof (try_all_accounts (body_of t) (handler_of t) items (Tally 0 0 0 w)
                (body_of_counts t)) as Ha.
  simpl in Ha. fold tl in Ha.
  split; [|split; [lia | split]].
  - rewrite method_of_list.
    apply (for_records_try_all _ _ items (Tally 0 0 0 w)); [|done].
    apply handler_of_dict.
  - intros Hu.
    pose proof (try_all_upserts (body_of t) (handler_of t) items (Tally 0 0 0 w)
                  (λ x n, body_of_upserts t x n Hu)) as Hp.
    simpl in Hp. fold tl in Hp. lia.
  - intros x rest n w0 e w1 Hx Hb. simpl.
    rewrite bind_run, try_except_run, Hb, bind_run.
    destruct (handler_of_dict t x e w1 Hx) as [w2 ->]. reflexivity.
Qed.

(** C4 as the claim states it: for every entity type the count leaves out
    exactly the records that failed. It fails for UserGroup: of a record
    that names a live group and a record without [name], the second fails
    and the first is passed over, so the count is 0 and not 2 - 1. *)
Lemma count_leaves_out_more_than_failed :
  (_import_user_groups (PList sample_groups) live_target).1 = Ok 0 ∧
  failed (try_all user_group_body user_group_handler sample_groups
            (Tally 0 0 0 live_target)) = 1 ∧
  ¬ (∀ (t : entity) (items : list pyval) (w : world),
       Forall is_dict items →
       (method_of t (PList items) w).1 =
         Ok (length items -
             failed (try_all (body_of t) (handler_of t) items (Tally 0 0 0 w)))).
Proof.
  split; [by vm_compute|]. split; [by vm_compute|].
  intros H. specialize (H UserGroup sample_groups live_target).
  assert (Forall is_dict sample_groups) as Hd by (repeat constructor).
  specialize (H Hd). vm_compute in H. discriminate.
Qed.

(** ** The properties on the sample snapshots *)

Lemma manifest_gate_witness :
  fs empty_target !! ("elsewhere" +:+ "/manifest.yml") = None ∧
  (import_system_configs "elsewhere" empty_target).1 =
    Ok (ImportError "No manifest file found or invalid manifest") ∧
  only_logged empty_target (import_system_configs "elsewhere" empty_target).2.
Proof.
  split; [reflexivity|].
  apply (manifest_gate "elsewhere" empty_target). left. reflexivity.
Defined.

Lemma fixed_processing_order_witness :
  fs whole_target !! ("all" +:+ "/manifest.yml") =
    Some (YamlDoc (PDict [("total_records", PInt 8)])) ∧
  py_truthy (PDict [("total_records", PInt 8)]) = true ∧
  (import_system_configs "all" whole_target).1 =
    Ok (ImportSuccess 5 5
          [TypeResult true "ir_config_parameters" (Some 2) None None;
           TypeResult true "res_groups" (Some 0) None None;
           TypeResult true "ir_sequences" (Some 1) None None;
           TypeResult true "module_states" (Some 1) None None;
           TypeResult true "ir_model_data" (Some 1) None None]) ∧
  op_model <$> ops (import_system_configs "all" whole_target).2 =
    ["ir.config_parameter"; "ir.config_parameter"; "ir.config_parameter";
     "ir.config_parameter"; "res.groups"; "ir.sequence"; "ir.sequence";
     "ir.module.module"; "ir.module.module"; "ir.module.module";
     "ir.model.data"; "ir.model.data"].
Proof.
  split; [reflexivity|]. split; [reflexivity|].
  pose proof (proj2 (proj2 (proj2 (fixed_processing_order "all" whole_target)))
                (PDict [("total_records", PInt 8)]) eq_refl eq_refl) as H.
  cbv zeta in H.
  assert (stopped (processed_in_order "all"
                     ["ir_config_parameters"; "res_groups"; "ir_sequences";
                      "module_states"; "ir_model_data"] whole_target) = None) as Hs
    by (vm_compute; reflexivity).
  rewrite Hs in H. destruct H as [_ [Heq _]]. rewrite Heq.
  split; vm_compute; reflexivity.
Defined.

Lemma absent_document_is_skipped_witness :
  fs empty_target !! ("snap" +:+ "/" +:+ "module_states" +:+ ".yml") = None ∧
  import_loop "snap" ["module_states"; "ir_model_data"] [] 3 empty_target =
    import_loop "snap" ["ir_model_data"]
      [TypeResult true "module_states" (Some 0) (Some "File not found, skipping") None]
      3 empty_target.
Proof.
  split; [reflexivity|].
  exact (proj2 (proj2 (absent_document_is_skipped "snap" "module_states"
                         ["ir_model_data"] [] 3 empty_target eq_refl))).
Defined.

Lemma type_level_fault_halts_witness :
  let pre := ["ir_config_parameters"; "res_groups"] in
  let e := OtherError "mapping values are not allowed here" in
  let w_fault :=
    (import_config_type_body "ir_sequences" "snap"
       (run_types "snap" pre empty_target).2).2 in
  py_truthy (PDict [("odoo_version", PStr "18.0"); ("total_records", PInt 4)]) = true ∧
  import_order = pre ++ "ir_sequences" :: ["module_states"; "ir_model_data"] ∧
  Forall (λ r, success r = true) (run_types "snap" pre empty_target).1 ∧
  import_config_type_body "ir_sequences" "snap" (run_types "snap" pre empty_target).2 =
    (Raise e, w_fault) ∧
  (import_system_configs "snap" empty_target).1 =
    Ok (ImportFailed "ir_sequences" (Some "mapping values are not allowed here") 3).
Proof.
  intros pre e w_fault.
  assert (Forall (λ r, success r = true) (run_types "snap" pre empty_target).1) as Hs
    by (vm_compute; repeat constructor).
  assert (import_config_type_body "ir_sequences" "snap"
            (run_types "snap" pre empty_target).2 = (Raise e, w_fault)) as Hf
    by (vm_compute; reflexivity).
  split; [reflexivity|]. split; [reflexivity|].
  split; [exact Hs|]. split; [exact Hf|].
  rewrite (type_level_fault_halts "snap" empty_target
             (PDict [("odoo_version", PStr "18.0"); ("total_records", PInt 4)])
             pre "ir_sequences" ["module_states"; "ir_model_data"] e w_fault
             eq_refl eq_refl eq_refl Hs Hf).
  vm_compute. reflexivity.
Defined.

Lemma validate_import_path_spec_witness :
  Forall (λ f, fs bare_target !! os_path_join "bare" f = None) optional_files ∧
  validate_import_path "bare" bare_target =
    (Ok (Validation true "Import path is valid" (Some optional_files)), bare_target) ∧
  (validate_import_path "snap" bare_target).1 =
    Ok (Validation false "Required files missing: manifest.yml" None).
Proof.
  assert (Forall (λ f, fs bare_target !! os_path_join "bare" f = None) optional_files)
    as Ha by (repeat constructor).
  destruct (validate_import_path_spec "bare" bare_target) as (Hv & _ & Hall).
  split; [exact Ha|]. split.
  - rewrite Hv, (Hall Ha). reflexivity.
  - rewrite (proj1 (validate_import_path_spec "snap" bare_target)). reflexivity.
Defined.


Lemma sequence_counter_protected_witness :
  Forall is_dict [PDict snapshot_sequence] ∧
  dict_get "code" snapshot_sequence = Some (PStr "S1") ∧
  dict_get "code" fresh_sequence = Some (PStr "P1") ∧
  faultless live_target ∧
  table "ir.sequence" (db live_target) = [live_sequence] ∧
  let run :=
    _import_sequences (PList [PDict snapshot_sequence; PDict fresh_sequence])
      live_target in
  run.1 = Ok 2 ∧
  table "ir.sequence" (db run.2) =
    [[("name", PStr "Sale orders"); ("code", PStr "S1"); ("number_next", PInt 25)];
     fresh_sequence] ∧
  ops run.2 =
    [OpSearch "ir.sequence" [("code", PStr "S1")];
     OpWrite "ir.sequence" [0] [("name", PStr "Sale orders"); ("code", PStr "S1")];
     OpSearch "ir.sequence" [("code", PStr "P1")];
     OpCreate "ir.sequence" fresh_sequence].
Proof.
  assert (Forall is_dict [PDict snapshot_sequence]) as Hd by (repeat constructor).
  assert (faultless live_target) as Hf by (intros d o; reflexivity).
  split; [exact Hd|]. split; [reflexivity|]. split; [reflexivity|].
  split; [exact Hf|]. split; [reflexivity|].
  destruct (proj2 (proj2 sequence_counter_protected) [] snapshot_sequence []
              (PStr "S1") live_target (Forall_nil_2 _) eq_refl Hf)
    as (n0 & w0 & H0 & Hupdate & _).
  injection H0 as <- <-. cbv zeta in Hupdate.
  destruct (proj2 (proj2 sequence_counter_protected) [PDict snapshot_sequence]
              fresh_sequence [] (PStr "P1") live_target Hd eq_refl Hf)
    as (n1 & w1 & H1 & Hcreate & _).
  change ([] ++ [PDict snapshot_sequence]) with [PDict snapshot_sequence] in Hupdate.
  rewrite Hupdate in H1. injection H1 as <- <-. cbv zeta in Hcreate.
  change ([PDict snapshot_sequence] ++ [PDict fresh_sequence])
    with [PDict snapshot_sequence; PDict fresh_sequence] in Hcreate.
  cbv zeta. rewrite Hcreate.
  split; [reflexivity|]. split; vm_compute; reflexivity.
Defined.


Lemma config_params_idempotent_upsert_witness :
  faultless old_target ∧
  let run := _import_config_params (PList sample_params) old_target in
  run.1 = Ok 2 ∧
  table "ir.config_parameter" (db run.2) =
    [[("key", PStr "web.base.url"); ("value", PStr "http://localhost")];
     [("key", PStr "mail.catchall"); ("value", PStr "catchall")];
     [("key", PStr "database.uuid"); ("value", PStr "u-1")]] ∧
  db (_import_config_params (PList sample_params) run.2).2 = db run.2.
Proof.
  assert (faultless old_target) as Hf by (intros d o; reflexivity).
  assert (Forall is_dict sample_params) as Hd by (repeat constructor).
  split; [exact Hf|].
  destruct (config_params_idempotent_upsert old_target Hf) as (_ & Hagain & Hrule).
  destruct (Hrule sample_params) as (Ht & _ & Hn).
  cbv zeta. split; [|split].
  - rewrite (Hn Hd). reflexivity.
  - rewrite Ht. vm_compute. reflexivity.
  - exact (proj1 (Hagain (PList sample_params))).
Defined.

Lemma record_faults_do_not_abort_witness :
  Forall is_dict sample_params ∧
  _import_config_params (PList sample_params) empty_target =
    (Ok 2,
     final (try_all config_param_body config_param_handler sample_params
              (Tally 0 0 0 empty_target))) ∧
  failed (try_all config_param_body config_param_handler sample_params
            (Tally 0 0 0 empty_target)) = 1.
Proof.
  assert (Forall is_dict sample_params) as Hd by (repeat constructor).
  split; [exact Hd|]. split.
  - change (_import_config_params (PList sample_params) empty_target)
      with (method_of ConfigParameter (PList sample_params) empty_target).
    rewrite (proj1 (record_faults_do_not_abort ConfigParameter sample_params
                      empty_target Hd)).
    vm_compute. reflexivity.
  - vm_compute. reflexivity.
Defined.

(** A list item that is not a mapping is outside the theorem above: the
    handler itself raises on it, in [param_data.get], and that exception
    leaves the loop, so the records after it are not tried. *)
Remark scalar_item_ends_loop :
  _import_config_params
    (PList [PStr "web.base.url=http://localhost";
            PDict [("key", PStr "database.uuid"); ("value", PStr "u-1")]])
    empty_target =
    (Raise (AttributeError "'str' object has no attribute 'get'"), empty_target).
Proof. reflexivity. Qed.

(** * Further properties of the code *)

(** ** The run as a whole *)

Lemma total_imported_snoc rs r :
  total_imported (rs ++ [r]) = total_imported rs + default 0 (imported_records r).
Proof.
  unfold total_imported. induction rs as [|r' rs IH]; simpl; [lia|].
  rewrite IH. lia.
Qed.

Lemma import_loop_totals source_path types : ∀ results n w,
  Forall (λ r, success r = true) results →
  n = total_imported results →
  match (import_loop source_path types results n w).1 with
  | Ok (ImportSuccess _ total rs) =>
      total = total_imported rs ∧ Forall (λ r, success r = true) rs
  | _ => True
  end.
Proof.
  induction types as [|t rest IH]; intros results n w Hs Hn; [done|].
  simpl. rewrite bind_run.
  destruct (import_round_run source_path t results n w) as (r & w1 & _ & _ & ->).
  destruct (success r) eqn:E; [|done]. cbv beta iota.
  apply IH.
  - apply Forall_app. split; [done|]. by apply Forall_singleton.
  - rewrite total_imported_snoc. lia.
Qed.

(** X1. A run that succeeds reports the five entity types, a result for
    each of them and each a success, and a total that is the sum of the
    counts of those results. *)
Theorem success_reports_the_sum (source_path : string) (w : world) :
  match (import_system_configs source_path w).1 with
  | Ok (ImportSuccess k total rs) =>
      k = 5 ∧ length rs = 5 ∧
      Forall (λ r, success r = true) rs ∧
      total = total_imported rs
  | _ => True
  end.
Proof.
  rewrite import_system_configs_run.
  destruct (read_yaml _ w) as [[manifest|e] w1]; [|done].
  destruct (py_truthy manifest); [|done].
  pose proof (import_loop_result source_path import_order [] 0 w1) as H1.
  pose proof (import_loop_totals source_path import_order [] 0 w1
                (Forall_nil_2 _) eq_refl) as H2.
  destruct (import_loop source_path import_order [] 0 w1).1 as [[| |k total rs]|];
    try done.
  destruct H1 as [-> H1], H2 as [-> H2]. repeat split; [|done].
  apply (f_equal length) in H1. by rewrite length_fmap in H1.
Qed.

(** ** One entity type *)

Lemma same_setting_import_methods ctype f data :
  import_methods ctype = Some f → preserves same_setting (f data).
Proof.
  unfold import_methods. intros H. repeat case_decide; simplify_eq.
  - unfold _import_config_params, config_param_body, config_param_handler.
    preserves_auto.
  - unfold _import_sequences, sequence_body, sequence_handler. preserves_auto.
  - unfold _import_user_groups, user_group_body, user_group_handler.
    preserves_auto.
  - unfold _import_external_ids, external_id_body, external_id_handler.
    preserves_auto.
  - unfold _import_module_states, module_state_body, module_state_handler.
    preserves_auto.
Qed.

Lemma same_setting_import_config_type ctype source_path :
  preserves same_setting (_import_config_type ctype source_path).
Proof.
  unfold _import_config_type, import_config_type_body, read_yaml.
  destruct (import_methods ctype) as [f|] eqn:Hf.
  - preserves_auto. eapply same_setting_import_methods, Hf.
  - preserves_auto.
Qed.

Lemma import_config_type_shape ctype source_path :
  returns (λ r, if success r
                then is_Some (imported_records r) ∧ error r = None
                else imported_records r = None ∧ is_Some (error r))
    (_import_config_type ctype source_path).
Proof.
  unfold _import_config_type, import_config_type_body.
  repeat returns_step; simpl; eauto.
Qed.

(** X2. [_import_config_type] never raises: whatever the document and
    whatever the environment does, it returns a result for the type it was
    asked for, a success with its count or a failure with its error message.
    It leaves the files alone and calls the environment on the collection of
    that type only. *)
Theorem import_config_type_contains_faults (ctype source_path : string) (w : world) :
  ∃ r w',
    _import_config_type ctype source_path w = (Ok r, w') ∧
    config_type r = ctype ∧
    (if success r
     then is_Some (imported_records r) ∧ error r = None
     else imported_records r = None ∧ is_Some (error r)) ∧
    fs w' = fs w ∧
    ∃ o, ops w' = ops w ++ o ∧ Forall (λ c, op_model c = model_of ctype) o.
Proof.
  destruct (import_config_type_total ctype source_path w) as [r Hr].
  pose proof (import_config_type_returns ctype source_path w) as Hc.
  pose proof (import_config_type_shape ctype source_path w) as Hs.
  pose proof (same_setting_import_config_type ctype source_path w) as [Hfs _].
  pose proof (on_model_import_config_type ctype source_path w) as Ho.
  destruct (_import_config_type ctype source_path w) as [o w'].
  simpl in *. subst o. by exists r, w'.
Qed.

Lemma import_methods_empty ctype f w :
  import_methods ctype = Some f → f (PList []) w = (Ok 0, w).
Proof.
  unfold import_methods. intros H. by repeat case_decide; simplify_eq.
Qed.

Lemma import_methods_known ctype :
  ctype ∈ import_order → is_Some (import_methods ctype).
Proof.
  unfold import_order. rewrite !elem_of_cons, elem_of_nil.
  intros [->|[->|[->|[->|[->|[]]]]]]; by eexists.
Qed.

(** X3. A document that is there but holds nothing for its type, because it
    is empty, or is a mapping without the type's key, or has an empty list
    under it, is a success with zero records: no call is made on the
    environment and the world only gains the line of the log. *)
Theorem document_without_records (ctype source_path : string) (v : pyval) (w : world) :
  ctype ∈ import_order →
  fs w !! (source_path +:+ "/" +:+ ctype +:+ ".yml") = Some (YamlDoc v) →
  v = PNone ∨
  (∃ d, v = PDict d ∧ (dict_get ctype d = None ∨ dict_get ctype d = Some (PList []))) →
  _import_config_type ctype source_path w =
    (Ok (TypeResult true ctype (Some 0) None None),
     (log INFO "Successfully imported {} records for {}" [PInt 0; PStr ctype] w).2).
Proof.
  intros Hk Hdoc Hv. destruct (import_methods_known ctype Hk) as [f Hf].
  unfold _import_config_type, import_config_type_body.
  rewrite try_except_run, bind_run. unfold os_path_exists. rewrite Hdoc.
  rewrite bool_decide_eq_true_2 by eauto. change (negb true) with false.
  cbv beta iota. rewrite bind_run, (read_yaml_doc _ _ _ Hdoc).
  assert (∃ d, match v with PNone => PDict [] | _ => v end = PDict d ∧
               default (PList []) (dict_get ctype d) = PList []) as (d & -> & Hd).
  { destruct Hv as [->|(d & -> & [H|H])].
    - by exists [].
    - exists d. by rewrite H.
    - exists d. by rewrite H. }
  cbv beta iota. simpl py_get. rewrite Hd. mret. rewrite Hf.
  rewrite bind_run, (import_methods_empty ctype f _ Hf). reflexivity.
Qed.

Lemma document_without_records_witness :
  "module_states" ∈ import_order ∧
  fs hollow_target !! ("hollow" +:+ "/" +:+ "module_states" +:+ ".yml") =
    Some (YamlDoc PNone) ∧
  _import_config_type "module_states" "hollow" hollow_target =
    (Ok (TypeResult true "module_states" (Some 0) None None),
     (log INFO "Successfully imported {} records for {}"
        [PInt 0; PStr "module_states"] hollow_target).2).
Proof.
  assert ("module_states" ∈ import_order) as Hk
    by (apply (bool_decide_unpack _); vm_compute; exact I).
  split; [exact Hk|]. split; [reflexivity|].
  exact (document_without_records "module_states" "hollow" PNone hollow_target
           Hk eq_refl (or_introl eq_refl)).
Defined.

(** X4. A document whose top level is not a mapping (a list, a string, a
    number, a boolean) fails its type: the result carries the message of the
    [AttributeError] raised by [data.get], and no call is made on the
    environment. *)
Theorem document_not_a_mapping (ctype source_path : string) (v : pyval) (w : world) :
  fs w !! (source_path +:+ "/" +:+ ctype +:+ ".yml") = Some (YamlDoc v) →
  v ≠ PNone → ¬ is_dict v →
  ∃ w',
    _import_config_type ctype source_path w =
      (Ok (TypeResult false ctype None None
             (Some ("'" +:+ type_name v +:+ "' object has no attribute 'get'"))),
       w') ∧
    only_logged w w'.
Proof.
  intros Hdoc Hn Hd.
  unfold _import_config_type, import_config_type_body.
  rewrite try_except_run, bind_run. unfold os_path_exists. rewrite Hdoc.
  rewrite bool_decide_eq_true_2 by eauto. change (negb true) with false.
  cbv beta iota. rewrite bind_run, (read_yaml_doc _ _ _ Hdoc).
  destruct v; try done; try (by destruct Hd); eexists; split;
    try reflexivity; repeat split.
Qed.

(** ** Validation and import *)

Lemma document_not_a_mapping_witness :
  fs hollow_target !! ("hollow" +:+ "/" +:+ "res_groups" +:+ ".yml") =
    Some (YamlDoc (PList [PStr "Managers"])) ∧
  PList [PStr "Managers"] ≠ PNone ∧ ¬ is_dict (PList [PStr "Managers"]) ∧
  ∃ w',
    _import_config_type "res_groups" "hollow" hollow_target =
      (Ok (TypeResult false "res_groups" None None
             (Some "'list' object has no attribute 'get'")), w') ∧
    only_logged hollow_target w'.
Proof.
  assert (PList [PStr "Managers"] ≠ PNone) as Hn by discriminate.
  assert (¬ is_dict (PList [PStr "Managers"])) as Hd by (simpl; tauto).
  split; [reflexivity|]. split; [exact Hn|]. split; [exact Hd|].
  exact (document_not_a_mapping "res_groups" "hollow" (PList [PStr "Managers"])
           hollow_target eq_refl Hn Hd).
Defined.

Lemma validate_import_path_run path w :
  validate_import_path path w =
    (Ok (if bool_decide (fs w !! os_path_join path "manifest.yml" = None)
         then Validation false "Required files missing: manifest.yml" None
         else Validation true "Import path is valid"
                (Some (filter (λ f, fs w !! os_path_join path f = None)
                         optional_files))),
     w).
Proof.
  unfold validate_import_path.
  rewrite bind_run, collect_missing_run, bind_run, collect_missing_run.
  unfold required_files. rewrite filter_cons, filter_nil.
  destruct (decide (fs w !! os_path_join path "manifest.yml" = None)) as [E|E].
  - by rewrite (bool_decide_eq_true_2 (_ !! _ = None)) by done.
  - by rewrite (bool_decide_eq_false_2 (_ !! _ = None)) by done.
Qed.

Lemma os_path_join_plain path name :
  path ≠ EmptyString → ends_with_slash path = false →
  os_path_join path name = path +:+ "/" +:+ name.
Proof.
  intros Hp Hs. unfold os_path_join. rewrite bool_decide_eq_false_2 by done.
  by rewrite Hs.
Qed.

Lemma import_config_type_absent ctype source_path w :
  fs w !! (source_path +:+ "/" +:+ ctype +:+ ".yml") = None →
  _import_config_type ctype source_path w =
    (Ok (TypeResult true ctype (Some 0) (Some "File not found, skipping") None), w).
Proof.
  intros H. unfold _import_config_type, import_config_type_body.
  rewrite try_except_run, bind_run. unfold os_path_exists.
  rewrite H. reflexivity.
Qed.

(** X5. Validation and import agree on a directory named without a
    trailing slash. When validation says invalid, the import of the same
    directory does not get past the manifest: it returns a failure with an
    error message and no failed type, and touches no record. When
    validation says valid, every type whose document it lists as missing is
    skipped by the import with zero records. *)
Theorem validation_foretells_import (path : string) (w : world) (v : validation) :
  path ≠ EmptyString → ends_with_slash path = false →
  (validate_import_path path w).1 = Ok v →
  (valid v = false →
   (∃ msg, (import_system_configs path w).1 = Ok (ImportError msg)) ∧
   only_logged w (import_system_configs path w).2) ∧
  (∀ ctype missing,
     ctype ∈ import_order →
     missing_optional v = Some missing →
     ctype +:+ ".yml" ∈ missing →
     _import_config_type ctype path w =
       (Ok (TypeResult true ctype (Some 0) (Some "File not found, skipping") None),
        w)).
Proof.
  intros Hp Hs. rewrite validate_import_path_run. simpl. intros [= <-].
  rewrite (os_path_join_plain path "manifest.yml" Hp Hs).
  destruct (decide (fs w !! (path +:+ "/" +:+ "manifest.yml") = None)) as [E|E].
  - rewrite (bool_decide_eq_true_2 (_ !! _ = None)) by done. split; [|done].
    intros _. rewrite import_system_configs_run.
    change (path +:+ "/" +:+ "manifest.yml") with (path +:+ "/manifest.yml") in E.
    rewrite (read_yaml_absent _ _ E). split; [by eexists | done].
  - rewrite (bool_decide_eq_false_2 (_ !! _ = None)) by done. split; [done|].
    intros ctype missing Hk [= <-] Hin.
    apply list_elem_of_filter in Hin as [Hin _].
    rewrite (os_path_join_plain path _ Hp Hs) in Hin.
    apply import_config_type_absent.
    revert Hk Hin. unfold import_order. rewrite !elem_of_cons, elem_of_nil.
    by intros [->|[->|[->|[->|[->|[]]]]]].
Qed.

Lemma validation_foretells_import_witness :
  "bare" ≠ EmptyString ∧ ends_with_slash "bare" = false ∧
  (validate_import_path "bare" bare_target).1 =
    Ok (Validation true "Import path is valid" (Some optional_files)) ∧
  _import_config_type "ir_sequences" "bare" bare_target =
    (Ok (TypeResult true "ir_sequences" (Some 0) (Some "File not found, skipping")
           None),
     bare_target) ∧
  "snap" ≠ EmptyString ∧ ends_with_slash "snap" = false ∧
  (validate_import_path "snap" bare_target).1 =
    Ok (Validation false "Required files missing: manifest.yml" None) ∧
  (∃ msg, (import_system_configs "snap" bare_target).1 = Ok (ImportError msg)) ∧
  only_logged bare_target (import_system_configs "snap" bare_target).2.
Proof.
  assert ("bare" ≠ EmptyString) as Hp by discriminate.
  assert ("snap" ≠ EmptyString) as Hp' by discriminate.
  assert ("ir_sequences" ∈ import_order) as Hk
    by (apply (bool_decide_unpack _); vm_compute; exact I).
  assert ("ir_sequences" +:+ ".yml" ∈ optional_files) as Hin
    by (apply (bool_decide_unpack _); vm_compute; exact I).
  split; [exact Hp|]. split; [reflexivity|]. split; [reflexivity|]. split.
  { exact (proj2 (validation_foretells_import "bare" bare_target
                    (Validation true "Import path is valid" (Some optional_files))
                    Hp eq_refl eq_refl)
             "ir_sequences" optional_files Hk eq_refl Hin). }
  split; [exact Hp'|]. split; [reflexivity|]. split; [reflexivity|].
  exact (proj1 (validation_foretells_import "snap" bare_target
                  (Validation false "Required files missing: manifest.yml" None)
                  Hp' eq_refl eq_refl) eq_refl).
Defined.

(** ** ConfigFactory.import_all *)

(** X6. [import_all] hands back what the importer returns, as it is: the
    importer never raises, so the handler of [import_all] is never run, and
    the records are those the importer leaves. The line [Configuration
    import completed successfully] is logged last also when the result is a
    failure. *)
Theorem import_all_hands_back (source_path : string) (w : world) :
  let started :=
    (log INFO "Starting configuration import from: {}" [PStr source_path] w).2 in
  let run := import_system_configs source_path started in
  ∃ result,
    run.1 = Ok result ∧
    import_all source_path w =
      (Ok result,
       (log INFO "Configuration import completed successfully" [] run.2).2).
Proof.
  intros started run. subst run.
  assert (∃ result, (import_system_configs source_path started).1 = Ok result)
    as [result Hr].
  { rewrite import_system_configs_run.
    destruct (read_yaml _ started) as [[manifest|e] w1]; [|by eexists].
    destruct (py_truthy manifest); [|by eexists].
    apply import_loop_total. }
  exists result. split; [done|].
  unfold import_all, _import_ir_configs. rewrite try_except_run, bind_run.
  change (log INFO "Starting configuration import from: {}" [PStr source_path] w)
    with (Ok tt, started).
  cbv beta iota. rewrite bind_run.
  destruct (import_system_configs source_path started) as [o w1].
  simpl in Hr. subst o. reflexivity.
Qed.

(** ** Importing the same document again *)

Lemma for_records_round t x rest n w :
  for_records (body_of t) (handler_of t) (x :: rest) n w =
    match round_of t x n w with
    | (Ok n', w') => for_records (body_of t) (handler_of t) rest n' w'
    | (Raise e, w') => (Raise e, w')
    end.
Proof. reflexivity. Qed.

Lemma same_setting_body_of t x n : preserves same_setting (body_of t x n).
Proof.
  destruct t; simpl;
    [ unfold config_param_body | unfold user_group_body | unfold sequence_body
    | unfold module_state_body | unfold external_id_body ]; preserves_auto.
Qed.

Lemma same_setting_handler_of t x e : preserves same_setting (handler_of t x e).
Proof.
  destruct t; simpl;
    [ unfold config_param_handler | unfold user_group_handler
    | unfold sequence_handler | unfold module_state_handler
    | unfold external_id_handler ]; preserves_auto.
Qed.

(** A round on a mapping returns, and leaves the faults of the environment
    as they were. *)
Lemma round_of_dict t d n w :
  ∃ n' w', round_of t (PDict d) n w = (Ok n', w') ∧ faults w' = faults w.
Proof.
  unfold round_of. rewrite try_except_run.
  pose proof (same_setting_body_of t (PDict d) n w) as [_ Hp].
  destruct (body_of t (PDict d) n w) as [[n'|e] w1]; simpl in Hp.
  - by exists n', w1.
  - destruct (handler_of_dict t (PDict d) e w1 I) as [w2 Hw2].
    pose proof (same_setting_handler_of t (PDict d) e w1) as [_ Hh].
    rewrite Hw2 in Hh. simpl in Hh.
    exists n, w2. rewrite bind_run, Hw2. split; [done | congruence].
Qed.

(** A round on anything else raises, in the handler, and leaves the world
    as it was. *)
Lemma round_of_other t x n w :
  ¬ is_dict x → ∃ e, round_of t x n w = (Raise e, w).
Proof.
  intros H.
  exists (AttributeError ("'" +:+ type_name x +:+ "' object has no attribute 'get'")).
  destruct x; try (by destruct t); by destruct H.
Qed.

Lemma elem_of_search_from i domain rows j :
  j ∈ search_from i domain rows ↔
  ∃ k row, j = i + k ∧ rows !! k = Some row ∧ matches domain row = true.
Proof.
  revert i. induction rows as [|r rows IH]; intros i; simpl.
  - rewrite elem_of_nil. split; [done|]. by intros (k & row & _ & ? & _).
  - assert (j ∈ search_from (S i) domain rows ↔
            ∃ k row, j = i + S k ∧ rows !! k = Some row ∧ matches domain row = true)
      as IH'.
    { rewrite IH. split; intros (k & row & -> & ? & ?); exists k, row;
        repeat split; auto; lia. }
    destruct (matches domain r) eqn:E.
    + rewrite elem_of_cons, IH'. split.
      * intros [->|(k & row & -> & ? & ?)].
        -- exists 0, r. repeat split; auto; lia.
        -- by exists (S k), row.
      * intros ([|k] & row & -> & Hl & Hm).
        -- left. lia.
        -- right. by exists k, row.
    + rewrite IH'. split.
      * intros (k & row & -> & ? & ?). by exists (S k), row.
      * intros ([|k] & row & -> & Hl & Hm).
        -- simpl in Hl. congruence.
        -- by exists k, row.
Qed.

Lemma matches_get domain f v row :
  matches domain row = true → dict_get f domain = Some v → dict_get f row = Some v.
Proof.
  unfold matches. induction domain as [|[f' v'] domain IH]; simpl; [done|].
  intros [H1 H2]%andb_true_iff. apply bool_decide_eq_true in H1.
  destruct (decide (f' = f)) as [->|]; [by intros [= <-] | by apply IH].
Qed.

(** A write on the records found by a domain, with values that agree with the
    domain on a field, leaves that field as it was in every record. *)
Lemma field_kept_write_found model f v domain vals w :
  dict_get f domain = Some v → dict_get f vals = Some v → NoDup vals.*1 →
  field_kept model f w
    (env_write model (search_from 0 domain (table model (db w))) (PDict vals) w).2.
Proof.
  intros Hd Hv Hnd i row Hi. unfold env_write, orm_call.
  destruct (faults w (db w) _); simpl; [by exists row|].
  rewrite table_insert, write_from_lookup, Hi. simpl.
  eexists. split; [done|].
  destruct (decide (i ∈ search_from 0 domain (table model (db w)))) as [Hin|Hin].
  - rewrite bool_decide_eq_true_2 by done.
    apply elem_of_search_from in Hin as (k & row' & -> & Hk & Hm).
    simpl in Hi. assert (row' = row) as -> by congruence.
    rewrite (dict_get_update_in f v) by done. symmetry. by eapply matches_get.
  - by rewrite bool_decide_eq_false_2.
Qed.

Lemma matches_ext domain row row' :
  Forall (λ leaf, dict_get leaf.1 row' = dict_get leaf.1 row) domain →
  matches domain row' = matches domain row.
Proof.
  unfold matches. induction 1 as [|leaf domain H _ IH]; simpl; [done|].
  by rewrite H, IH.
Qed.

(** A domain stays present when each of its fields is kept. *)
Lemma present_field_kept model domain w w' :
  domain ≠ [] →
  Forall (λ leaf, field_kept model leaf.1 w w') domain →
  present model domain (db w) → present model domain (db w').
Proof.
  unfold present. intros Hne Hk Hp.
  apply existsb_exists in Hp as (row & Hin & Hm).
  apply list_elem_of_In, list_elem_of_lookup in Hin as [i Hi].
  assert (∃ row', table model (db w') !! i = Some row') as [row' Hi'].
  { destruct domain as [|leaf domain]; [done|].
    apply Forall_cons in Hk as [Hk _].
    destruct (Hk i row Hi) as (row' & ? & _). by exists row'. }
  apply existsb_exists. exists row'. split.
  - apply list_elem_of_In, list_elem_of_lookup. by exists i.
  - rewrite <- Hm. apply matches_ext.
    eapply Forall_impl; [exact Hk|]. intros leaf Hl.
    destruct (Hl i row Hi) as (row'' & Hi'' & E). congruence.
Qed.

Lemma bind_ret_world {A B} (m : M A) (b : B) w :
  (bind m (λ _, ret b) w).2 = (m w).2.
Proof. rewrite bind_run. by destruct (m w) as [[?|?] ?]. Qed.

(** After a search, what holds of the rest of the body from any world with
    the same records holds of the whole. *)
Lemma field_kept_after_search {A} model f m domain (k : list nat → M A) w :
  (∀ w1, db w1 = db w →
         field_kept model f w1 (k (search_from 0 domain (table m (db w1))) w1).2) →
  field_kept model f w (bind (env_search m domain) k w).2.
Proof.
  intros H. rewrite bind_run. unfold env_search, orm_call.
  destruct (faults w (db w) _); simpl; [by apply field_kept_same_db|].
  set (w1 := World (fs w) (db w) (ops w ++ [OpSearch m domain]) (logs w) (faults w)).
  transitivity w1; [by apply field_kept_same_db | by apply (H w1)].
Qed.

Lemma field_kept_handler_of model f t x e :
  preserves (field_kept model f) (handler_of t x e).
Proof.
  destruct t; simpl;
    [ unfold config_param_handler | unfold user_group_handler
    | unfold sequence_handler | unfold module_state_handler
    | unfold external_id_handler ]; preserves_auto.
Qed.

Lemma field_kept_sequence_body f d n w :
  f ∈ identity_fields Sequence → NoDup d.*1 →
  field_kept "ir.sequence" f w (sequence_body (PDict d) n w).2.
Proof.
  intros ->%list_elem_of_singleton Hnd. unfold sequence_body. simpl py_getitem.
  destruct (dict_get "code" d) as [code|] eqn:Hc; mret; [|reflexivity].
  apply field_kept_after_search. intros w1 _.
  destruct (nonempty _).
  - simpl py_copy. mret. simpl py_pop. mret. rewrite bind_ret_world.
    apply (field_kept_write_found "ir.sequence" "code" code).
    + reflexivity.
    + by rewrite dict_get_pop_ne.
    + by apply dict_pop_keys.
  - rewrite bind_ret_world, bind_ret_world. apply field_kept_env_create.
Qed.

Lemma field_kept_external_id_body f d n w :
  f ∈ identity_fields ExternalIdMapping → NoDup d.*1 →
  field_kept "ir.model.data" f w (external_id_body (PDict d) n w).2.
Proof.
  intros Hf Hnd. unfold external_id_body. simpl py_getitem.
  destruct (dict_get "module" d) as [m|] eqn:Hm; mret; [|reflexivity].
  destruct (dict_get "name" d) as [name|] eqn:Hn; mret; [|reflexivity].
  apply field_kept_after_search. intros w1 _.
  destruct (nonempty _).
  - rewrite bind_ret_world.
    apply elem_of_cons in Hf as [->|Hf%list_elem_of_singleton]; [|subst f].
    + by apply (field_kept_write_found "ir.model.data" "module" m).
    + by apply (field_kept_write_found "ir.model.data" "name" name).
  - rewrite bind_ret_world, bind_ret_world. apply field_kept_env_create.
Qed.

Lemma field_kept_config_param_body x n :
  preserves (field_kept "ir.config_parameter" "key") (config_param_body x n).
Proof.
  unfold config_param_body. preserves_auto.
  apply field_kept_env_write. by intros v _ [= <-].
Qed.

Lemma field_kept_user_group_body f x n :
  preserves (field_kept "res.groups" f) (user_group_body x n).
Proof. unfold user_group_body. preserves_auto. Qed.

Lemma field_kept_module_state_body f x n :
  preserves (field_kept "ir.module.module" f) (module_state_body x n).
Proof. unfold module_state_body. preserves_auto. Qed.

(** One round never changes, in a record that is there, a field by which
    its type identifies records. *)
Lemma round_keeps_identity t x n w f :
  unique_keys x → f ∈ identity_fields t →
  field_kept (collection t) f w (round_of t x n w).2.
Proof.
  intros Hu Hf. unfold round_of. rewrite try_except_run.
  assert (field_kept (collection t) f w (body_of t x n w).2) as Hb.
  { destruct x as [| | | | |d];
      try (destruct t; simpl; reflexivity).
    destruct t; simpl in *.
    - apply list_elem_of_singleton in Hf as ->. apply field_kept_config_param_body.
    - apply field_kept_user_group_body.
    - by apply field_kept_sequence_body.
    - apply field_kept_module_state_body.
    - by apply field_kept_external_id_body. }
  destruct (body_of t x n w) as [[n'|e] w1]; simpl in Hb; [done|].
  etransitivity; [exact Hb|].
  assert (preserves (field_kept (collection t) f) (handler_of t x e ;; ret n)) as Hh.
  { apply preserves_bind; [apply _ | apply field_kept_handler_of |].
    intros. apply preserves_ret. apply _. }
  apply Hh.
Qed.

Lemma key_of_fields t x domain :
  key_of t x = Some domain →
  domain ≠ [] ∧ Forall (λ leaf, leaf.1 ∈ identity_fields t) domain.
Proof.
  destruct x as [| | | | |d]; try done. destruct t; simpl.
  - destruct (dict_get "key" d), (dict_get "value" d); intros [= <-]; split;
      try done; repeat constructor.
  - destruct (dict_get "name" d); intros [= <-]; split; try done; repeat constructor.
  - destruct (dict_get "code" d); intros [= <-]; split; try done; repeat constructor.
  - destruct (dict_get "name" d); intros [= <-]; split; try done; repeat constructor.
  - destruct (dict_get "module" d), (dict_get "name" d); intros [= <-]; split;
      try done; repeat constructor; set_solver.
Qed.

(** A record that is found stays found through a round. *)
Lemma round_keeps_present t x n w y domain :
  unique_keys x → key_of t y = Some domain →
  present (collection t) domain (db w) →
  present (collection t) domain (db (round_of t x n w).2).
Proof.
  intros Hu [Hne Hf]%key_of_fields. apply present_field_kept; [done|].
  eapply Forall_impl; [exact Hf|]. intros leaf Hl.
  by apply round_keeps_identity.
Qed.

Lemma present_nonempty model domain d :
  nonempty (search_from 0 domain (table model d)) = true ↔ present model domain d.
Proof. unfold present. by rewrite nonempty_search_from. Qed.

Lemma present_snoc model domain (d : database) row :
  matches domain row = true →
  present model domain (<[model := table model d ++ [row]]> d).
Proof.
  intros H. unfold present. rewrite table_insert, existsb_app. simpl.
  by rewrite H, orb_true_r.
Qed.

Lemma user_group_body_run d name n w :
  dict_get "name" d = Some name →
  faults w (db w) (OpSearch "res.groups" [("name", name)]) = None →
  user_group_body (PDict d) n w =
    let w1 := World (fs w) (db w) (ops w ++ [OpSearch "res.groups" [("name", name)]])
                (logs w) (faults w) in
    if nonempty (search_from 0 [("name", name)] (table "res.groups" (db w)))
    then (Ok n, w1)
    else (do _ <- env_create "res.groups" (PDict [("name", name)]); ret (S n)) w1.
Proof.
  intros Hn Hf. unfold user_group_body. simpl py_getitem. rewrite Hn. mret.
  rewrite bind_run, env_search_run by done. cbv beta iota zeta.
  by destruct (nonempty _).
Qed.

(** A round, against an environment that refuses no call, leaves its record
    found, for the types that create what they do not find. *)
Lemma round_adds_present t x n w domain :
  t ≠ ModuleState → unique_keys x → faultless w →
  key_of t x = Some domain →
  present (collection t) domain (db (round_of t x n w).2).
Proof.
  intros Ht Hu Hf Hk.
  assert (present (collection t) domain (db w) ∨
          nonempty (search_from 0 domain (table (collection t) (db w))) = false)
    as [Hp|Hp].
  { unfold present. rewrite nonempty_search_from. destruct (existsb _ _); auto. }
  { by eapply round_keeps_present. }
  destruct x as [| | | | |d]; try done.
  unfold round_of. rewrite try_except_run. destruct t; simpl in *; try done.
  - destruct (dict_get "key" d) as [k|] eqn:Hk'; [|done].
    destruct (dict_get "value" d) as [v|] eqn:Hv; [|done]. injection Hk as <-.
    rewrite (config_param_body_run d k v n w Hk' Hv) by apply Hf. cbv zeta.
    unfold find_by. rewrite Hp, bind_run, env_create_run by apply Hf. simpl.
    apply present_snoc. unfold matches. simpl.
    by rewrite bool_decide_eq_true_2.
  - destruct (dict_get "name" d) as [name|] eqn:Hn; [|done]. injection Hk as <-.
    rewrite (user_group_body_run d name n w Hn) by apply Hf. cbv zeta.
    rewrite Hp, bind_run, env_create_run by apply Hf. simpl.
    apply present_snoc. unfold matches. simpl.
    by rewrite bool_decide_eq_true_2.
  - destruct (dict_get "code" d) as [code|] eqn:Hc; [|done]. injection Hk as <-.
    rewrite (sequence_body_run d code n w Hc) by apply Hf. cbv zeta.
    unfold find_by. rewrite Hp, bind_run, env_create_run by apply Hf. simpl.
    apply present_snoc. unfold matches. simpl.
    by rewrite Hc, bool_decide_eq_true_2.
  - destruct (dict_get "module" d) as [m|] eqn:Hm; [|done].
    destruct (dict_get "name" d) as [name|] eqn:Hn; [|done]. injection Hk as <-.
    rewrite (external_id_body_run d m name n w Hm Hn) by apply Hf. cbv zeta.
    rewrite Hp, bind_run, env_create_run by apply Hf. simpl.
    apply present_snoc. unfold matches. simpl.
    by rewrite Hm, Hn, !bool_decide_eq_true_2.
Qed.

Lemma calls_weaken (P Q : store_op → Prop) w w' :
  (∀ o, P o → Q o) → calls P w w' → calls Q w w'.
Proof.
  intros H (o & E & F). exists o. split; [done|]. by eapply Forall_impl.
Qed.

Lemma read_only_no_create w w' :
  read_only w w' → calls (λ o, is_create o = false) w w'.
Proof.
  intros [_ H]. eapply calls_weaken; [|exact H]. by intros [].
Qed.

Lemma only_logged_handler_of t x e : preserves only_logged (handler_of t x e).
Proof.
  destruct t; simpl;
    [ unfold config_param_handler | unfold user_group_handler
    | unfold sequence_handler | unfold module_state_handler
    | unfold external_id_handler ]; preserves_auto.
Qed.

(** A round whose body raises before any call only logs. *)
Lemma round_of_raise t x n e w :
  body_of t x n w = (Raise e, w) → only_logged w (round_of t x n w).2.
Proof.
  intros H. unfold round_of. rewrite try_except_run, H, bind_ret_world.
  apply only_logged_handler_of.
Qed.

Lemma existsb_matches_key k rows :
  existsb (matches [("key", k)]) rows = existsb (has_key k) rows.
Proof.
  induction rows as [|r rows IH]; [done|].
  cbn [existsb]. by rewrite matches_key, IH.
Qed.

(** A round on a record that is found reads and writes, and creates
    nothing; so does a round on a record without the fields to look it up. *)
Lemma round_found_no_create t x n w :
  faultless w →
  (∀ domain, key_of t x = Some domain → present (collection t) domain (db w)) →
  calls (λ o, is_create o = false) w (round_of t x n w).2.
Proof.
  intros Hf Hp.
  destruct (decide (is_dict x)) as [Hx|Hx];
    [|destruct (round_of_other t x n w Hx) as [e ->]; reflexivity].
  destruct x as [| | | | |d]; try done. destruct t; simpl in Hp.
  - destruct (config_param_round d n w Hf) as (w' & Hr & _ & _ & Hc).
    unfold round_of. simpl body_of. simpl handler_of. rewrite Hr. apply Hc.
    simpl. destruct (dict_get "key" d) as [k|]; [|constructor].
    destruct (dict_get "value" d) as [v|]; [|constructor].
    apply Forall_singleton. simpl. rewrite <- existsb_matches_key. by apply Hp.
  - apply read_only_no_create.
    destruct (dict_get "name" d) as [name|] eqn:Hn.
    + unfold round_of. rewrite try_except_run. simpl body_of.
      rewrite (user_group_body_run d name n w Hn) by apply Hf. cbv zeta.
      specialize (Hp _ eq_refl). apply present_nonempty in Hp. rewrite Hp.
      split; [done|]. eexists [_]. split; [done|]. by repeat constructor.
    + apply only_logged_read_only, (round_of_raise _ _ _ (KeyError "name")).
      simpl. unfold user_group_body. simpl py_getitem. by rewrite Hn.
  - destruct (dict_get "code" d) as [code|] eqn:Hc.
    + unfold round_of. rewrite try_except_run. simpl body_of.
      rewrite (sequence_body_run d code n w Hc) by apply Hf. cbv zeta.
      specialize (Hp _ eq_refl). apply present_nonempty in Hp.
      unfold find_by. rewrite Hp, bind_run, env_write_run by apply Hf.
      eexists [_; _]. simpl. rewrite <- app_assoc.
      split; [done|]. by repeat constructor.
    + apply only_logged_calls, (round_of_raise _ _ _ (KeyError "code")).
      simpl. unfold sequence_body. simpl py_getitem. by rewrite Hc.
  - apply read_only_no_create. unfold round_of.
    apply preserves_try_except; [apply _ | |].
    + unfold body_of, module_state_body. preserves_auto.
    + intros e. unfold handler_of, module_state_handler. preserves_auto.
  - destruct (dict_get "module" d) as [m|] eqn:Hm;
      [destruct (dict_get "name" d) as [name|] eqn:Hn|].
    + unfold round_of. rewrite try_except_run. simpl body_of.
      rewrite (external_id_body_run d m name n w Hm Hn) by apply Hf. cbv zeta.
      specialize (Hp _ eq_refl). apply present_nonempty in Hp.
      rewrite Hp, bind_run, env_write_run by apply Hf.
      eexists [_; _]. simpl. rewrite <- app_assoc.
      split; [done|]. by repeat constructor.
    + apply only_logged_calls, (round_of_raise _ _ _ (KeyError "name")).
      simpl. unfold external_id_body. simpl py_getitem. by rewrite Hm, Hn.
    + apply only_logged_calls, (round_of_raise _ _ _ (KeyError "module")).
      simpl. unfold external_id_body. simpl py_getitem. by rewrite Hm.
Qed.

Lemma round_found_group x n w :
  faultless w →
  (∀ domain, key_of UserGroup x = Some domain → present "res.groups" domain (db w)) →
  read_only w (round_of UserGroup x n w).2.
Proof.
  intros Hf Hp.
  destruct (decide (is_dict x)) as [Hx|Hx];
    [|destruct (round_of_other UserGroup x n w Hx) as [e ->]; reflexivity].
  destruct x as [| | | | |d]; try done. simpl in Hp.
  destruct (dict_get "name" d) as [name|] eqn:Hn.
  - unfold round_of. rewrite try_except_run. simpl body_of.
    rewrite (user_group_body_run d name n w Hn) by apply Hf. cbv zeta.
    specialize (Hp _ eq_refl). apply present_nonempty in Hp. rewrite Hp.
    split; [done|]. eexists [_]. split; [done|]. by repeat constructor.
  - apply only_logged_read_only, (round_of_raise _ _ _ (KeyError "name")).
    simpl. unfold user_group_body. simpl py_getitem. by rewrite Hn.
Qed.

Lemma processed_cons_dict d rest : processed (PDict d :: rest) = PDict d :: processed rest.
Proof. reflexivity. Qed.

Lemma loop_keeps_identity t items : ∀ n w f,
  Forall unique_keys items → f ∈ identity_fields t →
  field_kept (collection t) f w
    (for_records (body_of t) (handler_of t) items n w).2.
Proof.
  induction items as [|x rest IH]; intros n w f Hu Hf; [reflexivity|].
  apply Forall_cons in Hu as [Hx Hu]. rewrite for_records_round.
  pose proof (round_keeps_identity t x n w f Hx Hf) as Hr.
  destruct (round_of t x n w) as [[n'|e] w1]; simpl in Hr; [|done].
  etransitivity; [exact Hr | by apply IH].
Qed.

Lemma loop_keeps_present t items : ∀ n w y domain,
  Forall unique_keys items → key_of t y = Some domain →
  present (collection t) domain (db w) →
  present (collection t) domain
    (db (for_records (body_of t) (handler_of t) items n w).2).
Proof.
  induction items as [|x rest IH]; intros n w y domain Hu Hk Hp; [done|].
  apply Forall_cons in Hu as [Hx Hu]. rewrite for_records_round.
  pose proof (round_keeps_present t x n w y domain Hx Hk Hp) as Hr.
  destruct (round_of t x n w) as [[n'|e] w1]; simpl in Hr; [|done].
  by eapply IH.
Qed.

Lemma loop_adds_present t items : ∀ n w y domain,
  t ≠ ModuleState → faultless w → Forall unique_keys items →
  y ∈ processed items → key_of t y = Some domain →
  present (collection t) domain
    (db (for_records (body_of t) (handler_of t) items n w).2).
Proof.
  induction items as [|x rest IH]; intros n w y domain Ht Hf Hu Hy Hk;
    [by apply elem_of_nil in Hy|].
  apply Forall_cons in Hu as [Hx Hu].
  destruct x as [| | | | |d]; try (by apply elem_of_nil in Hy).
  rewrite for_records_round.
  destruct (round_of_dict t d n w) as (n' & w1 & Hr & Hfa).
  assert (faultless w1) as Hf1 by (intros ??; by rewrite Hfa).
  rewrite processed_cons_dict in Hy. apply elem_of_cons in Hy as [->|Hy].
  - pose proof (round_adds_present t (PDict d) n w domain Ht Hx Hf Hk) as Hp.
    rewrite Hr in *. by apply (loop_keeps_present t rest n' w1 (PDict d) domain).
  - rewrite Hr. by apply (IH n' w1 y domain).
Qed.

Section again.
Variables (t : entity) (R : relation world).
Context `{!PreOrder R}.
Hypothesis round_found : ∀ x n w,
  faultless w →
  (∀ domain, key_of t x = Some domain → present (collection t) domain (db w)) →
  R w (round_of t x n w).2.

Lemma loop_found items : ∀ n w,
  faultless w → Forall unique_keys items →
  (∀ y domain, y ∈ processed items → key_of t y = Some domain →
               present (collection t) domain (db w)) →
  R w (for_records (body_of t) (handler_of t) items n w).2.
Proof using All.
  induction items as [|x rest IH]; intros n w Hf Hu Hp; [reflexivity|].
  apply Forall_cons in Hu as [Hx Hu]. rewrite for_records_round.
  destruct (decide (is_dict x)) as [Hd|Hd].
  - destruct x as [| | | | |d]; try done.
    assert (R w (round_of t (PDict d) n w).2) as Hr.
    { apply round_found; [done|]. intros domain Hk.
      apply (Hp (PDict d)); [|done]. rewrite processed_cons_dict. by left. }
    pose proof (λ y domain Hk Hpy,
                  round_keeps_present t (PDict d) n w y domain Hx Hk Hpy) as Hkeep.
    destruct (round_of_dict t d n w) as (n' & w1 & Hrun & Hfa).
    rewrite Hrun in Hr, Hkeep |- *. simpl in Hr, Hkeep.
    etransitivity; [exact Hr|]. apply IH.
    + intros ??. by rewrite Hfa.
    + done.
    + intros y domain Hy Hk. apply (Hkeep y domain Hk).
      apply (Hp y); [|done]. rewrite processed_cons_dict. by right.
  - destruct (round_of_other t x n w Hd) as [e ->]. reflexivity.
Qed.

Lemma loop_again items n w :
  t ≠ ModuleState → faultless w → Forall unique_keys items →
  let w1 := (for_records (body_of t) (handler_of t) items n w).2 in
  R w1 (for_records (body_of t) (handler_of t) items n w1).2.
Proof using All.
  intros Ht Hf Hu w1. apply loop_found; [|done|].
  - assert (preserves same_setting (for_records (body_of t) (handler_of t) items n))
      as Hl.
    { apply preserves_for_records; [apply _ | |];
        intros; [apply same_setting_body_of | apply same_setting_handler_of]. }
    destruct (Hl w) as [_ Hfa]. intros ??. subst w1. by rewrite Hfa.
  - intros y domain Hy Hk. by apply (loop_adds_present t items n w y domain).
Qed.
End again.

(** X7. An import method never takes a live record away nor changes the
    field its collection is searched by: after [_import_config_params],
    [_import_user_groups], [_import_sequences], [_import_module_states] or
    [_import_external_ids] on a list of records, every record that was in the
    collection is still there under its id, with the key ([key], [name],
    [code], or [module] and [name]) it had. *)
Theorem import_keeps_identity (t : entity) (items : list pyval) (w : world)
    (f : string) :
  Forall unique_keys items → f ∈ identity_fields t →
  field_kept (collection t) f w (method_of t (PList items) w).2.
Proof.
  intros Hu Hf. rewrite method_of_list. by apply loop_keeps_identity.
Qed.

Lemma import_keeps_identity_witness :
  Forall unique_keys sample_params ∧ "key" ∈ identity_fields ConfigParameter ∧
  field_kept "ir.config_parameter" "key" old_target
    (_import_config_params (PList sample_params) old_target).2.
Proof.
  assert (Forall unique_keys sample_params) as Hu
    by (apply (bool_decide_unpack _); vm_compute; exact I).
  assert ("key" ∈ identity_fields ConfigParameter) as Hf by constructor.
  split; [exact Hu|]. split; [exact Hf|].
  exact (import_keeps_identity ConfigParameter sample_params old_target "key" Hu Hf).
Defined.

(** X8. Against an environment that refuses no call, the four import methods
    that create what they do not find leave every record they processed
    findable: a record of the list that is a mapping with its key fields,
    and comes before any item that is not a mapping, is matched by a record
    of the collection when the method is done. *)
Theorem imported_records_are_found (t : entity) (items : list pyval) (w : world)
    (y : pyval) (domain : dict) :
  t ≠ ModuleState → faultless w → Forall unique_keys items →
  y ∈ processed items → key_of t y = Some domain →
  present (collection t) domain (db (method_of t (PList items) w).2).
Proof.
  intros Ht Hf Hu Hy Hk. rewrite method_of_list.
  by apply (loop_adds_present t items 0 w y domain).
Qed.

Lemma imported_records_are_found_witness :
  Sequence ≠ ModuleState ∧ faultless empty_target ∧
  Forall unique_keys [PDict snapshot_sequence] ∧
  PDict snapshot_sequence ∈ processed [PDict snapshot_sequence] ∧
  key_of Sequence (PDict snapshot_sequence) = Some [("code", PStr "S1")] ∧
  present "ir.sequence" [("code", PStr "S1")]
    (db (_import_sequences (PList [PDict snapshot_sequence]) empty_target).2).
Proof.
  assert (Sequence ≠ ModuleState) as Ht by discriminate.
  assert (faultless empty_target) as Hf by (intros d o; reflexivity).
  assert (Forall unique_keys [PDict snapshot_sequence]) as Hu
    by (apply (bool_decide_unpack _); vm_compute; exact I).
  assert (PDict snapshot_sequence ∈ processed [PDict snapshot_sequence]) as Hy
    by (simpl; constructor).
  assert (key_of Sequence (PDict snapshot_sequence) = Some [("code", PStr "S1")])
    as Hk by reflexivity.
  split; [exact Ht|]. split; [exact Hf|]. split; [exact Hu|].
  split; [exact Hy|]. split; [exact Hk|].
  exact (imported_records_are_found Sequence [PDict snapshot_sequence] empty_target
           (PDict snapshot_sequence) [("code", PStr "S1")] Ht Hf Hu Hy Hk).
Defined.

(** X9. Importing the same list of records a second time creates nothing:
    against an environment that refuses no call, the second run of any of
    the five import methods makes no [create] call, also for a record it
    looks for and does not find (a parameter without [value], a module the
    target does not have). *)
Theorem second_import_creates_nothing (t : entity) (items : list pyval)
    (w : world) :
  faultless w → Forall unique_keys items →
  let w1 := (method_of t (PList items) w).2 in
  calls (λ o, is_create o = false) w1 (method_of t (PList items) w1).2.
Proof.
  intros Hf Hu w1.
  assert (t = ModuleState ∨ t ≠ ModuleState) as [->|Ht]
    by (destruct t; (by left) || (by right)).
  - apply read_only_no_create, read_only_module_states.
  - subst w1. rewrite !method_of_list.
    apply (loop_again t _ (round_found_no_create t)); done.
Qed.

Lemma second_import_creates_nothing_witness :
  faultless empty_target ∧ Forall unique_keys sample_params ∧
  let w1 := (_import_config_params (PList sample_params) empty_target).2 in
  calls (λ o, is_create o = false) w1
    (_import_config_params (PList sample_params) w1).2.
Proof.
  assert (faultless empty_target) as Hf by (intros d o; reflexivity).
  assert (Forall unique_keys sample_params) as Hu
    by (apply (bool_decide_unpack _); vm_compute; exact I).
  split; [exact Hf|]. split; [exact Hu|].
  exact (second_import_creates_nothing ConfigParameter sample_params empty_target
           Hf Hu).
Defined.

(** X10. Importing the same list of groups a second time is a no-op on the
    records: against an environment that refuses no call the second run of
    [_import_user_groups] leaves the records as they are, makes no [create]
    or [write] call, and, when it returns, reports 0 imported records. *)
Theorem second_import_of_groups_changes_nothing (items : list pyval) (w : world) :
  faultless w → Forall unique_keys items →
  let w1 := (_import_user_groups (PList items) w).2 in
  read_only w1 (_import_user_groups (PList items) w1).2 ∧
  ∀ n, (_import_user_groups (PList items) w1).1 = Ok n → n = 0.
Proof.
  intros Hf Hu w1.
  assert (read_only w1 (_import_user_groups (PList items) w1).2) as Hr.
  { subst w1.
    change (_import_user_groups (PList items)) with (method_of UserGroup (PList items)).
    rewrite !method_of_list.
    apply (loop_again UserGroup _ round_found_group); done. }
  split; [exact Hr|]. intros n Hn.
  change (_import_user_groups (PList items) w1)
    with (for_records user_group_body user_group_handler items 0 w1) in Hn, Hr.
  destruct (user_groups_loop_spec items 0 w1) as (new & Ht & _ & Hc).
  rewrite Hn in Hc. destruct Hr as [Hd _]. rewrite Hd in Ht.
  rewrite <- (app_nil_r (table _ _)) in Ht at 1.
  apply app_inv_head in Ht. subst new. simpl in Hc. lia.
Qed.

Lemma second_import_of_groups_changes_nothing_witness :
  faultless empty_target ∧ Forall unique_keys sample_groups ∧
  let w1 := (_import_user_groups (PList sample_groups) empty_target).2 in
  read_only w1 (_import_user_groups (PList sample_groups) w1).2 ∧
  ∀ n, (_import_user_groups (PList sample_groups) w1).1 = Ok n → n = 0.
Proof.
  assert (faultless empty_target) as Hf by (intros d o; reflexivity).
  assert (Forall unique_keys sample_groups) as Hu
    by (apply (bool_decide_unpack _); vm_compute; exact I).
  split; [exact Hf|]. split; [exact Hu|].
  exact (second_import_of_groups_changes_nothing sample_groups empty_target Hf Hu).
Defined.

(** ** The last value of a key wins *)

Lemma last_value_in pairs k v :
  last_value pairs k = Some v → (k, v) ∈ pairs.
Proof.
  induction pairs as [|[k' v'] pairs IH] using rev_ind; [done|].
  rewrite last_value_snoc, elem_of_app, list_elem_of_singleton.
  destruct (decide (k' = k)) as [->|]; [intros [= ->]; by right | left; by apply IH].
Qed.

(** X11. When a document gives a key of ConfigParameter more than once, the
    value given last wins: after [_import_config_params] against an
    environment that refuses no call, a parameter with the key is there, and
    every parameter with the key has the value of the last record of the
    list that has the key and a value, among the records before the first
    item that is not a mapping. *)
Theorem last_value_wins (items : list pyval) (w : world) (k v : pyval) :
  faultless w → last_value (effective items) k = Some v →
  let rows :=
    table "ir.config_parameter" (db (_import_config_params (PList items) w).2) in
  existsb (has_key k) rows = true ∧
  Forall (λ row, dict_get "key" row = Some k → dict_get "value" row = Some v) rows.
Proof.
  intros Hf Hl rows. subst rows.
  change (_import_config_params (PList items) w)
    with (for_records config_param_body config_param_handler items 0 w).
  destruct (config_params_loop items 0 w Hf) as (_ & -> & _).
  rewrite foldl_upsert_db.
  destruct (effective items) as [|kv pairs] eqn:E; [done|].
  rewrite table_insert. rewrite <- E in *. clear E kv pairs.
  destruct (upsert_params_settled (effective items)
              (table "ir.config_parameter" (db w))) as [Hs Hk].
  split.
  - rewrite Forall_forall in Hk. by apply (Hk (k, v)), last_value_in.
  - eapply Forall_impl; [exact Hs|]. intros row Hrow Hkey. by apply (Hrow k).
Qed.

Lemma last_value_wins_witness :
  faultless live_target ∧
  last_value (effective twice_given) (PStr "web.base.url") =
    Some (PStr "https://erp.example.org") ∧
  let rows :=
    table "ir.config_parameter"
      (db (_import_config_params (PList twice_given) live_target).2) in
  existsb (has_key (PStr "web.base.url")) rows = true ∧
  Forall (λ row, dict_get "key" row = Some (PStr "web.base.url") →
                 dict_get "value" row = Some (PStr "https://erp.example.org")) rows.
Proof.
  assert (faultless live_target) as Hf by (intros d o; reflexivity).
  assert (last_value (effective twice_given) (PStr "web.base.url") =
            Some (PStr "https://erp.example.org")) as Hl by (vm_compute; reflexivity).
  split; [exact Hf|]. split; [exact Hl|].
  exact (last_value_wins twice_given live_target (PStr "web.base.url")
           (PStr "https://erp.example.org") Hf Hl).
Defined.

(** ** The exports *)

Lemma preserves_comprehension {A} (R : relation world) `{!PreOrder R}
    (f : nat → M A) ids :
  (∀ i, preserves R (f i)) → preserves R (comprehension f ids).
Proof.
  intros Hf. induction ids as [|i ids IH]; simpl; [apply preserves_ret; apply _|].
  apply preserves_bind; [apply _ | apply Hf | intros x].
  apply preserves_bind; [apply _ | apply IH | intros xs].
  apply preserves_ret; apply _.
Qed.

Lemma preserves_comprehension_if {A} (R : relation world) `{!PreOrder R}
    (cond : nat → M bool) (f : nat → M A) ids :
  (∀ i, preserves R (cond i)) → (∀ i, preserves R (f i)) →
  preserves R (comprehension_if cond f ids).
Proof.
  intros Hc Hf. induction ids as [|i ids IH]; simpl; [apply preserves_ret; apply _|].
  apply preserves_bind; [apply _ | apply Hc | intros [|]]; [|apply IH].
  apply preserves_bind; [apply _ | apply Hf | intros x].
  apply preserves_bind; [apply _ | apply IH | intros xs].
  apply preserves_ret; apply _.
Qed.

Lemma read_only_read_fields model id fields :
  preserves read_only (read_fields model id fields).
Proof.
  induction fields as [|f fields IH]; cbn [read_fields]; [preserves_auto|].
  preserves_step; [preserves_auto|].
  preserves_step; [apply IH | preserves_auto].
Qed.

Lemma read_only_project model fields id :
  preserves read_only (project model fields id).
Proof.
  unfold project. preserves_step; [apply read_only_read_fields | preserves_auto].
Qed.

Lemma read_only_module_is_exported id : preserves read_only (module_is_exported id).
Proof. unfold module_is_exported. preserves_auto. Qed.

(** X12. An export changes no record: whatever the environment does,
    [_export_config_params], [_export_sequences], [_export_external_ids] and
    [_export_module_states] leave every collection as it was, and the calls
    they make are searches and reads, never a [create] or a [write]. *)
Theorem exports_change_nothing (t : entity) (fields : list string)
    (export : M pyval) (w : world) :
  exporter t = Some (fields, export) → read_only w (export w).2.
Proof.
  intros H. revert w. change (preserves read_only export).
  destruct t; simpl in H; try discriminate; injection H as <- <-.
  - unfold _export_config_params. preserves_step; [|preserves_auto].
    preserves_step; [preserves_auto | preserves_step; [|preserves_auto]].
    apply preserves_comprehension; [apply _ | apply read_only_project].
  - unfold _export_sequences. preserves_step; [|preserves_auto].
    preserves_step; [preserves_auto | preserves_step; [|preserves_auto]].
    apply preserves_comprehension; [apply _ | apply read_only_project].
  - unfold _export_module_states. preserves_step; [|preserves_auto].
    preserves_step; [preserves_auto | preserves_step; [|preserves_auto]].
    apply preserves_comprehension_if;
      [apply _ | apply read_only_module_is_exported | apply read_only_project].
  - unfold _export_external_ids. preserves_step; [|preserves_auto].
    preserves_step; [preserves_auto | preserves_step; [|preserves_auto]].
    apply preserves_comprehension; [apply _ | apply read_only_project].
Qed.

Lemma exports_change_nothing_witness :
  exporter Sequence = Some (sequence_fields, _export_sequences) ∧
  read_only full_target (_export_sequences full_target).2.
Proof.
  split; [reflexivity|].
  exact (exports_change_nothing Sequence sequence_fields _export_sequences
           full_target eq_refl).
Defined.

Lemma env_read_run model i f row w :
  faults w (db w) (OpRead model [i] f) = None →
  table model (db w) !! i = Some row →
  env_read model [i] f w =
    (Ok (field_value row f),
     World (fs w) (db w) (ops w ++ [OpRead model [i] f]) (logs w) (faults w)).
Proof.
  intros Hf Hi. unfold env_read. rewrite orm_call_run by done.
  simpl. by rewrite Hi.
Qed.

Lemma read_fields_run model i row fields : ∀ w,
  faultless w → table model (db w) !! i = Some row →
  ∃ w', read_fields model i fields w =
          (Ok ((λ f, (f, field_value row f)) <$> fields), w') ∧
        db w' = db w ∧ faults w' = faults w.
Proof.
  induction fields as [|f fields IH]; intros w Hf Hi; [by exists w|].
  cbn [read_fields]. rewrite bind_run, (env_read_run model i f row) by done.
  cbv beta iota.
  set (w1 := World _ _ _ _ _).
  destruct (IH w1) as (w' & Hr & Hd & Hfa); [done | done |].
  exists w'. rewrite bind_run, Hr. by cbv beta iota.
Qed.

Lemma project_run model fields i row w :
  faultless w → table model (db w) !! i = Some row →
  ∃ w', project model fields i w = (Ok (projection fields row), w') ∧
        db w' = db w ∧ faults w' = faults w.
Proof.
  intros Hf Hi.
  destruct (read_fields_run model i row fields w Hf Hi) as (w' & Hr & Hd & Hfa).
  exists w'. unfold project. rewrite bind_run, Hr. by cbv beta iota.
Qed.

Lemma faultless_same w w' : faults w' = faults w → faultless w → faultless w'.
Proof. intros E H d o. by rewrite E. Qed.

(** The comprehension over the records from the id [length pre] on. *)
Lemma comprehension_rows model fields rows : ∀ pre w,
  faultless w → table model (db w) = pre ++ rows →
  ∃ w', comprehension (project model fields) (seq (length pre) (length rows)) w =
          (Ok (projection fields <$> rows), w') ∧
        db w' = db w ∧ faults w' = faults w.
Proof.
  induction rows as [|row rows IH]; intros pre w Hf Ht; [by exists w|].
  cbn [length seq comprehension]. rewrite bind_run.
  destruct (project_run model fields (length pre) row w Hf) as (w1 & Hr & Hd & Hfa).
  { rewrite Ht. by apply list_lookup_middle. }
  rewrite Hr. cbv beta iota.
  destruct (IH (pre ++ [row]) w1) as (w' & Hr' & Hd' & Hfa').
  { by apply (faultless_same w). }
  { by rewrite Hd, Ht, <- app_assoc. }
  rewrite length_app, Nat.add_1_r in Hr'.
  exists w'. rewrite bind_run, Hr'. cbv beta iota.
  split; [done|]. split; congruence.
Qed.

Lemma module_is_exported_run i row w :
  faultless w → table "ir.module.module" (db w) !! i = Some row →
  ∃ w', module_is_exported i w = (Ok (bool_decide (state_is_exported row)), w') ∧
        db w' = db w ∧ faults w' = faults w.
Proof.
  intros Hf Hi. unfold module_is_exported.
  rewrite bind_run, (env_read_run _ i "state" row) by done.
  eexists. split; [reflexivity|]. done.
Qed.

Lemma comprehension_if_rows fields rows : ∀ pre w,
  faultless w → table "ir.module.module" (db w) = pre ++ rows →
  ∃ w', comprehension_if module_is_exported (project "ir.module.module" fields)
          (seq (length pre) (length rows)) w =
          (Ok (projection fields <$> filter state_is_exported rows), w') ∧
        db w' = db w ∧ faults w' = faults w.
Proof.
  induction rows as [|row rows IH]; intros pre w Hf Ht; [by exists w|].
  cbn [length seq comprehension_if]. rewrite bind_run.
  assert (table "ir.module.module" (db w) !! length pre = Some row) as Hi
    by (rewrite Ht; by apply list_lookup_middle).
  destruct (module_is_exported_run (length pre) row w Hf Hi) as (w0 & Hr0 & Hd0 & Hfa0).
  rewrite Hr0. cbv beta iota.
  assert (faultless w0) as Hf0 by (by apply (faultless_same w)).
  rewrite filter_cons.
  destruct (decide (state_is_exported row)) as [Hs|Hs].
  - rewrite bool_decide_eq_true_2 by done. rewrite bind_run.
    destruct (project_run "ir.module.module" fields (length pre) row w0 Hf0)
      as (w1 & Hr & Hd & Hfa); [by rewrite Hd0|].
    rewrite Hr. cbv beta iota.
    destruct (IH (pre ++ [row]) w1) as (w' & Hr' & Hd' & Hfa').
    { by apply (faultless_same w0). }
    { by rewrite Hd, Hd0, Ht, <- app_assoc. }
    rewrite length_app, Nat.add_1_r in Hr'.
    exists w'. rewrite bind_run, Hr'. cbv beta iota.
    split; [done|]. split; congruence.
  - rewrite bool_decide_eq_false_2 by done.
    destruct (IH (pre ++ [row]) w0) as (w' & Hr' & Hd' & Hfa').
    { done. }
    { by rewrite Hd0, Ht, <- app_assoc. }
    rewrite length_app, Nat.add_1_r in Hr'.
    exists w'. rewrite Hr'. split; [done|]. split; congruence.
Qed.

Lemma search_from_all i rows : search_from i [] rows = seq i (length rows).
Proof.
  revert i. induction rows as [|r rows IH]; intros i; simpl; [done|].
  by rewrite IH.
Qed.

(** What an export returns against an environment that refuses no call. *)
Lemma exporter_run t fields export w :
  exporter t = Some (fields, export) → faultless w →
  ∃ w', export w =
          (Ok (PList (projection fields <$>
                        exported_rows t (table (collection t) (db w)))), w') ∧
        db w' = db w ∧ faults w' = faults w.
Proof.
  intros H Hf.
  destruct t; simpl in H; try discriminate; injection H as <- <-; simpl.
  - unfold _export_config_params.
    rewrite try_except_run, bind_run, env_search_run by done. cbv beta iota.
    rewrite search_from_all. set (w0 := World _ _ _ _ _).
    destruct (comprehension_rows "ir.config_parameter" config_param_fields
                (table "ir.config_parameter" (db w)) [] w0)
      as (w' & Hr & Hd & Hfa); [done | done |].
    simpl length at 1 in Hr. rewrite bind_run, Hr. cbv beta iota.
    eexists. split; [reflexivity|]. done.
  - unfold _export_sequences.
    rewrite try_except_run, bind_run, env_search_run by done. cbv beta iota.
    rewrite search_from_all. set (w0 := World _ _ _ _ _).
    destruct (comprehension_rows "ir.sequence" sequence_fields
                (table "ir.sequence" (db w)) [] w0)
      as (w' & Hr & Hd & Hfa); [done | done |].
    simpl length at 1 in Hr. rewrite bind_run, Hr. cbv beta iota.
    eexists. split; [reflexivity|]. done.
  - unfold _export_module_states.
    rewrite try_except_run, bind_run, env_search_run by done. cbv beta iota.
    rewrite search_from_all. set (w0 := World _ _ _ _ _).
    destruct (comprehension_if_rows module_state_fields
                (table "ir.module.module" (db w)) [] w0)
      as (w' & Hr & Hd & Hfa); [done | done |].
    simpl length at 1 in Hr. rewrite bind_run, Hr. cbv beta iota.
    eexists. split; [reflexivity|]. done.
  - unfold _export_external_ids.
    rewrite try_except_run, bind_run, env_search_run by done. cbv beta iota.
    rewrite search_from_all. set (w0 := World _ _ _ _ _).
    destruct (comprehension_rows "ir.model.data" external_id_fields
                (table "ir.model.data" (db w)) [] w0)
      as (w' & Hr & Hd & Hfa); [done | done |].
    simpl length at 1 in Hr. rewrite bind_run, Hr. cbv beta iota.
    eexists. split; [reflexivity|]. done.
Qed.

(** X13. Against an environment that refuses no call an export returns one
    record for each live record of its collection, in the order of their
    ids, none left out and none twice, each cut down to the fields the
    export names, a field the record has not set read as [False]. The export
    of module states takes only the modules whose state is [installed],
    [to_install] or [to_upgrade]. *)
Theorem export_lists_every_record (t : entity) (fields : list string)
    (export : M pyval) (w : world) :
  exporter t = Some (fields, export) → faultless w →
  (export w).1 =
    Ok (PList (projection fields <$> exported_rows t (table (collection t) (db w)))).
Proof.
  intros H Hf. destruct (exporter_run t fields export w H Hf) as (w' & -> & _).
  reflexivity.
Qed.

Lemma export_lists_every_record_witness :
  exporter ModuleState = Some (module_state_fields, _export_module_states) ∧
  faultless full_target ∧
  (_export_module_states full_target).1 =
    Ok (PList
          [PDict [("name", PStr "base"); ("state", PStr "installed");
                  ("auto_install", PBool false); ("sequence", PInt 1)];
           PDict [("name", PStr "stock"); ("state", PStr "to_upgrade");
                  ("auto_install", PBool true); ("sequence", PInt 20)]]).
Proof.
  assert (faultless full_target) as Hf by (intros d o; reflexivity).
  split; [reflexivity|]. split; [exact Hf|].
  exact (export_lists_every_record ModuleState module_state_fields
           _export_module_states full_target eq_refl Hf).
Defined.

(** ** Importing what was exported *)

Lemma field_value_get f row :
  is_Some (dict_get f row) → dict_get f row = Some (field_value row f).
Proof. intros [v H]. unfold field_value. by rewrite H. Qed.

Lemma projection_entries fields row :
  complete fields row →
  Forall (λ kv, dict_get kv.1 row = Some kv.2) (record_of fields row).
Proof.
  intros H. apply Forall_fmap. eapply Forall_impl; [exact H|].
  intros f Hf. by apply field_value_get.
Qed.

Lemma dict_update_same row vals :
  Forall (λ kv, dict_get kv.1 row = Some kv.2) vals → dict_update row vals = row.
Proof.
  induction 1 as [|[k v] vals H _ IH]; simpl; [done|].
  by rewrite dict_set_same.
Qed.

Lemma Forall_dict_pop (P : string * pyval → Prop) k (d : dict) :
  Forall P d → Forall P (dict_pop k d).
Proof.
  induction 1 as [|[k' v] d H _ IH]; simpl; [constructor|].
  destruct (decide (k' = k)); [done | by constructor].
Qed.

(** A write on the records found by a domain that only the record [row]
    satisfies, with the values [row] has, changes nothing. *)
Lemma write_same model domain vals row (d : database) :
  row ∈ table model d →
  (∀ r, r ∈ table model d → matches domain r = true → r = row) →
  dict_update row vals = row →
  <[model := write_from 0 (search_from 0 domain (table model d)) vals (table model d)]> d
    = d.
Proof.
  intros Hin Hone Hup. rewrite write_from_search.
  assert ((λ r, if matches domain r then dict_update r vals else r) <$> table model d
          = table model d) as ->.
  { rewrite <- (list_fmap_id (table model d)) at 2.
    apply list_fmap_ext. intros i r Hi. simpl.
    destruct (matches domain r) eqn:E; [|done].
    by rewrite (Hone r (list_elem_of_lookup_2 _ _ _ Hi) E). }
  unfold table in *. destruct (d !! model) as [rows|] eqn:E; simpl in *.
  - by apply insert_id.
  - by apply elem_of_nil in Hin.
Qed.

Lemma present_of_row model domain row (d : database) :
  row ∈ table model d → matches domain row = true →
  nonempty (search_from 0 domain (table model d)) = true.
Proof.
  intros Hin Hm. rewrite nonempty_search_from. apply existsb_exists.
  exists row. split; [by apply list_elem_of_In | done].
Qed.

(** One round on the export of a live record: the record is found, written
    with its own values, and counted. *)
Lemma round_same t fields export row n w :
  exporter t = Some (fields, export) → upserts t = true → faultless w →
  row ∈ table (collection t) (db w) → complete fields row →
  key_determines t (table (collection t) (db w)) →
  ∃ w', round_of t (projection fields row) n w = (Ok (S n), w') ∧
        db w' = db w ∧ faults w' = faults w.
Proof.
  intros H Hu Hf Hin Hc Hk.
  pose proof (projection_entries fields row Hc) as He.
  destruct t; try discriminate; simpl in H; injection H as <- <-;
    unfold round_of; rewrite try_except_run; simpl body_of; simpl collection in *;
    unfold projection, record_of, config_param_fields, sequence_fields,
      external_id_fields;
    cbn [fmap list_fmap].
  - apply Forall_cons in Hc as [Hkey [Hval _]%Forall_cons].
    apply field_value_get in Hkey, Hval.
    rewrite (config_param_body_run _ (field_value row "key") (field_value row "value"))
      by done.
    cbv zeta. unfold find_by.
    rewrite (present_of_row _ _ row)
      by (done || (unfold matches; simpl; by rewrite bool_decide_eq_true_2)).
    rewrite bind_run, env_write_run by apply Hf. cbv beta iota. mret.
    eexists. split; [reflexivity|]. split; [|done]. simpl.
    apply (write_same _ _ _ row); [done | |].
    + intros r Hr Hm. apply Hk; [done | done |].
      intros f ->%list_elem_of_singleton.
      by rewrite (matches_get _ "key" (field_value row "key") r Hm), Hkey.
    + apply dict_update_same. by repeat constructor.
  - assert (is_Some (dict_get "code" row)) as Hcode.
    { unfold complete in Hc. rewrite Forall_forall in Hc. apply Hc.
      unfold sequence_fields. set_solver. }
    apply field_value_get in Hcode.
    rewrite (sequence_body_run _ (field_value row "code")) by done.
    cbv zeta. unfold find_by.
    rewrite (present_of_row _ _ row)
      by (done || (unfold matches; simpl; by rewrite bool_decide_eq_true_2)).
    rewrite bind_run, env_write_run by apply Hf. cbv beta iota. mret.
    eexists. split; [reflexivity|]. split; [|done]. simpl db.
    apply (write_same _ _ _ row); [done | |].
    + intros r Hr Hm. apply Hk; [done | done |].
      intros f ->%list_elem_of_singleton.
      by rewrite (matches_get _ "code" (field_value row "code") r Hm), Hcode.
    + apply dict_update_same. exact (Forall_dict_pop _ "number_next" _ He).
  - assert (is_Some (dict_get "module" row) ∧ is_Some (dict_get "name" row))
      as [Hmod Hname].
    { unfold complete in Hc. rewrite Forall_forall in Hc.
      split; apply Hc; unfold external_id_fields; set_solver. }
    apply field_value_get in Hmod, Hname.
    rewrite (external_id_body_run _ (field_value row "module") (field_value row "name"))
      by done.
    cbv zeta.
    rewrite (present_of_row _ _ row)
      by (done || (unfold matches; simpl; by rewrite !bool_decide_eq_true_2)).
    rewrite bind_run, env_write_run by apply Hf. cbv beta iota. mret.
    eexists. split; [reflexivity|]. split; [|done]. simpl db.
    apply (write_same _ _ _ row); [done | |].
    + intros r Hr Hm. apply Hk; [done | done |].
      intros f [->| ->%list_elem_of_singleton]%elem_of_cons.
      * by rewrite (matches_get _ "module" (field_value row "module") r Hm), Hmod.
      * by rewrite (matches_get _ "name" (field_value row "name") r Hm), Hname.
    + by apply dict_update_same.
Qed.

Lemma loop_same t fields export rows : ∀ n w,
  exporter t = Some (fields, export) → upserts t = true → faultless w →
  Forall (λ row, row ∈ table (collection t) (db w) ∧ complete fields row) rows →
  key_determines t (table (collection t) (db w)) →
  ∃ w', for_records (body_of t) (handler_of t) (projection fields <$> rows) n w =
          (Ok (n + length rows), w') ∧
        db w' = db w ∧ faults w' = faults w.
Proof.
  induction rows as [|row rows IH]; intros n w H Hu Hf Hrows Hk.
  - exists w. simpl. by rewrite Nat.add_0_r.
  - apply Forall_cons in Hrows as [[Hin Hc] Hrows].
    rewrite fmap_cons, for_records_round.
    destruct (round_same t fields export row n w H Hu Hf Hin Hc Hk)
      as (w1 & -> & Hd & Hfa).
    destruct (IH (S n) w1) as (w' & -> & Hd' & Hfa'); try done.
    + by apply (faultless_same w).
    + by rewrite Hd.
    + by rewrite Hd.
    + exists w'. simpl length. rewrite Nat.add_succ_r. split; [done|].
      split; congruence.
Qed.

(** X14. Taking an export straight back in changes no record. For
    parameters, sequences and external ids, against an environment that
    refuses no call, when every record of the collection has the exported
    fields set and no two different records share the key the import looks
    records up by: the export returns, the import of what it returned counts
    every record of the collection, and the records are, all of them, as
    they were before the export. *)
Theorem export_then_import_changes_nothing (t : entity) (fields : list string)
    (export : M pyval) (w : world) :
  exporter t = Some (fields, export) → upserts t = true → faultless w →
  Forall (complete fields) (table (collection t) (db w)) →
  key_determines t (table (collection t) (db w)) →
  ∃ data w1,
    export w = (Ok data, w1) ∧
    (method_of t data w1).1 = Ok (length (table (collection t) (db w))) ∧
    db (method_of t data w1).2 = db w.
Proof.
  intros H Hu Hf Hc Hk.
  destruct (exporter_run t fields export w H Hf) as (w1 & Hr & Hd & Hfa).
  assert (exported_rows t (table (collection t) (db w)) = table (collection t) (db w))
    as E by (by destruct t).
  rewrite E in Hr. eexists _, w1. split; [exact Hr|].
  rewrite method_of_list.
  destruct (loop_same t fields export (table (collection t) (db w)) 0 w1)
    as (w' & -> & Hd' & _); try done.
  - by apply (faultless_same w).
  - rewrite Hd. apply Forall_forall. intros row Hin. split; [done|].
    rewrite Forall_forall in Hc. by apply Hc.
  - by rewrite Hd.
  - simpl. split; [done | congruence].
Qed.

Lemma export_then_import_changes_nothing_witness :
  exporter Sequence = Some (sequence_fields, _export_sequences) ∧
  upserts Sequence = true ∧ faultless full_target ∧
  Forall (complete sequence_fields) (table "ir.sequence" (db full_target)) ∧
  key_determines Sequence (table "ir.sequence" (db full_target)) ∧
  ∃ data w1,
    _export_sequences full_target = (Ok data, w1) ∧
    (_import_sequences data w1).1 = Ok 2 ∧
    db (_import_sequences data w1).2 = db full_target.
Proof.
  assert (faultless full_target) as Hf by (intros d o; reflexivity).
  assert (Forall (complete sequence_fields) (table "ir.sequence" (db full_target)))
    as Hc by (apply (bool_decide_unpack _); vm_compute; exact I).
  assert (key_determines Sequence (table "ir.sequence" (db full_target))) as Hk.
  { intros r r' Hr Hr' Hag. specialize (Hag "code" (list_elem_of_here _ _)).
    change (table "ir.sequence" (db full_target))
      with [full_sequence "Sale" "S1" 25; full_sequence "Purchase" "P1" 7] in Hr, Hr'.
    apply elem_of_cons in Hr as [->|Hr%list_elem_of_singleton];
      apply elem_of_cons in Hr' as [->|Hr'%list_elem_of_singleton];
      subst; try reflexivity; discriminate Hag. }
  split; [reflexivity|]. split; [reflexivity|]. split; [exact Hf|].
  split; [exact Hc|]. split; [exact Hk|].
  exact (export_then_import_changes_nothing Sequence sequence_fields
           _export_sequences full_target eq_refl eq_refl Hf Hc Hk).
Defined.

(** ** Importing an export into a target that has none of the records *)

Lemma matches_identity (l : list string) row r :
  matches ((λ f, (f, field_value row f)) <$> l) r = true →
  field_value r <$> l = field_value row <$> l.
Proof.
  unfold matches. induction l as [|f l IH]; [done|].
  rewrite !fmap_cons. cbn [forallb fst snd].
  intros [H1 H2]%andb_true_iff. apply bool_decide_eq_true in H1.
  f_equal; [|by apply IH]. unfold field_value at 1. by rewrite H1.
Qed.

Lemma field_value_record_of fields row f :
  f ∈ fields → field_value (record_of fields row) f = field_value row f.
Proof.
  unfold record_of. induction fields as [|f' fields IH]; [by intros ?%elem_of_nil|].
  intros Hin. unfold field_value at 1. rewrite fmap_cons. simpl dict_get.
  destruct (decide (f' = f)) as [->|Hne]; [done|].
  apply elem_of_cons in Hin as [->|Hin]; [done|]. by apply IH.
Qed.

Lemma identity_record_of t fields export row :
  exporter t = Some (fields, export) →
  identity t (record_of fields row) = identity t row.
Proof.
  intros H. unfold identity. apply list_fmap_ext. intros _ f Hf%list_elem_of_lookup_2.
  apply field_value_record_of.
  apply list_elem_of_In. apply list_elem_of_In in Hf.
  destruct t; simpl in H; try discriminate; injection H as <- _;
    simpl in *; tauto.
Qed.

Lemma absent_of_rows model domain (d : database) :
  (∀ r, r ∈ table model d → matches domain r = false) →
  nonempty (search_from 0 domain (table model d)) = false.
Proof.
  intros H. rewrite nonempty_search_from. apply not_true_is_false.
  intros (r & Hin & Hm)%existsb_exists. apply list_elem_of_In in Hin.
  by rewrite (H r Hin) in Hm.
Qed.

(** One round on the export of a record whose identity no record of the
    target has: the record is created as it was exported, and counted. *)
Lemma round_fresh t fields export row n w :
  exporter t = Some (fields, export) → upserts t = true → faultless w →
  (∀ r, r ∈ table (collection t) (db w) → identity t r ≠ identity t row) →
  ∃ w', round_of t (projection fields row) n w = (Ok (S n), w') ∧
        db w' = <[collection t :=
                    table (collection t) (db w) ++ [record_of fields row]]> (db w) ∧
        faults w' = faults w.
Proof.
  intros H Hu Hf Hnew.
  assert (∀ r, r ∈ table (collection t) (db w) →
               matches ((λ f, (f, field_value row f)) <$> identity_fields t) r = false)
    as Habs.
  { intros r Hr. apply not_true_is_false. intros Hm%matches_identity.
    by apply (Hnew r). }
  apply absent_of_rows in Habs.
  destruct t; try discriminate; simpl in H; injection H as <- <-;
    unfold round_of; rewrite try_except_run; simpl body_of; simpl collection in *;
    unfold projection, record_of, config_param_fields, sequence_fields,
      external_id_fields;
    cbn [fmap list_fmap identity_fields] in *.
  - rewrite (config_param_body_run _ (field_value row "key") (field_value row "value"))
      by done.
    cbv zeta. unfold find_by. rewrite Habs.
    rewrite bind_run, env_create_run by apply Hf. cbv beta iota. mret.
    eexists. split; [reflexivity|]. done.
  - rewrite (sequence_body_run _ (field_value row "code")) by done.
    cbv zeta. unfold find_by. rewrite Habs.
    rewrite bind_run, env_create_run by apply Hf. cbv beta iota. mret.
    eexists. split; [reflexivity|]. done.
  - rewrite (external_id_body_run _ (field_value row "module") (field_value row "name"))
      by done.
    cbv zeta. rewrite Habs.
    rewrite bind_run, env_create_run by apply Hf. cbv beta iota. mret.
    eexists. split; [reflexivity|]. done.
Qed.

Lemma loop_fresh t fields export rest : ∀ pre n w,
  exporter t = Some (fields, export) → upserts t = true → faultless w →
  table (collection t) (db w) = record_of fields <$> pre →
  NoDup (identity t <$> (pre ++ rest)) →
  ∃ w', for_records (body_of t) (handler_of t) (projection fields <$> rest) n w =
          (Ok (n + length rest), w') ∧
        table (collection t) (db w') = record_of fields <$> (pre ++ rest) ∧
        faults w' = faults w.
Proof.
  induction rest as [|row rest IH]; intros pre n w H Hu Hf Ht Hnd.
  - exists w. simpl. by rewrite Nat.add_0_r, app_nil_r.
  - rewrite fmap_cons, for_records_round.
    destruct (round_fresh t fields export row n w H Hu Hf) as (w1 & -> & Hd & Hfa).
    { intros r Hr E. rewrite Ht in Hr.
      apply list_elem_of_fmap in Hr as (r0 & -> & Hr0).
      rewrite (identity_record_of t fields export r0 H) in E.
      rewrite fmap_app, fmap_cons in Hnd.
      apply NoDup_app in Hnd as (_ & Hnd & _).
      apply (Hnd (identity t r0)); [by apply list_elem_of_fmap_2 | rewrite E; by left]. }
    destruct (IH (pre ++ [row]) (S n) w1) as (w' & -> & Ht' & Hfa'); try done.
    + by apply (faultless_same w).
    + by rewrite Hd, table_insert, Ht, fmap_app.
    + by rewrite <- app_assoc.
    + exists w'. rewrite <- app_assoc in Ht'. simpl length. rewrite Nat.add_succ_r.
      split; [done|]. split; [done | congruence].
Qed.

(** X15. An export taken from one environment and imported into another
    whose collection is empty recreates the collection. For parameters,
    sequences and external ids, when neither environment refuses a call and
    no two records of the source share the key the import looks records up
    by: the import counts every record of the source, and the collection of
    the target is then the records of the source, in their order, each with
    the exported fields and the values the source had for them, the
    [number_next] of a sequence included. *)
Theorem import_into_an_empty_target (t : entity) (fields : list string)
    (export : M pyval) (source target : world) :
  exporter t = Some (fields, export) → upserts t = true →
  faultless source → faultless target →
  table (collection t) (db target) = [] →
  NoDup (identity t <$> table (collection t) (db source)) →
  ∃ data source',
    export source = (Ok data, source') ∧
    (method_of t data target).1 = Ok (length (table (collection t) (db source))) ∧
    table (collection t) (db (method_of t data target).2) =
      record_of fields <$> table (collection t) (db source).
Proof.
  intros H Hu Hfs Hft He Hnd.
  destruct (exporter_run t fields export source H Hfs) as (w1 & Hr & _ & _).
  assert (exported_rows t (table (collection t) (db source)) =
          table (collection t) (db source)) as E by (by destruct t).
  rewrite E in Hr. eexists _, w1. split; [exact Hr|].
  rewrite method_of_list.
  destruct (loop_fresh t fields export (table (collection t) (db source)) [] 0 target)
    as (w' & -> & Ht & _); done.
Qed.

Lemma import_into_an_empty_target_witness :
  exporter Sequence = Some (sequence_fields, _export_sequences) ∧
  upserts Sequence = true ∧ faultless full_target ∧ faultless empty_target ∧
  table "ir.sequence" (db empty_target) = [] ∧
  NoDup (identity Sequence <$> table "ir.sequence" (db full_target)) ∧
  ∃ data source',
    _export_sequences full_target = (Ok data, source') ∧
    (_import_sequences data empty_target).1 = Ok 2 ∧
    table "ir.sequence" (db (_import_sequences data empty_target).2) =
      [full_sequence "Sale" "S1" 25; full_sequence "Purchase" "P1" 7].
Proof.
  assert (faultless full_target) as Hs by (intros d o; reflexivity).
  assert (faultless empty_target) as Ht by (intros d o; reflexivity).
  assert (NoDup (identity Sequence <$> table "ir.sequence" (db full_target)))
    as Hnd by (apply (bool_decide_unpack _); vm_compute; exact I).
  split; [reflexivity|]. split; [reflexivity|]. split; [exact Hs|].
  split; [exact Ht|]. split; [reflexivity|]. split; [exact Hnd|].
  exact (import_into_an_empty_target Sequence sequence_fields _export_sequences
           full_target empty_target eq_refl eq_refl Hs Ht eq_refl Hnd).
Defined.

(** ** YamlFileStorage.import_ir_model_data *)

Lemma external_id_body_ok d n w :
  faultless w → has_fields ["module"; "name"] (PDict d) →
  ∃ w', external_id_body (PDict d) n w = (Ok (S n), w') ∧ faults w' = faults w.
Proof.
  intros Hf [[m Hm] [[name Hn] _]%Forall_cons]%Forall_cons.
  rewrite (external_id_body_run d m name) by done. cbv zeta.
  destruct (nonempty _).
  - rewrite bind_run, env_write_run by apply Hf. cbv beta iota. mret.
    by eexists.
  - rewrite bind_run, env_create_run by apply Hf. cbv beta iota. mret.
    by eexists.
Qed.

(** On well-formed records the loop without a handler and the loop of
    [_import_external_ids] do the same. *)
Lemma model_data_loop_ok items : ∀ n w,
  faultless w → Forall (has_fields ["module"; "name"]) items →
  ∃ w', model_data_loop items n w = (Ok (n + length items), w') ∧
        for_records external_id_body external_id_handler items n w =
          (Ok (n + length items), w') ∧
        faults w' = faults w.
Proof.
  induction items as [|x rest IH]; intros n w Hf Hi.
  - exists w. simpl. by rewrite Nat.add_0_r.
  - apply Forall_cons in Hi as [Hx Hi]. destruct x as [| | | | |d]; try done.
    destruct (external_id_body_ok d n w Hf Hx) as (w1 & Hb & Hfa).
    destruct (IH (S n) w1) as (w' & Hl & Hr & Hfa');
      [by apply (faultless_same w) | done |].
    exists w'. simpl length. rewrite Nat.add_succ_r.
    cbn [model_data_loop for_records]. rewrite !bind_run, try_except_run.
    change (model_data_body (PDict d) n w) with (external_id_body (PDict d) n w).
    rewrite Hb. cbv beta iota. split; [done|]. split; [done | congruence].
Qed.

Lemma model_data_loop_stops pre x rest : ∀ n w n1 w1 e w2,
  model_data_loop pre n w = (Ok n1, w1) →
  model_data_body x n1 w1 = (Raise e, w2) →
  model_data_loop (pre ++ x :: rest) n w = (Raise e, w2).
Proof.
  induction pre as [|y pre IH]; intros n w n1 w1 e w2 Hp Hx.
  - injection Hp as <- <-. simpl. by rewrite bind_run, Hx.
  - simpl in Hp |- *. rewrite bind_run in Hp |- *.
    destruct (model_data_body y n w) as [[n'|e'] w']; [|discriminate].
    by apply (IH n' w' n1 w1).
Qed.

Lemma import_ir_model_data_run source_path d items w :
  fs w !! (source_path +:+ "/ir_model_data.yml") = Some (YamlDoc (PDict d)) →
  dict_get "ir_model_data" d = Some (PList items) →
  import_ir_model_data source_path w =
    match model_data_loop items 0 w with
    | (Ok n, w') =>
        (Ok n, (log INFO "Imported {} ir.model.data records" [PInt (Z.of_nat n)] w').2)
    | (Raise e, w') =>
        (Raise e,
         (log ERROR "Failed to import ir.model.data: {}" [PStr (str_exn e)] w').2)
    end.
Proof.
  intros Hfs Hd. unfold import_ir_model_data.
  rewrite try_except_run, bind_run, (read_yaml_doc _ (PDict d)) by done.
  cbv beta iota. simpl py_get. rewrite Hd. simpl default. mret.
  simpl py_iter. mret. rewrite bind_run.
  by destruct (model_data_loop items 0 w) as [[n|e] w'].
Qed.

(** X16. On a document whose records all have their [module] and [name],
    against an environment that refuses no call, [import_ir_model_data]
    does what [_import_external_ids] does on the same records: both return
    the number of records of the document, make the same calls and leave the
    same records. *)
Theorem model_data_import_agrees (source_path : string) (d : dict)
    (items : list pyval) (w : world) :
  faultless w →
  fs w !! (source_path +:+ "/ir_model_data.yml") = Some (YamlDoc (PDict d)) →
  dict_get "ir_model_data" d = Some (PList items) →
  Forall (has_fields ["module"; "name"]) items →
  let r := import_ir_model_data source_path w in
  let r' := _import_external_ids (PList items) w in
  r.1 = Ok (length items) ∧ r'.1 = Ok (length items) ∧
  db r.2 = db r'.2 ∧ ops r.2 = ops r'.2.
Proof.
  intros Hf Hfs Hd Hi r r'. subst r r'.
  rewrite (import_ir_model_data_run source_path d items) by done.
  change (_import_external_ids (PList items) w)
    with (for_records external_id_body external_id_handler items 0 w).
  destruct (model_data_loop_ok items 0 w Hf Hi) as (w' & -> & -> & _).
  done.
Qed.

Lemma model_data_import_agrees_witness :
  faultless ids_target ∧
  fs ids_target !! ("ids" +:+ "/ir_model_data.yml") =
    Some (YamlDoc (PDict [("ir_model_data", PList sample_ids)])) ∧
  dict_get "ir_model_data" [("ir_model_data", PList sample_ids)] =
    Some (PList sample_ids) ∧
  Forall (has_fields ["module"; "name"]) sample_ids ∧
  let r := import_ir_model_data "ids" ids_target in
  let r' := _import_external_ids (PList sample_ids) ids_target in
  r.1 = Ok 2 ∧ r'.1 = Ok 2 ∧ db r.2 = db r'.2 ∧ ops r.2 = ops r'.2.
Proof.
  assert (faultless ids_target) as Hf by (intros d o; reflexivity).
  assert (Forall (has_fields ["module"; "name"]) sample_ids) as Hi
    by (repeat constructor; by eexists).
  split; [exact Hf|]. split; [reflexivity|]. split; [reflexivity|].
  split; [exact Hi|].
  exact (model_data_import_agrees "ids" [("ir_model_data", PList sample_ids)]
           sample_ids ids_target Hf eq_refl eq_refl Hi).
Defined.

(** X17. [import_ir_model_data] has no handler in its loop: the first
    record without a [module] ends the import. Against an environment that
    refuses no call, when the records before it are well formed, the call
    raises [KeyError('module')], the records before it stay imported, as
    [_import_external_ids] imports them, and no record after it is looked
    at. *)
Theorem model_data_import_stops_at_a_torn_record (source_path : string)
    (d x : dict) (pre rest : list pyval) (w : world) :
  faultless w →
  fs w !! (source_path +:+ "/ir_model_data.yml") = Some (YamlDoc (PDict d)) →
  dict_get "ir_model_data" d = Some (PList (pre ++ PDict x :: rest)) →
  Forall (has_fields ["module"; "name"]) pre →
  dict_get "module" x = None →
  let r := import_ir_model_data source_path w in
  let r' := _import_external_ids (PList pre) w in
  r.1 = Raise (KeyError "module") ∧ db r.2 = db r'.2 ∧ ops r.2 = ops r'.2.
Proof.
  intros Hf Hfs Hd Hi Hx r r'. subst r r'.
  rewrite (import_ir_model_data_run source_path d (pre ++ PDict x :: rest)) by done.
  change (_import_external_ids (PList pre) w)
    with (for_records external_id_body external_id_handler pre 0 w).
  destruct (model_data_loop_ok pre 0 w Hf Hi) as (w' & Hl & -> & _).
  rewrite (model_data_loop_stops pre (PDict x) rest 0 w _ w' (KeyError "module") w' Hl).
  - done.
  - unfold model_data_body. simpl py_getitem. by rewrite Hx.
Qed.

Lemma model_data_import_stops_at_a_torn_record_witness :
  let good := [PDict [("module", PStr "base"); ("name", PStr "group_user")]] in
  faultless torn_target ∧
  fs torn_target !! ("torn" +:+ "/ir_model_data.yml") =
    Some (YamlDoc (PDict [("ir_model_data", PList (good ++ torn_id :: sample_ids))])) ∧
  dict_get "ir_model_data" [("ir_model_data", PList (good ++ torn_id :: sample_ids))] =
    Some (PList (good ++ torn_id :: sample_ids)) ∧
  Forall (has_fields ["module"; "name"]) good ∧
  dict_get "module"
    [("name", PStr "orphan"); ("model", PStr "res.groups"); ("res_id", PInt 3)] = None ∧
  let r := import_ir_model_data "torn" torn_target in
  let r' := _import_external_ids (PList good) torn_target in
  r.1 = Raise (KeyError "module") ∧ db r.2 = db r'.2 ∧ ops r.2 = ops r'.2.
Proof.
  intros good.
  assert (faultless torn_target) as Hf by (intros d o; reflexivity).
  assert (Forall (has_fields ["module"; "name"]) good) as Hi
    by (repeat constructor; by eexists).
  split; [exact Hf|]. split; [reflexivity|]. split; [reflexivity|].
  split; [exact Hi|]. split; [reflexivity|].
  exact (model_data_import_stops_at_a_torn_record "torn"
           [("ir_model_data", PList (good ++ torn_id :: sample_ids))]
           [("name", PStr "orphan"); ("model", PStr "res.groups"); ("res_id", PInt 3)]
           good sample_ids torn_target Hf eq_refl eq_refl Hi eq_refl).
Defined.

(** X18. With nothing to read, [import_ir_model_data] imports nothing: when
    the file [ir_model_data.yml] is absent, is an empty document, or is a
    mapping without the key [ir_model_data], the call returns 0 and makes no
    call on the environment; the records are as before and only the log has
    grown. *)
Theorem model_data_import_of_nothing (source_path : string) (w : world) :
  fs w !! (source_path +:+ "/ir_model_data.yml") = None ∨
  fs w !! (source_path +:+ "/ir_model_data.yml") = Some (YamlDoc PNone) ∨
  (∃ d, fs w !! (source_path +:+ "/ir_model_data.yml") = Some (YamlDoc (PDict d)) ∧
        dict_get "ir_model_data" d = None) →
  (import_ir_model_data source_path w).1 = Ok 0 ∧
  only_logged w (import_ir_model_data source_path w).2.
Proof.
  intros [H|[H|(d & H & Hd)]]; unfold import_ir_model_data;
    rewrite try_except_run, bind_run.
  - rewrite read_yaml_absent by done. cbv beta iota. by split.
  - rewrite (read_yaml_doc _ PNone) by done. cbv beta iota. by split.
  - rewrite (read_yaml_doc _ (PDict d)) by done. cbv beta iota.
    simpl py_get. rewrite Hd. by split.
Qed.

Lemma model_data_import_of_nothing_witness :
  (fs bare_target !! ("bare" +:+ "/ir_model_data.yml") = None ∨
   fs bare_target !! ("bare" +:+ "/ir_model_data.yml") = Some (YamlDoc PNone) ∨
   (∃ d, fs bare_target !! ("bare" +:+ "/ir_model_data.yml") =
           Some (YamlDoc (PDict d)) ∧
         dict_get "ir_model_data" d = None)) ∧
  (import_ir_model_data "bare" bare_target).1 = Ok 0 ∧
  only_logged bare_target (import_ir_model_data "bare" bare_target).2.
Proof.
  assert (fs bare_target !! ("bare" +:+ "/ir_model_data.yml") = None) as H
    by reflexivity.
  split; [by left|].
  exact (model_data_import_of_nothing "bare" bare_target (or_introl H)).
Defined.
